(** * grayBoxes: the execution tree of [Base] and the control loop of [Loop]

    A shallow embedding of [grayboxes/base.py] and [grayboxes/loop.py], and
    of [split] and [merge] of [grayboxes/parallel.py].

    Python objects are mutable and shared, so the nodes of a tree live in an
    object store indexed by references; a follower list holds references (or
    [None] after a destruction), and a leader is a reference.  Methods are
    state transformers that may return, raise, or run out of fuel (the
    recursion over a tree and the loops over leader links need not end on a
    cyclic structure). *)

From Stdlib Require Import Floats ZArith.
From stdpp Require Import gmap strings list fin_maps.

Set Warnings "-inexact-float".

(** ** Object store, outcomes and the method monad *)

Module Base.

(** References to [Base] objects ([id(x)] in the source). *)
Abbreviation ref := nat.

(** The payload of [_data]; Python's truth value of a sequence. *)
Definition Data := list Z.

Definition truthy (d : option Data) : bool :=
  match d with
  | None => false
  | Some [] => false
  | Some (_ :: _) => true
  end.

(** The attribute [_data] can be removed from an object with [del]. *)
Inductive attr :=
| Deleted
| Bound (v : option Data).

Record Node := mkNode {
  _identifier : string;
  _argv : list string;
  _gui : bool;
  _batch : bool;
  _silent : bool;
  _ready : bool;
  _preDone : bool;
  _taskDone : bool;
  _postDone : bool;
  _leader : option ref;
  _followers : list (option ref);
  _data : attr
}.

(** [Base.__init__] with the given identifier and program arguments. *)
Definition init (identifier : string) (argv : list string) : Node :=
  {| _identifier := identifier; _argv := argv;
     _gui := false; _batch := false; _silent := false; _ready := true;
     _preDone := false; _taskDone := false; _postDone := false;
     _leader := None; _followers := []; _data := Bound None |}.

#[global] Instance Node_inhabited : Inhabited Node := populate (init "Base" []).

Definition with_gui (v : bool) (n : Node) : Node :=
  mkNode (_identifier n) (_argv n) v (_batch n) (_silent n) (_ready n)
         (_preDone n) (_taskDone n) (_postDone n) (_leader n) (_followers n) (_data n).
Definition with_batch (v : bool) (n : Node) : Node :=
  mkNode (_identifier n) (_argv n) (_gui n) v (_silent n) (_ready n)
         (_preDone n) (_taskDone n) (_postDone n) (_leader n) (_followers n) (_data n).
Definition with_silent (v : bool) (n : Node) : Node :=
  mkNode (_identifier n) (_argv n) (_gui n) (_batch n) v (_ready n)
         (_preDone n) (_taskDone n) (_postDone n) (_leader n) (_followers n) (_data n).
Definition with_preDone (v : bool) (n : Node) : Node :=
  mkNode (_identifier n) (_argv n) (_gui n) (_batch n) (_silent n) (_ready n)
         v (_taskDone n) (_postDone n) (_leader n) (_followers n) (_data n).
Definition with_taskDone (v : bool) (n : Node) : Node :=
  mkNode (_identifier n) (_argv n) (_gui n) (_batch n) (_silent n) (_ready n)
         (_preDone n) v (_postDone n) (_leader n) (_followers n) (_data n).
Definition with_postDone (v : bool) (n : Node) : Node :=
  mkNode (_identifier n) (_argv n) (_gui n) (_batch n) (_silent n) (_ready n)
         (_preDone n) (_taskDone n) v (_leader n) (_followers n) (_data n).
Definition with_leader (v : option ref) (n : Node) : Node :=
  mkNode (_identifier n) (_argv n) (_gui n) (_batch n) (_silent n) (_ready n)
         (_preDone n) (_taskDone n) (_postDone n) v (_followers n) (_data n).
Definition with_followers (v : list (option ref)) (n : Node) : Node :=
  mkNode (_identifier n) (_argv n) (_gui n) (_batch n) (_silent n) (_ready n)
         (_preDone n) (_taskDone n) (_postDone n) (_leader n) v (_data n).
Definition with_data (v : attr) (n : Node) : Node :=
  mkNode (_identifier n) (_argv n) (_gui n) (_batch n) (_silent n) (_ready n)
         (_preDone n) (_taskDone n) (_postDone n) (_leader n) (_followers n) v.

(** The places where [time() - self._execTimeStart] is compared with
    [self._minExecTimeShown]: twice in [control], once in [epilog]. *)
Inductive occasion := BeforeTask | AfterTask | AtEnd.

(** What the process sees of its surroundings: whether the key ['parallel']
    is in [sys.modules], what [parallel.rank()] answers ([None] without MPI),
    whether ['tkinter'] is loaded, whether the elapsed time an object reads
    at one of the three places where it is compared reached the threshold
    of one second under which it is not shown, and the outcome of the [load]
    and [save] hooks of each object (subclasses override them; [Base]
    answers [True]). *)
Record Env := mkEnv {
  parallel_loaded : bool;
  mpi_rank : option Z;
  tkinter_loaded : bool;
  exec_time_shown : ref -> occasion -> bool;
  load : ref -> bool;
  save : ref -> bool
}.

(** [Base.load] and [Base.save]. *)
Definition base_hook : ref -> bool := fun _ => true.

(** Truth value of ['parallel' in sys.modules and parallel.rank()]. *)
Definition rank_skip (E : Env) : bool :=
  parallel_loaded E &&
  match mpi_rank E with
  | None => false
  | Some r => negb (r =? 0)%Z
  end.

Inductive method :=
| m_prolog | m_pre | m_load | m_control | m_task | m_post | m_save | m_epilog.

(** The lines the source writes, by their format. *)
Inductive message :=
| MsgThisIs (identifier : string)
| MsgDate
| MsgPath
| MsgPreProcessing
| MsgTaskProcessing
| MsgPostProcessing
| MsgExecTime
| MsgCompleted
| MsgCooperator (lvl : nat) (identifier : string)
| MsgPre (identifier : string)
| MsgTask (identifier : string)
| MsgPost (identifier : string)
| MsgNoTkinter
| MsgDeleteData
| MsgHelp
| MsgBlank.

(** What a run leaves behind: the methods entered (a ghost record), the lines
    printed on the console and the lines sent to the logger, each at its
    tree level, the dialogs shown, and the logging shutdown. *)
Inductive event :=
| Enter (n : ref) (m : method)
| Printed (lvl : nat) (msg : message)
| Logged (lvl : nat) (msg : message)
| Dialog (n : ref)
| Shutdown.

Record State := mkState {
  heap : gmap nat Node;
  handlers : bool;
  out : list event
}.

Inductive exn := AttributeError | IndexError | UnboundLocalError | SystemExit.

Inductive res (A : Type) :=
| Ok (a : A) (st : State)
| Raise (e : exn) (st : State)
| Diverge.
Arguments Ok {A} a st.
Arguments Raise {A} e st.
Arguments Diverge {A}.

Definition M (A : Type) := State -> res A.

Definition ret {A} (a : A) : M A := fun st => Ok a st.

Definition bind {A B} (c : M A) (k : A -> M B) : M B :=
  fun st =>
    match c st with
    | Ok a st' => k a st'
    | Raise e st' => Raise e st'
    | Diverge => Diverge
    end.

Definition raise {A} (e : exn) : M A := fun st => Raise e st.
Definition diverge {A} : M A := fun _ => Diverge.

Notation "'do' x <- c ; k" := (bind c (fun x => k))
  (at level 10, x name, c at level 100, k at level 200).
Notation "c ;; k" := (bind c (fun _ => k))
  (at level 100, k at level 200, right associativity).

(** The state a run ends in, when it ends. *)
Definition final {A} (r : res A) : option State :=
  match r with
  | Ok _ st => Some st
  | Raise _ st => Some st
  | Diverge => None
  end.

Definition node (n : ref) : M Node := fun st => Ok (heap st !!! n) st.

Definition modify (n : ref) (f : Node -> Node) : M unit :=
  fun st => Ok tt (mkState (<[n := f (heap st !!! n)]> (heap st)) (handlers st) (out st)).

Definition emit (e : event) : M unit :=
  fun st => Ok tt (mkState (heap st) (handlers st) (out st ++ [e])).

Definition set_handlers (b : bool) : M unit :=
  fun st => Ok tt (mkState (heap st) b (out st)).

(** A query that follows links may not end: [None] is out of fuel. *)
Definition query {A} (q : gmap nat Node -> option A) : M A :=
  fun st => match q (heap st) with Some a => Ok a st | None => Diverge end.

(** [for x in xs: body(x)] *)
Fixpoint for_each {A} (xs : list A) (body : A -> M unit) : M unit :=
  match xs with
  | [] => ret tt
  | x :: xs' => body x ;; for_each xs' body
  end.

(** Reading [x._data]: an [AttributeError] once the attribute is deleted. *)
Definition read_data (n : ref) : M (option Data) :=
  do nd <- node n;
  match _data nd with
  | Deleted => raise AttributeError
  | Bound v => ret v
  end.

(** [del x._data] *)
Definition del_data (n : ref) : M unit :=
  do nd <- node n;
  match _data nd with
  | Deleted => raise AttributeError
  | Bound _ => modify n (with_data Deleted)
  end.

(** ** Queries over the leader links *)

(** [Base.root]: [p = self; while p.leader: p = p.leader; return p] *)
Fixpoint root (fuel : nat) (h : gmap nat Node) (p : ref) : option ref :=
  match fuel with
  | O => None
  | S k =>
      match _leader (h !!! p) with
      | Some q => root k h q
      | None => Some p
      end
  end.

(** The loop of [Base.treeLevel]: [while p: p = p.leader; n += 1] *)
Fixpoint treeLevel_loop (fuel : nat) (h : gmap nat Node) (p : option ref) (n : nat)
  : option nat :=
  match fuel with
  | O => None
  | S k =>
      match p with
      | Some q => treeLevel_loop k h (_leader (h !!! q)) (n + 1)
      | None => Some n
      end
  end.

Definition treeLevel (fuel : nat) (h : gmap nat Node) (self : ref) : option nat :=
  treeLevel_loop fuel h (_leader (h !!! self)) 0.

(** [Base.isRoot]: [not self.leader] *)
Definition isRoot (h : gmap nat Node) (self : ref) : bool :=
  match _leader (h !!! self) with
  | None => true
  | Some _ => false
  end.

(** [other in self._followers]: objects compare by identity. *)
Definition listed (h : gmap nat Node) (self other : ref) : bool :=
  bool_decide (Some other ∈ _followers (h !!! self)).

(** [Base.isFollower]: [other._leader == self and other in self._followers] *)
Definition isFollower (h : gmap nat Node) (self other : ref) : bool :=
  bool_decide (_leader (h !!! other) = Some self) && listed h self other.

(** [Base.isCooperator]: [other._leader != self and other in self._followers] *)
Definition isCooperator (h : gmap nat Node) (self other : ref) : bool :=
  negb (bool_decide (_leader (h !!! other) = Some self)) && listed h self other.

(** The [for] loop of [getFollowerDownwards]: the first follower under which
    the search succeeds; holes are passed over. *)
Fixpoint first_found (search : ref -> option (option ref)) (l : list (option ref))
  : option (option ref) :=
  match l with
  | [] => Some None
  | None :: l' => first_found search l'
  | Some nd :: l' =>
      match search nd with
      | None => None
      | Some (Some r) => Some (Some r)
      | Some None => first_found search l'
      end
  end.

(** [Base.getFollowerDownwards] *)
Fixpoint getFollowerDownwards (fuel : nat) (h : gmap nat Node) (self : ref)
    (identifier : string) (fromNode : option ref) : option (option ref) :=
  match fuel with
  | O => None
  | S k =>
      if String.eqb (_identifier (h !!! self)) identifier then Some (Some self)
      else
        let start :=
          match fromNode with
          | Some fn =>
              if String.eqb (_identifier (h !!! fn)) identifier
              then Some (inl fn) else Some (inr fn)
          | None =>
              match root fuel h self with
              | Some r => Some (inr r)
              | None => None
              end
          end in
        match start with
        | None => None
        | Some (inl fn) => Some (Some fn)
        | Some (inr fn) =>
            if String.eqb (_identifier (h !!! fn)) identifier then Some (Some fn)
            else first_found (fun nd => getFollowerDownwards k h self identifier (Some nd))
                             (_followers (h !!! fn))
        end
  end.

(** [Base.getFollower] and [Base.__getitem__] *)
Definition getFollower (fuel : nat) (h : gmap nat Node) (self : ref)
    (identifier : string) : option (option ref) :=
  getFollowerDownwards fuel h self identifier None.

(** ** Properties with a setter *)

Definition when (b : bool) (c : M unit) : M unit := if b then c else ret tt.

Definition gets {A} (f : gmap nat Node -> A) : M A := fun st => Ok (f (heap st)) st.

(** [Base.silent] (getter):
    [self._silent or ('parallel' in sys.modules and parallel.rank())] *)
Definition silent (E : Env) (self : ref) : M bool :=
  do nd <- node self;
  ret (_silent nd || rank_skip E).

(** [Base.silent] (setter): [self._silent = value] *)
Definition set_silent (self : ref) (value : bool) : M unit :=
  modify self (with_silent value).

(** [Base.warn], without waiting. *)
Definition warn (E : Env) (self : ref) (msg : message) : M unit :=
  do s <- silent E self;
  when (negb s) (emit (Printed 0 msg));;
  do nd <- node self;
  when (_gui nd) (emit (Dialog self));;
  emit (Logged 0 msg).

(** [for x in self._followers: x.<flag> = value]; a hole has no attribute. *)
Definition assign_followers (self : ref) (f : Node -> Node) : M unit :=
  do nd <- node self;
  for_each (_followers nd)
    (fun x => match x with
              | Some x => modify x f
              | None => raise AttributeError
              end).

(** [Base.gui] (setter) *)
Definition set_gui (E : Env) (self : ref) (value : bool) : M unit :=
  do value <- (if tkinter_loaded E then ret value
               else warn E self MsgNoTkinter ;; ret false);
  modify self (with_gui value);;
  assign_followers self (with_gui value).

(** [Base.batch] (setter) *)
Definition set_batch (self : ref) (value : bool) : M unit :=
  modify self (with_batch value);;
  assign_followers self (with_batch value).

(** [Base.data] (setter) *)
Definition set_data (E : Env) (self : ref) (other : option Data) : M unit :=
  do d <- read_data self;
  match d with
  | Some _ =>
      do s <- silent E self;
      when (negb s) (emit (Printed 0 MsgDeleteData));;
      del_data self
  | None => ret tt
  end;;
  modify self (with_data (Bound other)).

(** [Base.write]: the line goes to the console unless silent, and to the
    logger; [indent] walks the leader links. *)
Definition write (E : Env) (fuel : nat) (self : ref) (msg : message) : M unit :=
  do lvl <- query (fun h => treeLevel fuel h self);
  do s <- silent E self;
  when (negb s) (emit (Printed lvl msg));;
  emit (Logged lvl msg).

(** ** Relationships *)

(** The body of [Base.setFollower] for one object:
    [other._leader = self; if other not in self._followers: append] *)
Definition attach (self other : ref) : M unit :=
  modify other (with_leader (Some self));;
  do nd <- node self;
  when (negb (bool_decide (Some other ∈ _followers nd)))
       (modify self (with_followers (_followers nd ++ [Some other]))).

(** [Base.setFollower] with one object. *)
Definition setFollower (self other : ref) : M ref :=
  attach self other;; ret other.

(** [Base.setFollower] with a list or tuple of objects (an empty one is false). *)
Definition setFollower_list (self : ref) (other : list ref) : M (list ref) :=
  for_each other (attach self);; ret other.

(** [Base.leader] (setter): [if other: other.setFollower(self)] *)
Definition set_leader (self : ref) (other : option ref) : M unit :=
  match other with
  | Some o => setFollower o self;; ret tt
  | None => ret tt
  end.

(** The body of [Base.setCooperator] for one object. *)
Definition join (self other : ref) : M unit :=
  do nd <- node self;
  when (negb (bool_decide (Some other ∈ _followers nd)))
       (modify self (with_followers (_followers nd ++ [Some other]))).

Definition setCooperator (self other : ref) : M ref :=
  join self other;; ret other.

Definition setCooperator_list (self : ref) (other : list ref) : M (list ref) :=
  for_each other (join self);; ret other.

(** ** Destruction *)

(** [Base._destructFollower] *)
Definition _destructFollower (self : ref) (nd : option ref) : M bool :=
  match nd with
  | None => ret false
  | Some n =>
      do me <- node self;
      match list_find (fun val => val = Some n) (_followers me) with
      | None => ret false
      | Some (i, _) =>
          do coop <- gets (fun h => isCooperator h self n);
          if coop then ret false
          else
            del_data n;;
            modify self (fun me => with_followers (<[i := None]> (_followers me)) me);;
            ret true
      end
  end.

(** [Base.destructDownwards]; the loop runs over the indices of the list as
    long as it was on entry and reads the slot when it gets there. *)
Fixpoint destructDownwards (fuel : nat) (self : ref) (fromNode : option ref) : M bool :=
  match fuel with
  | O => diverge
  | S k =>
      match fromNode with
      | None => ret false
      | Some fn =>
          do start <- node fn;
          for_each (seq 0 (length (_followers start)))
            (fun i =>
               do cur <- node fn;
               match _followers cur !! i with
               | None => raise IndexError
               | Some None => ret tt
               | Some (Some n) =>
                   do nn <- node n;
                   if bool_decide (_leader nn = Some fn)
                   then destructDownwards k self (Some n);; ret tt
                   else ret tt
               end);;
          do cur <- node fn;
          match _leader cur with
          | Some l => _destructFollower l (Some fn);; ret true
          | None => ret true
          end
      end
  end.

(** [Base.destruct] *)
Definition destruct (fuel : nat) (self : ref) : M bool :=
  do d <- read_data self;
  when (truthy d) (del_data self);;
  do r <- gets (fun h => isRoot h self);
  when r (emit Shutdown);;
  destructDownwards fuel self (Some self).

(** ** The three phases *)

(** The loop heading [pre], [task] and [post]:
    [for x in self.followers: x.phase(); if self.isCooperator(x): self.write(..)] *)
Definition over_followers (E : Env) (fuel : nat) (self : ref) (phase : ref -> M unit)
  : M unit :=
  do nd <- node self;
  for_each (_followers nd)
    (fun x => match x with
              | None => raise AttributeError
              | Some x =>
                  phase x;;
                  do coop <- gets (fun h => isCooperator h self x);
                  if coop then
                    do lvl <- query (fun h => treeLevel fuel h self);
                    do xn <- node x;
                    write E fuel self (MsgCooperator lvl (_identifier xn))
                  else ret tt
              end).

(** [if self.root().followers: self.write(..)] *)
Definition phase_line (E : Env) (fuel : nat) (self : ref) (msg : string -> message)
  : M unit :=
  do r <- query (fun h => root fuel h self);
  do rn <- node r;
  match _followers rn with
  | [] => ret tt
  | _ :: _ => do nd <- node self; write E fuel self (msg (_identifier nd))
  end.

(** [Base.pre] *)
Fixpoint pre (E : Env) (fuel : nat) (self : ref) : M bool :=
  match fuel with
  | O => diverge
  | S k =>
      emit (Enter self m_pre);;
      over_followers E fuel self (fun x => pre E k x;; ret tt);;
      phase_line E fuel self MsgPre;;
      do d <- read_data self;
      do ok <- match d with
               | None => emit (Enter self m_load);; ret (load E self)
               | Some _ => ret true
               end;
      modify self (with_preDone true);;
      ret ok
  end.

(** [Base.task] *)
Fixpoint task (E : Env) (fuel : nat) (self : ref) : M float :=
  match fuel with
  | O => diverge
  | S k =>
      emit (Enter self m_task);;
      over_followers E fuel self (fun x => task E k x;; ret tt);;
      phase_line E fuel self MsgTask;;
      modify self (with_taskDone true);;
      ret 0%float
  end.

(** [Base.post] *)
Fixpoint post (E : Env) (fuel : nat) (self : ref) : M bool :=
  match fuel with
  | O => diverge
  | S k =>
      emit (Enter self m_post);;
      over_followers E fuel self (fun x => post E k x;; ret tt);;
      phase_line E fuel self MsgPost;;
      do d <- read_data self;
      do ok <- match d with
               | None => emit (Enter self m_save);; ret (save E self)
               | Some _ => ret true
               end;
      modify self (with_postDone true);;
      ret ok
  end.

(** The elapsed time is written when it reaches the threshold. *)
Definition exec_time (E : Env) (fuel : nat) (self : ref) (occ : occasion) : M unit :=
  do r <- gets (fun h => isRoot h self);
  when r (when (exec_time_shown E self occ) (write E fuel self MsgExecTime)).

(** [Base.control] *)
Definition control (E : Env) (fuel : nat) (self : ref) : M float :=
  emit (Enter self m_control);;
  exec_time E fuel self BeforeTask;;
  do r <- gets (fun h => isRoot h self);
  when r (write E fuel self MsgTaskProcessing);;
  do res <- task E fuel self;
  exec_time E fuel self AfterTask;;
  write E fuel self MsgPostProcessing;;
  ret res.

(** [x in self.argv] *)
Definition has (a : string) (argv : list string) : bool := bool_decide (a ∈ argv).

(** [Base.prolog]; [authenticate] stays [False] on every path. *)
Definition prolog (E : Env) (fuel : nat) (self : ref) : M unit :=
  emit (Enter self m_prolog);;
  do nd <- node self;
  let argv := _argv nd in
  if has "-h" argv || has "--help" argv then
    emit (Printed 0 MsgHelp);; raise SystemExit
  else
    (if bool_decide (1 < length argv) then
       set_gui E self (has "-g" argv || has "--gui" argv);;
       set_silent self (has "-s" argv || has "--silent" argv)
     else ret tt);;
    (fun st => if handlers st then Ok tt st else set_handlers true st);;
    do r <- gets (fun h => isRoot h self);
    when r (do nd <- node self;
            write E fuel self (MsgThisIs (_identifier nd));;
            write E fuel self MsgDate;;
            write E fuel self MsgPath;;
            write E fuel self MsgPreProcessing).

(** [Base.epilog]; [message] is bound on a root only. *)
Fixpoint epilog (E : Env) (fuel : nat) (self : ref) : M unit :=
  match fuel with
  | O => diverge
  | S k =>
      emit (Enter self m_epilog);;
      do r <- gets (fun h => isRoot h self);
      when r (when (exec_time_shown E self AtEnd) (write E fuel self MsgExecTime);;
              write E fuel self MsgCompleted);;
      do nd <- node self;
      for_each (_followers nd)
        (fun x => match x with
                  | None => raise AttributeError
                  | Some x =>
                      epilog E k x;;
                      do me <- node self;
                      if _gui me then
                        (if r then emit (Dialog self) else raise UnboundLocalError)
                      else ret tt
                  end);;
      (fun st => if handlers st
                 then (emit (Logged 0 MsgBlank);; set_handlers false) st
                 else Ok tt st)
  end.

(** The keyword arguments of a call: only [silent] is looked at. *)
Record Kwargs := mkKwargs { kw_silent : option bool }.

(** [Base.__call__] *)
Definition call (E : Env) (fuel : nat) (self : ref) (kwargs : Kwargs) : M float :=
  if rank_skip E then ret (-1)%float
  else
    do s <- silent E self;
    set_silent self (default s (kw_silent kwargs));;
    prolog E fuel self;;
    pre E fuel self;;
    do res <- control E fuel self;
    post E fuel self;;
    epilog E fuel self;;
    ret res.

(** A store with the given objects, no handler on the logger, nothing written. *)
Definition fresh (objs : list (ref * Node)) : State :=
  mkState (list_to_map objs) false [].

End Base.

(** ** The control loop of [Loop] *)

Module Loop.

Open Scope float_scope.

(** The attributes [Loop.__init__] adds to those of [Base]. *)
Record Loop := mkLoop {
  it : Z;
  n_it_min : Z;
  n_it_max : Z;
  epsilon : float;
  omega : float;
  t : float;
  t_begin : float;
  tEnd : float;
  dt : float;
  theta : float
}.

Definition init : Loop :=
  {| it := 0; n_it_min := 0; n_it_max := 0; epsilon := 0; omega := 1;
     t := 0; t_begin := 0; tEnd := 0; dt := 1e-2; theta := 0.5 |}.

Definition with_it (v : Z) (l : Loop) : Loop :=
  mkLoop v (n_it_min l) (n_it_max l) (epsilon l) (omega l)
         (t l) (t_begin l) (tEnd l) (dt l) (theta l).
Definition with_t (v : float) (l : Loop) : Loop :=
  mkLoop (it l) (n_it_min l) (n_it_max l) (epsilon l) (omega l)
         v (t_begin l) (tEnd l) (dt l) (theta l).
Definition with_clock (v : float * float * float) (l : Loop) : Loop :=
  let '(t', dt', theta') := v in
  mkLoop (it l) (n_it_min l) (n_it_max l) (epsilon l) (omega l)
         t' (t_begin l) (tEnd l) dt' theta'.

(** [np.clip] on integers and on floats ([np.minimum] and [np.maximum]
    hand a NaN on). *)
Definition clipZ (a lo hi : Z) : Z := Z.min (Z.max a lo) hi.

Definition np_maximum (a b : float) : float :=
  if is_nan a then a else if is_nan b then b else if a <? b then b else a.
Definition np_minimum (a b : float) : float :=
  if is_nan a then a else if is_nan b then b else if b <? a then b else a.
Definition clip (a lo hi : float) : float := np_minimum (np_maximum a lo) hi.

(** An integer as a float, rounded to the nearest one, ties to even, as
    Python converts an [int] of any size. *)
Definition float_of_Z (z : Z) : float :=
  SF2Prim (binary_normalize prec emax z 0 false).

(** [Loop.is_nonlinear] and [Loop.is_transient] *)
Definition is_nonlinear (l : Loop) : bool := (0 <? n_it_max l)%Z.
Definition is_transient (l : Loop) : bool := 0 <? tEnd l.

(** [Loop.set_nonlinear] *)
Definition set_nonlinear (l : Loop) (n_it_min' : Z) (n_it_max' : option Z)
    (epsilon' omega' : float) : Loop :=
  let nmax := clipZ (default 0%Z n_it_max') 0 1000000 in
  if (0 <? nmax)%Z then
    mkLoop (it l) (clipZ n_it_min' 0 (default 0%Z n_it_max')) nmax
           (clip epsilon' 0 1) (clip omega' 0 2)
           (t l) (t_begin l) (tEnd l) (dt l) (theta l)
  else
    mkLoop (it l) (n_it_min l) nmax (epsilon l) (omega l)
           (t l) (t_begin l) (tEnd l) (dt l) (theta l).

(** How [set_transient] ends: it returns, or the assertion on [n] fails;
    either way with the object as it is by then. *)
Inductive stored :=
| Stored (l : Loop)
| AssertionError (l : Loop).

(** [Loop.set_transient].  [tEnd] is assigned before the assertion.  The
    assignment to [dt] stands after the [if], at the level of the [if]. *)
Definition set_transient (l : Loop) (t_begin' : float) (t_end' : option float)
    (dt' theta' : float) (n : Z) : stored :=
  let tend := clip (default 0 t_end') 0 1000000 in
  let l := mkLoop (it l) (n_it_min l) (n_it_max l) (epsilon l) (omega l)
                  (t l) (t_begin l) tend (dt l) (theta l) in
  if 0 <? tend then
    if (dt' <? 1e-20) && negb (0 <? n)%Z then AssertionError l
    else
      let dt' := (tend - t_begin') / float_of_Z n in
      Stored (mkLoop (it l) (n_it_min l) (n_it_max l) (epsilon l) (omega l)
                     (t l) (clip t_begin' 0 (default 0 t_end')) tend dt' (clip theta' 0 1))
  else Stored l.

(** The lines [control] writes. *)
Inductive line :=
| ExecTime
| TaskProcessing
| Control (transient nonlinear : bool)
| Iteration (i : Z)
| PhysicalTime (time : float)
| PostProcessing.

Inductive exn := AttributeError.

(** The two places where [Base.control] compares the elapsed time. *)
Inductive moment := BeforeTask | AfterTask.

Section Control.

(** What lies outside the controller: the followers and whatever the
    subclass keeps.  The hooks read the controller and act on that. *)
Context {World : Type}.

(** [task], as the subclass defines it, with its residuum. *)
Variable task : Loop -> World -> float * World.
(** The followers' part of the three update hooks. *)
Variable initial_condition : Loop -> World -> World.
Variable update_nonlinear : Loop -> World -> World.
Variable followers_update_transient : Loop -> World -> World.
(** [self.root()]'s [t], [dt] and [theta] when the loop has a leader,
    [None] when it is the root itself. *)
Variable leader_clock : option (World -> float * float * float).
(** Whether the elapsed time [Base.control] measures, before the task and
    after it, reached the threshold for showing it. *)
Variable exe_time_shown : moment -> bool.

Record St := mkSt {
  self : Loop;
  world : World;
  log : list line
}.

(** A step of [control] returns, raises, or does not end. *)
Inductive outcome (A : Type) :=
| Returns (a : A) (s : St)
| Raises (e : exn) (s : St)
| Loops.
Arguments Returns {A} a s.
Arguments Raises {A} e s.
Arguments Loops {A}.

Definition and_then {A B} (c : outcome A) (k : A -> St -> outcome B) : outcome B :=
  match c with
  | Returns a s => k a s
  | Raises e s => Raises e s
  | Loops => Loops
  end.

(** [Base.isRoot]: [not self.leader] *)
Definition isRoot : bool :=
  match leader_clock with None => true | Some _ => false end.

(** [self.is_root()]: [Base] has the method [isRoot] and none of the name
    [is_root], and [Loop] adds none, so the lookup of the attribute
    raises. *)
Definition is_root (s : St) : outcome bool := Raises AttributeError s.

(** [time() - self._exe_time_start]: [Base] has [_execTimeStart] and
    [_minExecTimeShown], and no attribute of these names. *)
Definition exe_time (s : St) : outcome unit := Raises AttributeError s.

Definition write (m : line) (s : St) : St :=
  mkSt (self s) (world s) (log s ++ [m]).

Definition on_self (f : Loop -> Loop) (s : St) : St :=
  mkSt (f (self s)) (world s) (log s).

Definition on_world (f : Loop -> World -> World) (s : St) : St :=
  mkSt (self s) (f (self s) (world s)) (log s).

Definition call_task (s : St) : float * St :=
  let (r, w) := task (self s) (world s) in (r, mkSt (self s) w (log s)).

(** [Loop.update_transient] *)
Definition update_transient (s : St) : St :=
  let s := on_world followers_update_transient s in
  match leader_clock with
  | None => s
  | Some clock => on_self (with_clock (clock (world s))) s
  end.

(** The elapsed time in [Base.control], on a root and when it is long
    enough. *)
Definition execTime (m : moment) (s : St) : St :=
  if isRoot && exe_time_shown m then write ExecTime s else s.

(** [Base.control], for a task that is the subclass's. *)
Definition base_control (s : St) : float * St :=
  let s := execTime BeforeTask s in
  let s := if isRoot then write TaskProcessing s else s in
  let (res, s) := call_task s in
  let s := execTime AfterTask s in
  (res, write PostProcessing s).

(** The [while] of [_nonlinear_iteration]. *)
Fixpoint nonlinear_while (fuel : nat) (_res : float) (s : St) : option (float * St) :=
  match fuel with
  | O => None
  | S k =>
      if (it (self s) <? n_it_max (self s))%Z then
        let s := on_self (fun l => with_it (it l + 1) l) s in
        let s := write (Iteration (it (self s))) s in
        let s := on_world update_nonlinear s in
        let (_res, s) := call_task s in
        if (_res <=? epsilon (self s)) && (n_it_min (self s) <=? it (self s))%Z
        then Some (_res, s)
        else nonlinear_while k _res s
      else Some (_res, s)
  end.

(** [_nonlinear_iteration] *)
Definition _nonlinear_iteration (fuel : nat) (s : St) : option (float * St) :=
  nonlinear_while fuel infinity (on_self (with_it (-1)) s).

(** The [while] of the transient branch. *)
Fixpoint transient_while (fuel : nat) (res : float) (s : St) : option (float * St) :=
  match fuel with
  | O => None
  | S k =>
      if t (self s) + 1e-10 <? tEnd (self s) then
        let s := on_self (fun l => with_t (t l + dt l) l) s in
        let s := write (PhysicalTime (t (self s))) s in
        let s := update_transient s in
        match (if is_nonlinear (self s) then _nonlinear_iteration fuel s
               else Some (call_task s)) with
        | None => None
        | Some (res, s) => transient_while k res s
        end
      else Some (res, s)
  end.

(** The two loops, as [control] runs them; [Loops] when the fuel does not
    see them end. *)
Definition iterate (fuel : nat) (s : St) : outcome float :=
  match (if negb (is_transient (self s)) then _nonlinear_iteration fuel s
         else transient_while fuel infinity (on_self (with_t 0) s)) with
  | None => Loops
  | Some (res, s) => Returns res s
  end.

(** [if self.is_root(): exe_time = time() - self._exe_time_start; ...] *)
Definition show_exe_time (s : St) : outcome unit :=
  and_then (is_root s) (fun r s => if r then exe_time s else Returns tt s).

(** [Loop.control] *)
Definition control (fuel : nat) (s : St) : outcome float :=
  if negb (is_transient (self s)) && negb (is_nonlinear (self s))
  then let (res, s) := base_control s in Returns res s
  else
    and_then (show_exe_time s) (fun _ s =>
    let s := write (Control (is_transient (self s)) (is_nonlinear (self s))) s in
    let s := on_world initial_condition s in
    and_then (iterate fuel s) (fun res s =>
    and_then (show_exe_time s) (fun _ s =>
    Returns res (write PostProcessing s)))).

End Control.

Arguments Returns {World A} a s.
Arguments Raises {World A} e s.
Arguments Loops {World A}.

End Loop.

(** ** The nonlinear iteration, pass by pass *)

Module LoopSpec.
Import Loop.
Open Scope float_scope.

Section Passes.

Context {World : Type}.
Variable task : Loop -> World -> float * World.
Variable update_nonlinear : Loop -> World -> World.
(** The controller as configured, and the world the first pass finds. *)
Variable l : Loop.
Variable w0 : World.

(** Pass [i]: the count is [i], the update hook runs, then the task. *)
Definition pass (w : World) (i : nat) : float * World :=
  let li := with_it (Z.of_nat i) l in
  task li (update_nonlinear li w).

Fixpoint world_before (i : nat) : World :=
  match i with
  | O => w0
  | S j => snd (pass (world_before j) j)
  end.

Definition residual (i : nat) : float := fst (pass (world_before i) i).

(** The iteration stops after pass [i]: the residual is within the tolerance
    and the count has reached the minimum, or the count has reached the
    maximum. *)
Definition stops (i : nat) : bool :=
  (residual i <=? epsilon l) && (n_it_min l <=? Z.of_nat i)%Z
  || (Z.of_nat i =? n_it_max l)%Z.

End Passes.

(** A task that answers with a given sequence of residuals, then with the
    last one for ever; its world is the number of calls so far. *)
Definition residuals : list float := [1.0; 0.5; 0.1; 0.005; 0.001].

Definition task_stub (_ : Loop) (calls : nat) : float * nat :=
  (nth calls residuals 0.001, S calls).

(** A task that notes the time it is called at. *)
Definition record_time (l : Loop) (times : list float) : float * list float :=
  (0, times ++ [t l]).

(** Hooks that do nothing. *)
Definition no_hook {World : Type} (_ : Loop) (w : World) : World := w.

End LoopSpec.

(** ** Sample trees *)

Module Sample.
Import Base.

(** A process on the primary rank, and one on rank 1 of an MPI run. *)
Definition primary : Env :=
  mkEnv false None true (fun _ _ => false) base_hook base_hook.
Definition worker : Env :=
  mkEnv true (Some 1%Z) true (fun _ _ => false) base_hook base_hook.

(** Rank 1 of an MPI run that loaded the module as [grayboxes.parallel],
    the first import [base.py] tries: the key ['parallel'] is not in
    [sys.modules]. *)
Definition packaged : Env :=
  mkEnv false (Some 1%Z) true (fun _ _ => false) base_hook base_hook.

(** A leader [L], two objects [F] and [G], an object [C] and a second
    leader [L2], not yet connected. *)
Definition L : ref := 1.
Definition F : ref := 2.
Definition G : ref := 3.
Definition C : ref := 4.
Definition L2 : ref := 5.

Definition objects : State :=
  fresh [(L, init "L" []); (F, init "F" []); (G, init "G" []);
         (C, init "C" []); (L2, init "L2" [])].

(** The state a run of [c] from [st] ends in ([st] itself if it does not end). *)
Definition after {A} (c : M A) (st : State) : State := default st (final (c st)).

(** [L.setFollower(F); F.setFollower(G); L2.setFollower(C); L.setCooperator(C)] *)
Definition tree : State :=
  after (setFollower L F;; setFollower F G;; setFollower L2 C;; setCooperator L C) objects.

(** [L.setFollower(F)], then [F.destruct()]: a hole in [L]'s list. *)
Definition holed : State :=
  after (setFollower L F;; destruct 2 F) objects.

(** An environment in which the [load] hook of [F] fails. *)
Definition load_fails_at (n : ref) : Env :=
  mkEnv false None true (fun _ _ => false)
        (fun x => negb (bool_decide (x = n))) base_hook.

(** The objects of [tree], one by one. *)
Definition connected (identifier : string) (leader : option ref)
    (followers : list (option ref)) : Node :=
  with_followers followers (with_leader leader (init identifier [])).

Definition tree_node (x : ref) : Node :=
  match x with
  | 1 => connected "L" None [Some F; Some C]
  | 2 => connected "F" (Some L) [Some G]
  | 3 => connected "G" (Some F) []
  | 4 => connected "C" (Some L2) []
  | 5 => connected "L2" None [Some C]
  | _ => inhabitant
  end.

(** How far below its root an object of [tree] is, and how far above the
    lowest object it lists. *)
Definition tree_depth (x : ref) : nat :=
  match x with
  | 2 => 1
  | 3 => 2
  | 4 => 1
  | _ => 0
  end.

Definition tree_height (x : ref) : nat :=
  match x with
  | 1 => 2
  | 2 => 1
  | 5 => 1
  | _ => 0
  end.

(** [tree] after [F.data = [1]]. *)
Definition loaded : State := after (set_data primary F (Some [1%Z])) tree.

(** A store with the leaders and the lists of [tree]. *)
Definition shaped_like_tree (h : gmap nat Node) : Prop :=
  forall x, _leader (h !!! x) = _leader (tree_node x) /\
            _followers (h !!! x) = _followers (tree_node x).

(** [L.setFollower(F); F.setFollower(C); L.setCooperator(C)]: [L] lists as
    a cooperator a follower of its own follower. *)
Definition shared : State :=
  after (setFollower L F;; setFollower F C;; setCooperator L C) objects.

(** [tree] after [L.gui = True]: the setter hands the value to [F] and [C]. *)
Definition gui_tree : State := after (set_gui primary L true) tree.

End Sample.

(** ** Trees built by the relationship operations *)

Module Tree.
Import Base.

(** A leader that is set lists the node among its followers. *)
Definition integrity (h : gmap nat Node) : Prop :=
  forall n l, _leader (h !!! n) = Some l -> Some n ∈ _followers (h !!! l).

(** Objects as [__init__] leaves them: no leader, no follower. *)
Definition unconnected (st : State) : Prop :=
  forall n, _leader (heap st !!! n) = None /\ _followers (heap st !!! n) = [].

(** The operations that connect objects. *)
Inductive op :=
| SetFollower (l f : ref)
| SetFollowers (l : ref) (fs : list ref)
| SetCooperator (l c : ref)
| SetCooperators (l : ref) (cs : list ref)
| SetLeader (n : ref) (l : option ref).

Definition run (o : op) : M unit :=
  match o with
  | SetFollower l f => setFollower l f;; ret tt
  | SetFollowers l fs => setFollower_list l fs;; ret tt
  | SetCooperator l c => setCooperator l c;; ret tt
  | SetCooperators l cs => setCooperator_list l cs;; ret tt
  | SetLeader n l => set_leader n l
  end.

Inductive reachable : State -> Prop :=
| reach_init st : unconnected st -> reachable st
| reach_step st o st' : reachable st -> run o st = Ok tt st' -> reachable st'.

(** [c] is listed among the followers of [p], as a follower or a cooperator. *)
Definition lists (h : gmap nat Node) (p c : ref) : Prop :=
  Some c ∈ _followers (h !!! p).

(** [x] is found from [r] by going down the lists. *)
Inductive reaches (h : gmap nat Node) : ref -> ref -> Prop :=
| reaches_here r : reaches h r r
| reaches_below r c x : lists h r c -> reaches h c x -> reaches h r x.

(** No two objects below [r] have the same identifier. *)
Definition unique_identifiers (h : gmap nat Node) (r : ref) : Prop :=
  forall x y, reaches h r x -> reaches h r y ->
              _identifier (h !!! x) = _identifier (h !!! y) -> x = y.

(** The leader links go up: some measure falls along them. *)
Definition leaders_acyclic (h : gmap nat Node) (depth : ref -> nat) : Prop :=
  forall x p, _leader (h !!! x) = Some p -> depth p < depth x.

(** The lists go down: some measure falls along them. *)
Definition lists_acyclic (h : gmap nat Node) (height : ref -> nat) : Prop :=
  forall p c, lists h p c -> height c < height p.

(** [m] is met going up the leader links from [x]. *)
Inductive above (h : gmap nat Node) : ref -> ref -> Prop :=
| above_here x : above h x x
| above_up x p m : _leader (h !!! x) = Some p -> above h p m -> above h x m.

(** [x] is [top] or a follower, listed and led, of an object owned by [top]:
    the subtree of the true followers. *)
Inductive owned (h : gmap nat Node) (top : ref) : ref -> Prop :=
| owned_top : owned h top top
| owned_below p x :
    owned h top p -> lists h p x -> _leader (h !!! x) = Some p -> owned h top x.

(** The followers are below their leaders: some measure rises along the
    leader links. *)
Definition owned_acyclic (h : gmap nat Node) (ht : ref -> nat) : Prop :=
  forall x p, _leader (h !!! x) = Some p -> ht x < ht p.

(** No list holds an object twice. *)
Definition listed_once (h : gmap nat Node) : Prop :=
  forall p i j y,
    _followers (h !!! p) !! i = Some (Some y) ->
    _followers (h !!! p) !! j = Some (Some y) -> i = j.

(** An object without its payload and its list. *)
Definition skeleton (n : Node) : Node :=
  with_data (Bound None) (with_followers [] n).

(** A slot of [x] is as in [h0], or it held a follower of [x] below [top]
    and is [None] now. *)
Definition slot_kept_or_blanked (h0 : gmap nat Node) (top : ref) (h : gmap nat Node)
    (x : ref) (i : nat) : Prop :=
  _followers (h !!! x) !! i = _followers (h0 !!! x) !! i \/
  (_followers (h !!! x) !! i = Some None /\
   exists y, _followers (h0 !!! x) !! i = Some (Some y) /\
             _leader (h0 !!! y) = Some x /\ above h0 y top).

(** [x] lists none of its followers any more. *)
Definition emptied (h0 h : gmap nat Node) (x : ref) : Prop :=
  forall y, _leader (h0 !!! y) = Some x -> Some y ∉ _followers (h !!! x).

(** The states a destruction below [top] goes through, started from [h0]. *)
Record wake (h0 : gmap nat Node) (top : ref) (st : State) : Prop := mkWake {
  wake_skeleton : forall x, skeleton (heap st !!! x) = skeleton (h0 !!! x);
  wake_slot : forall x i, slot_kept_or_blanked h0 top (heap st) x i;
  wake_data : forall x,
    _data (heap st !!! x) = _data (h0 !!! x) \/
    (_data (heap st !!! x) = Deleted /\ above h0 x top);
  wake_listed : forall x p,
    x <> top -> _leader (h0 !!! x) = Some p ->
    Some x ∈ _followers (heap st !!! p) -> _data (heap st !!! x) <> Deleted;
  wake_done : forall x p i,
    _leader (h0 !!! x) = Some p ->
    _followers (h0 !!! p) !! i = Some (Some x) ->
    _followers (heap st !!! p) !! i = Some None ->
    _data (heap st !!! x) = Deleted /\ emptied h0 (heap st) x
}.

(** Lists only lose entries from [st] to [st']. *)
Definition shrinks (st st' : State) : Prop :=
  forall x y, Some y ∈ _followers (heap st' !!! x) -> Some y ∈ _followers (heap st !!! x).

(** The store after [del node._data; self._followers[i] = None]. *)
Definition blanked (st : State) (l n : ref) (i : nat) : State :=
  mkState
    (<[l := with_followers (<[i := None]> (_followers (heap st !!! l))) (heap st !!! l)]>
       (<[n := with_data Deleted (heap st !!! n)]> (heap st)))
    (handlers st) (out st).

(** The body of the loop of [destructDownwards] at index [i]. *)
Definition visit (k : nat) (self fn : ref) (i : nat) : M unit :=
  do cur <- node fn;
  match _followers cur !! i with
  | None => raise IndexError
  | Some None => ret tt
  | Some (Some n) =>
      do nn <- node n;
      if bool_decide (_leader nn = Some fn)
      then destructDownwards k self (Some n);; ret tt
      else ret tt
  end.

(** From [st] to [st'] lists only lose entries, and [top] keeps its payload
    and its places in the lists. *)
Definition calm (top : ref) (st st' : State) : Prop :=
  shrinks st st' /\
  _data (heap st' !!! top) = _data (heap st !!! top) /\
  forall l i, _followers (heap st !!! l) !! i = Some (Some top) ->
              _followers (heap st' !!! l) !! i = Some (Some top).

(** What [destructDownwards] promises on a follower below [top]. *)
Definition destroys (h0 : gmap nat Node) (top : ref) (ht : ref -> nat)
    (k : nat) (self : ref) : Prop :=
  forall n st,
    ht n < k -> above h0 n top -> n <> top -> wake h0 top st ->
    exists st',
      destructDownwards k self (Some n) st = Ok true st' /\
      wake h0 top st' /\ calm top st st' /\
      (forall p, _leader (h0 !!! n) = Some p -> Some n ∉ _followers (heap st' !!! p)).

(** No list has a hole or holds an object twice. *)
Definition tidy (h : gmap nat Node) : Prop :=
  forall x, NoDup (_followers (h !!! x)) /\ None ∉ _followers (h !!! x).

End Tree.

(** ** Splitting and merging data sets ([grayboxes/parallel.py]) *)

Module Parallel.

(** A 2-D array is the list of its rows, all of one length; a 3-D array is
    the list of its 2-D sections. *)
Definition Row := list float.

Inductive failure := ZeroDivisionError | IndexError.

Inductive outcome (A : Type) :=
| Returns (a : A)
| Raises (e : failure).
Arguments Returns {A} a.
Arguments Raises {A} e.

(** [np.split(x, count)] on an array of [size * count] rows. *)
Fixpoint sections (size count : nat) (x : list Row) : list (list Row) :=
  match count with
  | O => []
  | S c => take size x :: sections size c (drop size x)
  end.

(** [split(x2D, nProc)], for [x2D] a 2-D array or [None]. *)
Definition split (x2D : option (list Row)) (nProc : nat) : outcome (list (list Row)) :=
  match x2D with
  | None => Returns [[[infinity]]]
  | Some x =>
      let nPoint := length x in
      let nInp := length (hd [] x) in
      if (nProc =? 0)%nat then Raises ZeroDivisionError
      else
        let x :=
          if negb (nPoint mod nProc =? 0)%nat
          then
            let nFillUp := (nPoint / nProc + 1) * nProc - nPoint in
            x ++ replicate nFillUp (replicate nInp infinity)
          else x in
        Returns (sections (length x / nProc) nProc x)
  end.

(** The loops of [merge]: a point is kept when its first element is not
    [np.inf]; a point without elements has no first one. *)
Fixpoint kept (points : list Row) : outcome (list Row) :=
  match points with
  | [] => Returns []
  | yPoint :: rest =>
      match yPoint with
      | [] => Raises IndexError
      | y0 :: _ =>
          match kept rest with
          | Returns y2D => Returns (if negb (y0 =? infinity)%float then yPoint :: y2D else y2D)
          | Raises e => Raises e
          end
      end
  end.

(** [merge(y3D)], for [y3D] a 3-D array or [None]. *)
Definition merge (y3D : option (list (list Row))) : outcome (list Row) :=
  match y3D with
  | None => Returns [[infinity]]
  | Some y => kept (concat y)
  end.

End Parallel.

(** ** Leaving the program, and the helpers for keyword arguments *)

Module Exits.
Import Base.

(** [Base.terminate]; [msg] stands for the line made of the message handed
    in, or of ['Fatal error'] without one. *)
Definition terminate (E : Env) (fuel : nat) (self : ref) (msg : message) : M unit :=
  do s <- silent E self;
  when (negb s) (emit (Printed 0 msg));;
  do nd <- node self;
  when (_gui nd) (emit (Dialog self));;
  emit (Logged 0 msg);;
  destruct fuel self;;
  raise SystemExit.

(** [Base.followers] (setter): the value assigned is not looked at. *)
Definition set_followers (E : Env) (fuel : nat) (self : ref) (other : list ref)
    (msg : message) : M unit :=
  terminate E fuel self msg.

End Exits.

Module Keywords.

(** A keyword or a list of keywords. *)
Inductive keys :=
| One (key : string)
| Many (keys : list string).

(** A string without the NUL characters at its end. *)
Fixpoint rstrip_nul (s : string) : string :=
  match s with
  | EmptyString => EmptyString
  | String c s' =>
      match rstrip_nul s' with
      | EmptyString => if Ascii.eqb c Ascii.zero then EmptyString else String c EmptyString
      | rest => String c rest
      end
  end.

(** [np.atleast_1d]: the keywords are stored in an array of strings of one
    width, padded with NUL characters, and an element read from it comes
    without the NUL characters at its end. *)
Definition atleast_1d (k : keys) : list string :=
  match k with
  | One key => [rstrip_nul key]
  | Many ks => map rstrip_nul ks
  end.

Section Dict.
Context {V : Type}.

(** [Base.kwargsDel]: the dictionary handed in is copied, not changed. *)
Definition kwargsDel (kwargs : gmap string V) (remove : keys) : gmap string V :=
  foldl (fun dic key => if decide (is_Some (dic !! key)) then delete key dic else dic)
        kwargs (atleast_1d remove).

(** The loop of [Base.kwargsGet]. *)
Fixpoint first_of (kwargs : gmap string V) (ks : list string) (default : V) : V :=
  match ks with
  | [] => default
  | key :: ks' =>
      match kwargs !! key with
      | Some v => v
      | None => first_of kwargs ks' default
      end
  end.

(** [Base.kwargsGet] *)
Definition kwargsGet (kwargs : gmap string V) (ks : keys) (default : V) : V :=
  first_of kwargs (atleast_1d ks) default.

End Dict.

End Keywords.

(** ** Notions used in the statements about runs *)

Module Runs.
Import Base.

(** A written line, as opposed to the record of a method entered. *)
Definition is_line (e : event) : Prop :=
  match e with
  | Printed _ _ | Logged _ _ => True
  | _ => False
  end.

(** The same surroundings with other outcomes of the [load] hooks. *)
Definition with_load (f : ref -> bool) (E : Env) : Env :=
  mkEnv (parallel_loaded E) (mpi_rank E) (tkinter_loaded E) (exec_time_shown E)
        f (save E).

(** An invariant of the store that every run of [c] keeps, however it ends. *)
Definition keeps {A} (I : State -> Prop) (c : M A) : Prop :=
  forall st, I st ->
    match final (c st) with
    | Some st' => I st'
    | None => True
    end.

(** An invariant that writing does not break: it holds on when the objects
    are as they were and events were added to the record. *)
Definition on_heap (I : State -> Prop) : Prop :=
  forall st st', heap st' = heap st -> (exists evs, out st' = out st ++ evs) -> I st -> I st'.

(** The payloads as a run finds them. *)
Definition data_are (D : ref -> attr) (st : State) : Prop :=
  forall n, _data (heap st !!! n) = D n.

(** The lists as a run finds them. *)
Definition lists_are (F : ref -> list (option ref)) (st : State) : Prop :=
  forall x, _followers (heap st !!! x) = F x.

(** The flag of an object is set. *)
Definition flagged (flag : Node -> bool) (y : ref) (st : State) : Prop :=
  flag (heap st !!! y) = true.

(** The leaders, lists, payloads and identifiers are those of [h0]. *)
Definition shaped (h0 : gmap nat Node) (st : State) : Prop :=
  forall x, _leader (heap st !!! x) = _leader (h0 !!! x) /\
            _followers (heap st !!! x) = _followers (h0 !!! x) /\
            _data (heap st !!! x) = _data (h0 !!! x) /\
            _identifier (heap st !!! x) = _identifier (h0 !!! x).

(** The run of [c] from [st] returns, in a state where [I] holds. *)
Definition runs {A} (I : State -> Prop) (c : M A) (st : State) : Prop :=
  exists a st', c st = Ok a st' /\ I st'.

(** The event was recorded after the first [n] events of the run. *)
Definition entered (n : nat) (e : event) (st : State) : Prop :=
  e ∈ drop n (out st).

(** The record holds [n] events at least. *)
Definition longer (n : nat) (st : State) : Prop :=
  n <= length (out st).

End Runs.

(** * Properties of the control loop *)

Section NonlinearFacts.
Import Loop LoopSpec.

Context {World : Type}.
Variable task : Loop -> World -> float * World.
Variable initial_condition : Loop -> World -> World.
Variable update_nonlinear : Loop -> World -> World.
Variable followers_update_transient : Loop -> World -> World.
Variable leader_clock : option (World -> float * float * float).
Variable exe_time_shown : moment -> bool.

Variable l : Loop.
Variable w0 : World.

#[local] Abbreviation stops := (stops task update_nonlinear l w0).
#[local] Abbreviation residual := (residual task update_nonlinear l w0).
#[local] Abbreviation world_before := (world_before task update_nonlinear l w0).
#[local] Abbreviation nonlinear_while := (nonlinear_while task update_nonlinear).

(** The test that breaks out of the loop after pass [j]. *)
Let converged (j : nat) : bool :=
  (residual j <=? epsilon l)%float && (n_it_min l <=? Z.of_nat j)%Z.

(** One turn of the [while], from the state between two passes. *)
Lemma nonlinear_while_step (fuel j : nat) (res : float) (lg : list line) :
  (Z.of_nat j <= n_it_max l)%Z ->
  nonlinear_while (S fuel) res (mkSt (with_it (Z.of_nat j - 1) l) (world_before j) lg)
  = if converged j
    then Some (residual j,
               mkSt (with_it (Z.of_nat j) l) (world_before (S j))
                    (lg ++ [Iteration (Z.of_nat j)]))
    else nonlinear_while fuel (residual j)
           (mkSt (with_it (Z.of_nat (S j) - 1) l) (world_before (S j))
                 (lg ++ [Iteration (Z.of_nat j)])).
Proof.
  intros Hmax.
  set (p := pass task update_nonlinear l (world_before j) j).
  change (world_before (S j)) with (snd p).
  unfold converged. change (residual j) with (fst p).
  cbn [Loop.nonlinear_while]. unfold call_task, on_world, Loop.write, on_self.
  cbn [self world log].
  replace (it (with_it (Z.of_nat j - 1) l) <? n_it_max (with_it (Z.of_nat j - 1) l))%Z
    with true by (symmetry; apply Z.ltb_lt; cbn; lia).
  replace (with_it (it (with_it (Z.of_nat j - 1) l) + 1) (with_it (Z.of_nat j - 1) l))
    with (with_it (Z.of_nat j) l) by (unfold with_it; cbn; f_equal; lia).
  replace (Z.of_nat (S j) - 1)%Z with (Z.of_nat j) by lia.
  change (task (with_it (Z.of_nat j) l)
               (update_nonlinear (with_it (Z.of_nat j) l) (world_before j))) with p.
  destruct p as [r w]. reflexivity.
Qed.

(** At the maximal count the [while] is left by its condition. *)
Lemma nonlinear_while_exit (fuel : nat) (res : float) (s : St) :
  (n_it_max (self s) <= it (self s))%Z ->
  nonlinear_while (S fuel) res s = Some (res, s).
Proof.
  intros H. cbn [Loop.nonlinear_while].
  replace (it (self s) <? n_it_max (self s))%Z with false; [reflexivity|].
  symmetry. apply Z.ltb_ge. exact H.
Qed.

(** From a state between two passes the loop runs up to the first pass
    that stops it. *)
Lemma nonlinear_while_run (K : nat) :
  stops K = true ->
  (Z.of_nat K <= n_it_max l)%Z ->
  forall fuel j res lg,
    (j <= K)%nat ->
    (forall i, (j <= i < K)%nat -> stops i = false) ->
    (K - j + 2 <= fuel)%nat ->
    exists lg',
      nonlinear_while fuel res
        (mkSt (with_it (Z.of_nat j - 1) l) (world_before j) lg)
      = Some (residual K, mkSt (with_it (Z.of_nat K) l) (world_before (S K)) lg').
Proof.
  intros HK Hmax fuel. induction fuel as [|fuel IH]; intros j res lg Hj Hbefore Hfuel.
  { lia. }
  rewrite nonlinear_while_step by lia.
  destruct (decide (j = K)) as [->|Hne].
  - destruct (converged K) eqn:Hc; [eauto|].
    unfold LoopSpec.stops in HK. fold (converged K) in HK. rewrite Hc in HK.
    rewrite orb_false_l in HK. apply Z.eqb_eq in HK.
    destruct fuel as [|fuel]; [lia|].
    replace (Z.of_nat (S K) - 1)%Z with (Z.of_nat K) by lia.
    rewrite nonlinear_while_exit; [eauto|].
    unfold with_it. cbn [self it n_it_max]. lia.
  - assert (Hs : stops j = false) by (apply Hbefore; lia).
    unfold LoopSpec.stops in Hs. fold (converged j) in Hs.
    apply orb_false_iff in Hs as [Hc _]. rewrite Hc.
    apply IH; [lia| |lia].
    intros i Hi. apply Hbefore. lia.
Qed.

(** Some pass stops the iteration, and there is a first one. *)
Lemma first_stop :
  (0 <= n_it_max l)%Z ->
  exists K, stops K = true /\ (Z.of_nat K <= n_it_max l)%Z /\
            forall i, (i < K)%nat -> stops i = false.
Proof.
  intros Hpos.
  assert (Hscan : forall n,
            (forall i, (i < n)%nat -> stops i = false) \/
            (exists K, (K < n)%nat /\ stops K = true /\
                       forall i, (i < K)%nat -> stops i = false)).
  { induction n as [|n [Hnone|(K & HK & HsK & Hleast)]].
    - left. intros i Hi. lia.
    - destruct (stops n) eqn:Hsn.
      + right. exists n. split; [lia|]. split; assumption.
      + left. intros i Hi. destruct (decide (i = n)) as [->|Hne]; [assumption|].
        apply Hnone. lia.
    - right. exists K. split; [lia|]. split; assumption. }
  destruct (Hscan (S (Z.to_nat (n_it_max l)))) as [Hnone|(K & HK & HsK & Hleast)].
  - exfalso. specialize (Hnone (Z.to_nat (n_it_max l)) ltac:(lia)).
    unfold LoopSpec.stops in Hnone. apply orb_false_iff in Hnone as [_ Hneq].
    apply Z.eqb_neq in Hneq. lia.
  - exists K. split; [assumption|]. split; [lia|assumption].
Qed.

End NonlinearFacts.

(** ** The entry of [control] *)

(** C1.  In nonlinear mode, and in transient mode, [Loop.control] makes no
    pass at all: its first statement after the test of the modes is
    [if self.is_root():], and neither [Base] nor [Loop] has an attribute of
    that name ([Base] spells it [isRoot]), so the call raises an
    [AttributeError] with the controller, the world and the lines written as
    they were.  With a maximum of 10, a minimum of 2, a tolerance of 0.01
    and a task answering 1.0, 0.5, 0.1, 0.005, 0.001, ... [control] raises
    and the task is not called; it does not return 0.005. *)
Theorem nonlinear_control_raises_at_is_root :
  (forall (World : Type) (task : Loop.Loop -> World -> float * World)
          (initial_condition update_nonlinear followers_update_transient :
             Loop.Loop -> World -> World)
          (leader_clock : option (World -> float * float * float))
          (exe_time_shown : Loop.moment -> bool) (fuel : nat) (s : Loop.St),
      Loop.is_nonlinear (Loop.self s) || Loop.is_transient (Loop.self s) = true ->
      Loop.control task initial_condition update_nonlinear
        followers_update_transient leader_clock exe_time_shown fuel s
      = Loop.Raises Loop.AttributeError s)
  /\
  (let l := Loop.set_nonlinear Loop.init 2 (Some 10%Z) 0.01%float 1%float in
   Loop.n_it_max l = 10%Z /\ Loop.n_it_min l = 2%Z /\ Loop.epsilon l = 0.01%float /\
   Loop.is_nonlinear l = true /\ Loop.is_transient l = false /\
   forall fuel,
     Loop.control LoopSpec.task_stub LoopSpec.no_hook LoopSpec.no_hook LoopSpec.no_hook
       None (fun _ => false) fuel (Loop.mkSt l 0%nat [])
     = Loop.Raises Loop.AttributeError (Loop.mkSt l 0%nat [])).
Proof.
  assert (Hraise : forall (World : Type) (task : Loop.Loop -> World -> float * World)
            (ic un fut : Loop.Loop -> World -> World)
            (lc : option (World -> float * float * float)) (ets : Loop.moment -> bool) (fuel : nat)
            (s : Loop.St),
            Loop.is_nonlinear (Loop.self s) || Loop.is_transient (Loop.self s) = true ->
            Loop.control task ic un fut lc ets fuel s = Loop.Raises Loop.AttributeError s).
  { intros World task ic un fut lc ets fuel s Hmode. unfold Loop.control.
    destruct (Loop.is_transient (Loop.self s)), (Loop.is_nonlinear (Loop.self s));
      try discriminate; reflexivity. }
  split; [exact Hraise|].
  cbv zeta. do 5 (split; [reflexivity|]).
  intros fuel. apply Hraise. reflexivity.
Qed.

(** C2.  [set_transient] with a start of 0, an end of 1.0 and a step of 0.25
    stores a step of 0.01, the span divided by the default count of 100: the
    step handed in is not kept.  [control] on that controller raises the
    [AttributeError] of [self.is_root()] before the time is set: the task is
    not called, at no time. *)
Theorem transient_step_is_overwritten :
  exists l : Loop.Loop,
    Loop.set_transient Loop.init 0%float (Some 1.0%float) 0.25%float 0.5%float 100
    = Loop.Stored l /\
    Loop.dt l = 0.01%float /\
    Loop.tEnd l = 1%float /\
    Loop.is_nonlinear l = false /\
    Loop.is_transient l = true /\
    forall fuel,
      Loop.control LoopSpec.record_time LoopSpec.no_hook LoopSpec.no_hook LoopSpec.no_hook
        None (fun _ => false) fuel (Loop.mkSt l [] [])
      = Loop.Raises Loop.AttributeError (Loop.mkSt l [] []).
Proof.
  eexists. split; [vm_compute; reflexivity|].
  split; [reflexivity|]. split; [reflexivity|]. split; [reflexivity|].
  split; [reflexivity|]. intros fuel. reflexivity.
Qed.

(** * Properties of the execution tree *)

Section BaseFacts.
Import Base Runs.

(** ** Holes *)

(** The loop heading a phase stops with an [AttributeError] at a hole. *)
Lemma over_followers_hole (E : Env) (fuel : nat) (self : ref) (phase : ref -> M unit)
    (rest : list (option ref)) (st : State) :
  _followers (heap st !!! self) = None :: rest ->
  over_followers E fuel self phase st = Raise AttributeError st.
Proof.
  intros H. unfold over_followers, bind, node. rewrite H. reflexivity.
Qed.

(** C4.  [L.setFollower(F); F.destruct()] leaves [None] in [L]'s list, and
    on that tree [pre], [task] and [post] of [L] raise an [AttributeError]
    at the hole: their loops call the method on every entry, where
    [destructDownwards], [getFollowerDownwards] and [__str__] test the
    entry first. *)
Theorem phases_raise_at_a_hole :
  _followers (heap Sample.holed !!! Sample.L) = [None] /\
  (exists st, pre Sample.primary 10 Sample.L Sample.holed = Raise AttributeError st) /\
  (exists st, task Sample.primary 10 Sample.L Sample.holed = Raise AttributeError st) /\
  (exists st, post Sample.primary 10 Sample.L Sample.holed = Raise AttributeError st) /\
  getFollower 10 (heap Sample.holed) Sample.L "F" = Some None.
Proof.
  split; [vm_compute; reflexivity|].
  repeat split; try (eexists; vm_compute; reflexivity).
Qed.

(** ** Flags *)

(** What [modify] leaves at a reference. *)
Lemma lookup_modify (n : ref) (f : Node -> Node) (st : State) (y : ref) :
  heap (mkState (<[n := f (heap st !!! n)]> (heap st)) (handlers st) (out st)) !!! y
  = if decide (n = y) then f (heap st !!! n) else heap st !!! y.
Proof. cbn [heap]. apply lookup_total_insert. Qed.

(** Assigning through a list without a hole reaches every entry, and no
    other object. *)
Lemma assign_each (f : Node -> Node) (xs : list (option ref)) :
  Forall (fun x => x <> None) xs ->
  forall st, exists st',
    for_each xs (fun x => match x with
                          | Some x => modify x f
                          | None => raise AttributeError
                          end) st = Ok tt st' /\
    (forall y, Some y ∈ xs -> exists n, heap st' !!! y = f n) /\
    (forall y, Some y ∉ xs -> heap st' !!! y = heap st !!! y).
Proof.
  induction 1 as [|x xs Hx _ IH]; intros st.
  - exists st. split; [reflexivity|]. split; [|reflexivity].
    intros y Hy. apply elem_of_nil in Hy. contradiction.
  - destruct x as [a|]; [|congruence].
    cbn [for_each]. unfold bind at 1, modify at 1.
    destruct (IH (mkState (<[a := f (heap st !!! a)]> (heap st)) (handlers st) (out st)))
      as (st' & Hrun & Hin & Hout).
    exists st'. split; [exact Hrun|]. split.
    + intros y Hy. destruct (decide (Some y ∈ xs)) as [Hys|Hys]; [auto|].
      apply elem_of_cons in Hy as [Hy|Hy]; [|contradiction].
      injection Hy as ->. rewrite (Hout a Hys), lookup_modify.
      rewrite decide_True by reflexivity. eauto.
    + intros y Hy. apply not_elem_of_cons in Hy as [Hne Hys].
      rewrite (Hout y Hys), lookup_modify.
      rewrite decide_False by congruence. reflexivity.
Qed.

(** [assign_followers] on a list without a hole. *)
Lemma assign_followers_all (self : ref) (f : Node -> Node) (st : State) :
  Forall (fun x => x <> None) (_followers (heap st !!! self)) ->
  exists st',
    assign_followers self f st = Ok tt st' /\
    (forall y, Some y ∈ _followers (heap st !!! self) -> exists n, heap st' !!! y = f n) /\
    (forall y, Some y ∉ _followers (heap st !!! self) -> heap st' !!! y = heap st !!! y).
Proof.
  intros Hfull. unfold assign_followers, bind at 1, node at 1.
  apply assign_each. exact Hfull.
Qed.

(** A flag setter that hands the value on: the object and every follower
    listed at that time end with the flag the setter writes. *)
Lemma flag_handed_on (self : ref) (f : Node -> Node) (flag : Node -> bool) (v : bool)
    (st : State) :
  (forall n, flag (f n) = v) ->
  (forall n, _followers (f n) = _followers n) ->
  Forall (fun x => x <> None) (_followers (heap st !!! self)) ->
  exists st',
    (modify self f;; assign_followers self f) st = Ok tt st' /\
    flag (heap st' !!! self) = v /\
    forall y, Some y ∈ _followers (heap st !!! self) -> flag (heap st' !!! y) = v.
Proof.
  intros Hflag Hkeep Hfull. unfold bind at 1, modify at 1.
  set (st1 := mkState _ _ _).
  assert (Hfs : _followers (heap st1 !!! self) = _followers (heap st !!! self)).
  { unfold st1. rewrite lookup_modify, decide_True by reflexivity. apply Hkeep. }
  destruct (assign_followers_all self f st1) as (st' & Hrun & Hin & Hout).
  { rewrite Hfs. exact Hfull. }
  rewrite Hfs in Hin, Hout.
  exists st'. split; [exact Hrun|]. split.
  - destruct (decide (Some self ∈ _followers (heap st !!! self))) as [Hs|Hs].
    + destruct (Hin self Hs) as [n ->]. apply Hflag.
    + rewrite (Hout self Hs). unfold st1.
      rewrite lookup_modify, decide_True by reflexivity. apply Hflag.
  - intros y Hy. destruct (Hin y Hy) as [n ->]. apply Hflag.
Qed.

(** [warn] writes and shows, and changes no object. *)
Lemma warn_heap (E : Env) (self : ref) (msg : message) (st : State) :
  exists st', warn E self msg st = Ok tt st' /\ heap st' = heap st.
Proof.
  unfold warn, silent, bind, node, when, emit, ret.
  destruct (negb _); cbn [heap]; destruct (_gui _); cbn [heap]; eauto.
Qed.

(** [L.setFollower(F); L.silent = True] leaves [F._silent] as it was. *)
Lemma silent_stays_with_the_node :
  exists st,
    (setFollower Sample.L Sample.F;; set_silent Sample.L true) Sample.objects = Ok tt st /\
    _followers (heap st !!! Sample.L) = [Some Sample.F] /\
    _silent (heap st !!! Sample.L) = true /\
    _silent (heap st !!! Sample.F) = false.
Proof. eexists. repeat split; vm_compute; reflexivity. Qed.

(** C5, as the code has it.  On a node whose follower list has no hole,
    assigning [batch] stores the value in the node and in every follower
    listed at that time, and so does assigning [gui] with the value the
    setter keeps ([False] when ['tkinter'] is not loaded); assigning
    [silent] stores the value in the node only; and an object attached
    afterwards keeps the three flags it had. *)
Theorem flags_reach_current_followers (E : Env) (self : ref) (v : bool) (st : State) :
  Forall (fun x => x <> None) (_followers (heap st !!! self)) ->
  (exists st',
     set_batch self v st = Ok tt st' /\
     _batch (heap st' !!! self) = v /\
     forall f, Some f ∈ _followers (heap st !!! self) -> _batch (heap st' !!! f) = v) /\
  (exists st',
     set_gui E self v st = Ok tt st' /\
     _gui (heap st' !!! self) = (tkinter_loaded E && v) /\
     forall f, Some f ∈ _followers (heap st !!! self) ->
               _gui (heap st' !!! f) = (tkinter_loaded E && v)) /\
  (exists st',
     set_silent self v st = Ok tt st' /\
     _silent (heap st' !!! self) = v /\
     forall f, f <> self -> heap st' !!! f = heap st !!! f) /\
  (forall f, exists st',
     setFollower self f st = Ok f st' /\
     _gui (heap st' !!! f) = _gui (heap st !!! f) /\
     _batch (heap st' !!! f) = _batch (heap st !!! f) /\
     _silent (heap st' !!! f) = _silent (heap st !!! f)).
Proof.
  intros Hfull. split; [|split; [|split]].
  - apply flag_handed_on; [reflexivity|reflexivity|exact Hfull].
  - unfold set_gui. destruct (tkinter_loaded E); cbn [andb].
    + unfold bind at 1, ret at 1.
      apply (flag_handed_on self (with_gui v) _gui v); [reflexivity|reflexivity|exact Hfull].
    + unfold bind at 1, bind at 1.
      destruct (warn_heap E self MsgNoTkinter st) as (st1 & -> & Hheap).
      unfold ret at 1.
      destruct (flag_handed_on self (with_gui false) _gui false st1)
        as (st' & Hrun & Hself & Hfs); [reflexivity|reflexivity|rewrite Hheap; exact Hfull|].
      rewrite Hheap in Hfs. eauto.
  - eexists. split; [reflexivity|]. split.
    + rewrite lookup_modify, decide_True by reflexivity. reflexivity.
    + intros f Hne. rewrite lookup_modify, decide_False by congruence. reflexivity.
  - intros f. unfold setFollower, attach, bind, modify, node, when, ret.
    destruct (negb _); (eexists; split; [reflexivity|]); cbn [heap];
      repeat (rewrite lookup_total_insert; destruct (decide _)); subst; repeat split.
Qed.

(** The theorem on [L] with its follower [F] and its cooperator [C]. *)
Lemma flags_reach_current_followers_witness :
  Forall (fun x => x <> None) (_followers (heap Sample.tree !!! Sample.L)) /\
  (exists st',
     set_batch Sample.L true Sample.tree = Ok tt st' /\
     _batch (heap st' !!! Sample.L) = true /\
     forall f, Some f ∈ _followers (heap Sample.tree !!! Sample.L) ->
               _batch (heap st' !!! f) = true).
Proof.
  assert (H : Forall (fun x : option ref => x <> None)
                (_followers (heap Sample.tree !!! Sample.L))).
  { vm_compute. repeat constructor; discriminate. }
  split; [exact H|].
  exact (proj1 (flags_reach_current_followers Sample.primary Sample.L true Sample.tree H)).
Defined.

(** ** Attaching followers and cooperators *)

(** What [attach] writes: the leader of [other], and one more entry in the
    list of [self] unless [other] is listed. *)
Lemma attach_spec (self other : ref) (st : State) :
  exists st',
    attach self other st = Ok tt st' /\
    handlers st' = handlers st /\ out st' = out st /\
    (forall y, _leader (heap st' !!! y)
               = if decide (y = other) then Some self else _leader (heap st !!! y)) /\
    (forall y, _followers (heap st' !!! y)
               = if decide (y = self)
                 then (if decide (Some other ∈ _followers (heap st !!! self))
                       then _followers (heap st !!! self)
                       else _followers (heap st !!! self) ++ [Some other])
                 else _followers (heap st !!! y)) /\
    (forall y, _data (heap st' !!! y) = _data (heap st !!! y)) /\
    (forall y, _identifier (heap st' !!! y) = _identifier (heap st !!! y)).
Proof.
  unfold attach, bind, modify, node, when, ret. cbn [heap].
  rewrite bool_decide_decide.
  assert (Hfs : _followers (<[other := with_leader (Some self) (heap st !!! other)]>
                              (heap st) !!! self) = _followers (heap st !!! self)).
  { rewrite lookup_total_insert. destruct (decide (other = self)) as [->|]; reflexivity. }
  rewrite Hfs.
  destruct (decide (Some other ∈ _followers (heap st !!! self))) as [Hin|Hin]; cbn [negb];
    (eexists; split; [reflexivity|]); cbn [heap handlers out];
    (split; [reflexivity|]); (split; [reflexivity|]); repeat split; intros y;
    repeat (rewrite lookup_total_insert; repeat case_decide; subst; cbn;
            try congruence; try reflexivity);
    try rewrite Hfs; try reflexivity.
Qed.

(** What [join] writes: one more entry in the list of [self] unless [other]
    is listed. *)
Lemma join_spec (self other : ref) (st : State) :
  exists st',
    join self other st = Ok tt st' /\
    handlers st' = handlers st /\ out st' = out st /\
    (forall y, _leader (heap st' !!! y) = _leader (heap st !!! y)) /\
    (forall y, _followers (heap st' !!! y)
               = if decide (y = self)
                 then (if decide (Some other ∈ _followers (heap st !!! self))
                       then _followers (heap st !!! self)
                       else _followers (heap st !!! self) ++ [Some other])
                 else _followers (heap st !!! y)) /\
    (forall y, _data (heap st' !!! y) = _data (heap st !!! y)) /\
    (forall y, _identifier (heap st' !!! y) = _identifier (heap st !!! y)).
Proof.
  unfold join, bind, modify, node, when, ret. cbn [heap].
  rewrite bool_decide_decide.
  destruct (decide (Some other ∈ _followers (heap st !!! self))) as [Hin|Hin]; cbn [negb];
    (eexists; split; [reflexivity|]); cbn [heap handlers out];
    (split; [reflexivity|]); (split; [reflexivity|]); repeat split; intros y;
    rewrite ?lookup_total_insert; repeat case_decide; subst; cbn;
    try congruence; try reflexivity.
Qed.

(** The list [attach] and [join] leave holds the object. *)
Lemma listed_or_appended (x : ref) (fs : list (option ref)) :
  Some x ∈ (if decide (Some x ∈ fs) then fs else fs ++ [Some x]).
Proof.
  destruct (decide (Some x ∈ fs)); [assumption|].
  apply elem_of_app. right. apply list_elem_of_singleton. reflexivity.
Qed.

(** Attaching a follower keeps the integrity of the leader links. *)
Lemma attach_integrity (self other : ref) (st : State) :
  Tree.integrity (heap st) ->
  exists st', attach self other st = Ok tt st' /\ Tree.integrity (heap st').
Proof.
  intros Hint.
  destruct (attach_spec self other st) as (st' & Hrun & _ & _ & Hl & Hf & _).
  exists st'. split; [exact Hrun|].
  intros n l. rewrite Hl, Hf. intros Hn.
  destruct (decide (n = other)) as [->|Hne].
  - injection Hn as <-. rewrite decide_True by reflexivity.
    case_decide; [assumption|]. apply elem_of_app. right. apply list_elem_of_singleton.
    reflexivity.
  - apply Hint in Hn. repeat case_decide; subst; try assumption.
    apply elem_of_app. left. assumption.
Qed.

(** So does listing a cooperator. *)
Lemma join_integrity (self other : ref) (st : State) :
  Tree.integrity (heap st) ->
  exists st', join self other st = Ok tt st' /\ Tree.integrity (heap st').
Proof.
  intros Hint.
  destruct (join_spec self other st) as (st' & Hrun & _ & _ & Hl & Hf & _).
  exists st'. split; [exact Hrun|].
  intros n l. rewrite Hl, Hf. intros Hn.
  apply Hint in Hn. repeat case_decide; subst; try assumption.
  apply elem_of_app. left. assumption.
Qed.

(** A loop whose body keeps an invariant of the store keeps it. *)
Lemma for_each_invariant {A} (I : State -> Prop) (body : A -> M unit) (xs : list A) :
  (forall x st, I st -> exists st', body x st = Ok tt st' /\ I st') ->
  forall st, I st -> exists st', for_each xs body st = Ok tt st' /\ I st'.
Proof.
  intros Hbody. induction xs as [|x xs IH]; intros st Hst.
  - exists st. split; [reflexivity|assumption].
  - destruct (Hbody x st Hst) as (st1 & Hrun1 & Hst1).
    destruct (IH st1 Hst1) as (st' & Hrun & Hst').
    exists st'. split; [|assumption].
    cbn [for_each]. unfold bind at 1. rewrite Hrun1. exact Hrun.
Qed.

(** Every connecting operation returns and keeps the integrity. *)
Lemma run_integrity (o : Tree.op) (st : State) :
  Tree.integrity (heap st) ->
  exists st', Tree.run o st = Ok tt st' /\ Tree.integrity (heap st').
Proof.
  intros Hint. destruct o as [l f|l fs|l c|l cs|n [l|]]; cbn [Tree.run].
  - destruct (attach_integrity l f st Hint) as (st' & Hrun & Hst').
    exists st'. split; [|assumption].
    unfold setFollower, bind. rewrite Hrun. reflexivity.
  - destruct (for_each_invariant (fun s => Tree.integrity (heap s)) (attach l) fs
                (attach_integrity l) st Hint) as (st' & Hrun & Hst').
    exists st'. split; [|assumption].
    unfold setFollower_list, bind. rewrite Hrun. reflexivity.
  - destruct (join_integrity l c st Hint) as (st' & Hrun & Hst').
    exists st'. split; [|assumption].
    unfold setCooperator, bind. rewrite Hrun. reflexivity.
  - destruct (for_each_invariant (fun s => Tree.integrity (heap s)) (join l) cs
                (join_integrity l) st Hint) as (st' & Hrun & Hst').
    exists st'. split; [|assumption].
    unfold setCooperator_list, bind. rewrite Hrun. reflexivity.
  - destruct (attach_integrity l n st Hint) as (st' & Hrun & Hst').
    exists st'. split; [|assumption].
    unfold set_leader, setFollower, bind. rewrite Hrun. reflexivity.
  - exists st. split; [reflexivity|assumption].
Qed.

Lemma reachable_integrity (st : State) :
  Tree.reachable st -> Tree.integrity (heap st).
Proof.
  induction 1 as [st Hinit|st o st' _ IH Hrun].
  - intros n l Hn. destruct (Hinit n) as [Hl _]. congruence.
  - destruct (run_integrity o st IH) as (st'' & Hrun' & Hst'').
    rewrite Hrun in Hrun'. injection Hrun' as <-. exact Hst''.
Qed.

(** ** The sample tree *)

Lemma sample_tree_reachable : Tree.reachable Sample.tree.
Proof.
  eapply (Tree.reach_step _ (Tree.SetCooperator Sample.L Sample.C)).
  eapply (Tree.reach_step _ (Tree.SetFollower Sample.L2 Sample.C)).
  eapply (Tree.reach_step _ (Tree.SetFollower Sample.F Sample.G)).
  eapply (Tree.reach_step _ (Tree.SetFollower Sample.L Sample.F)).
  apply (Tree.reach_init Sample.objects).
  - intros n. unfold Sample.objects, fresh. cbn [heap].
    destruct (decide (n ∈ [Sample.L; Sample.F; Sample.G; Sample.C; Sample.L2])) as [Hin|Hout].
    + repeat (apply elem_of_cons in Hin as [->|Hin]; [split; reflexivity|]).
      apply elem_of_nil in Hin. contradiction.
    + rewrite lookup_total_alt.
      replace (list_to_map _ !! n) with (@None Node); [split; reflexivity|].
      symmetry. apply not_elem_of_list_to_map_1. exact Hout.
  - vm_compute. reflexivity.
  - vm_compute. reflexivity.
  - vm_compute. reflexivity.
  - vm_compute. reflexivity.
Qed.

Lemma sample_tree_nodes (x : ref) : heap Sample.tree !!! x = Sample.tree_node x.
Proof.
  assert (Hheap : heap Sample.tree
                  = list_to_map (map (fun y => (y, Sample.tree_node y)) [1; 2; 3; 4; 5])).
  { vm_compute. reflexivity. }
  rewrite Hheap.
  destruct (decide (x ∈ [1; 2; 3; 4; 5])) as [Hin|Hout].
  - repeat (apply elem_of_cons in Hin as [->|Hin]; [vm_compute; reflexivity|]).
    apply elem_of_nil in Hin. contradiction.
  - rewrite lookup_total_alt.
    replace (list_to_map _ !! x) with (@None Node).
    + do 6 (destruct x as [|x];
            [first [solve [exfalso; apply Hout; repeat constructor] | reflexivity]|]).
      reflexivity.
    + symmetry. apply not_elem_of_list_to_map_1. exact Hout.
Qed.

Lemma sample_tree_leaders :
  Tree.leaders_acyclic (heap Sample.tree) Sample.tree_depth.
Proof.
  intros x p. rewrite sample_tree_nodes.
  do 6 (destruct x as [|x]; [cbn; intros [= <-] || discriminate; cbn; lia|]).
  discriminate.
Qed.

Lemma sample_tree_lists :
  Tree.lists_acyclic (heap Sample.tree) Sample.tree_height.
Proof.
  intros p c. unfold Tree.lists. rewrite sample_tree_nodes.
  do 6 (destruct p as [|p];
        [cbn; intros Hc;
         repeat (apply elem_of_cons in Hc as [[= ->]|Hc]; [cbn; lia|]);
         apply elem_of_nil in Hc; contradiction|]).
  cbn. intros Hc. apply elem_of_nil in Hc. contradiction.
Qed.

Lemma sample_tree_below (r x : ref) :
  Tree.reaches (heap Sample.tree) r x -> r ∈ [1; 2; 3; 4; 5] -> x ∈ [1; 2; 3; 4; 5].
Proof.
  induction 1 as [r|r c x Hc _ IH]; intros Hr; [exact Hr|].
  apply IH. unfold Tree.lists in Hc. rewrite sample_tree_nodes in Hc.
  repeat (apply elem_of_cons in Hr as [->|Hr];
          [cbn in Hc;
           repeat (apply elem_of_cons in Hc as [[= ->]|Hc]; [set_solver|]);
           apply elem_of_nil in Hc; contradiction|]).
  apply elem_of_nil in Hr. contradiction.
Qed.

Lemma sample_tree_identifiers :
  Tree.unique_identifiers (heap Sample.tree) Sample.L.
Proof.
  intros x y Hx Hy. rewrite !sample_tree_nodes.
  apply sample_tree_below in Hx; [|apply elem_of_cons; left; reflexivity].
  apply sample_tree_below in Hy; [|apply elem_of_cons; left; reflexivity].
  repeat (apply elem_of_cons in Hx as [->|Hx]);
    [..|apply elem_of_nil in Hx; contradiction];
    (repeat (apply elem_of_cons in Hy as [->|Hy]);
     [..|apply elem_of_nil in Hy; contradiction]);
    cbn; intros Hid; try reflexivity; discriminate.
Qed.

(** [L.setFollower(F); F.destruct()] leaves [F._leader] at [L] and [F] out
    of [L]'s list; [L.setFollower(F); L.setCooperator(F)] leaves [F] a
    follower and not a cooperator of [L]. *)
Lemma integrity_lost_by_destruct :
  (setFollower Sample.L Sample.F;; destruct 2 Sample.F) Sample.objects
  = Ok true Sample.holed /\
  _leader (heap Sample.holed !!! Sample.F) = Some Sample.L /\
  listed (heap Sample.holed) Sample.L Sample.F = false /\
  exists st,
    (setFollower Sample.L Sample.F;; setCooperator Sample.L Sample.F) Sample.objects
    = Ok Sample.F st /\
    isCooperator (heap st) Sample.L Sample.F = false.
Proof.
  repeat split; try (vm_compute; reflexivity).
  eexists. split; vm_compute; reflexivity.
Qed.

(** C6, as the code has it.  In every state reached from unconnected objects
    by [setFollower], [setCooperator] and the [leader] setter, a node whose
    leader is set is listed among that leader's followers.  After
    [L.setFollower(F)], [F]'s leader is [L] and [L.isFollower(F)] holds.
    After [L.setCooperator(C)], [C]'s leader is the one it had, [C] is
    listed under [L], and [L.isCooperator(C)] holds exactly when that leader
    is not [L]. *)
Theorem integrity_of_attached_trees :
  (forall st, Tree.reachable st -> Tree.integrity (heap st)) /\
  (forall st L F, exists st',
      setFollower L F st = Ok F st' /\
      _leader (heap st' !!! F) = Some L /\
      isFollower (heap st') L F = true) /\
  (forall st L C, exists st',
      setCooperator L C st = Ok C st' /\
      _leader (heap st' !!! C) = _leader (heap st !!! C) /\
      listed (heap st') L C = true /\
      isCooperator (heap st') L C
      = negb (bool_decide (_leader (heap st !!! C) = Some L))).
Proof.
  split; [exact reachable_integrity|]. split.
  - intros st L F.
    destruct (attach_spec L F st) as (st' & Hrun & _ & _ & Hl & Hf & _).
    exists st'. split; [unfold setFollower, bind; rewrite Hrun; reflexivity|].
    assert (HF : _leader (heap st' !!! F) = Some L).
    { rewrite Hl, decide_True by reflexivity. reflexivity. }
    split; [exact HF|].
    unfold isFollower, listed. rewrite HF, Hf, decide_True by reflexivity.
    rewrite bool_decide_eq_true_2 by reflexivity. cbn [andb].
    apply bool_decide_eq_true_2. apply listed_or_appended.
  - intros st L C.
    destruct (join_spec L C st) as (st' & Hrun & _ & _ & Hl & Hf & _).
    exists st'. split; [unfold setCooperator, bind; rewrite Hrun; reflexivity|].
    split; [apply Hl|].
    assert (Hin : listed (heap st') L C = true).
    { unfold listed. rewrite Hf, decide_True by reflexivity.
      apply bool_decide_eq_true_2. apply listed_or_appended. }
    split; [exact Hin|].
    unfold isCooperator. rewrite Hin, Hl. apply andb_true_r.
Qed.

(** The sample tree is reached by four operations, so it has the integrity. *)
Lemma integrity_of_attached_trees_witness :
  Tree.reachable Sample.tree /\ Tree.integrity (heap Sample.tree).
Proof.
  split; [exact sample_tree_reachable|].
  exact (proj1 integrity_of_attached_trees Sample.tree sample_tree_reachable).
Defined.

(** C10.  In every state an object is a follower, in the sense of
    [isFollower], of at most one node.  [L2.setFollower(n)] after
    [L1.setFollower(n)], for two leaders, sets [n]'s leader to [L2] and
    leaves [n] in [L1]'s list: [L1.isFollower(n)] is false and
    [L1.isCooperator(n)] is true. *)
Theorem follower_of_one_leader :
  (forall (h : gmap nat Node) (n L1 L2 : ref),
      isFollower h L1 n = true -> isFollower h L2 n = true -> L1 = L2) /\
  (forall (st : State) (n L1 L2 : ref),
      L1 <> L2 ->
      exists st',
        (setFollower L1 n;; setFollower L2 n) st = Ok n st' /\
        _leader (heap st' !!! n) = Some L2 /\
        Some n ∈ _followers (heap st' !!! L1) /\
        isFollower (heap st') L2 n = true /\
        isFollower (heap st') L1 n = false /\
        isCooperator (heap st') L1 n = true).
Proof.
  split.
  - intros h n L1 L2 H1 H2. unfold isFollower in *.
    apply andb_true_iff in H1 as [H1 _]. apply andb_true_iff in H2 as [H2 _].
    apply bool_decide_eq_true_1 in H1. apply bool_decide_eq_true_1 in H2. congruence.
  - intros st n L1 L2 Hne.
    destruct (attach_spec L1 n st) as (st1 & Hrun1 & _ & _ & Hl1 & Hf1 & _).
    destruct (attach_spec L2 n st1) as (st' & Hrun2 & _ & _ & Hl2 & Hf2 & _).
    exists st'. split.
    { unfold setFollower, bind, ret. rewrite Hrun1. cbv beta iota.
      rewrite Hrun2. reflexivity. }
    assert (Hn : _leader (heap st' !!! n) = Some L2).
    { rewrite Hl2, decide_True by reflexivity. reflexivity. }
    assert (Hin1 : Some n ∈ _followers (heap st' !!! L1)).
    { rewrite Hf2, decide_False by congruence.
      rewrite Hf1, decide_True by reflexivity.
      apply listed_or_appended. }
    assert (Hin2 : Some n ∈ _followers (heap st' !!! L2)).
    { rewrite Hf2, decide_True by reflexivity.
      apply listed_or_appended. }
    split; [exact Hn|]. split; [exact Hin1|].
    unfold isFollower, isCooperator, listed. rewrite Hn.
    rewrite (bool_decide_eq_true_2 _ Hin1), (bool_decide_eq_true_2 _ Hin2).
    rewrite (bool_decide_eq_true_2 (Some L2 = Some L2)) by reflexivity.
    rewrite (bool_decide_eq_false_2 (Some L2 = Some L1)) by congruence.
    repeat split.
Qed.

(** [C] is first made a follower of [L], then of [L2]. *)
Lemma follower_of_one_leader_witness :
  Sample.L <> Sample.L2 /\
  exists st',
    (setFollower Sample.L Sample.C;; setFollower Sample.L2 Sample.C) Sample.objects
    = Ok Sample.C st' /\
    _leader (heap st' !!! Sample.C) = Some Sample.L2 /\
    Some Sample.C ∈ _followers (heap st' !!! Sample.L) /\
    isFollower (heap st') Sample.L2 Sample.C = true /\
    isFollower (heap st') Sample.L Sample.C = false /\
    isCooperator (heap st') Sample.L Sample.C = true.
Proof.
  assert (H : Sample.L <> Sample.L2) by discriminate.
  split; [exact H|].
  exact (proj2 follower_of_one_leader Sample.objects Sample.C Sample.L Sample.L2 H).
Defined.

(** ** Runs, step by step *)

Lemma bind_Ok_inv {A B} (c : M A) (k : A -> M B) (st st' : State) (b : B) :
  bind c k st = Ok b st' ->
  exists a st1, c st = Ok a st1 /\ k a st1 = Ok b st'.
Proof.
  unfold bind. destruct (c st) as [a st1| |]; [eauto|discriminate|discriminate].
Qed.

Lemma for_each_ext {A} (f g : A -> M unit) (xs : list A) :
  (forall x st, f x st = g x st) ->
  forall st, for_each xs f st = for_each xs g st.
Proof.
  intros Hfg. induction xs as [|x xs IH]; intros st; [reflexivity|].
  cbn [for_each]. unfold bind. rewrite Hfg.
  destruct (g x st); [apply IH|reflexivity|reflexivity].
Qed.

Lemma keeps_ret {A} (I : State -> Prop) (a : A) : keeps I (ret a).
Proof. intros st Hst. exact Hst. Qed.

Lemma keeps_raise {A} (I : State -> Prop) (e : exn) : keeps I (@raise A e).
Proof. intros st Hst. exact Hst. Qed.

Lemma keeps_diverge {A} (I : State -> Prop) : keeps I (@diverge A).
Proof. intros st Hst. exact Logic.I. Qed.

Lemma keeps_bind {A B} (I : State -> Prop) (c : M A) (k : A -> M B) :
  keeps I c -> (forall a, keeps I (k a)) -> keeps I (bind c k).
Proof.
  intros Hc Hk st Hst. specialize (Hc st Hst). unfold bind.
  destruct (c st) as [a st1|e st1|]; cbn [final] in *.
  - apply Hk. exact Hc.
  - exact Hc.
  - exact Logic.I.
Qed.

Lemma keeps_for_each {A} (I : State -> Prop) (body : A -> M unit) (xs : list A) :
  (forall x, keeps I (body x)) -> keeps I (for_each xs body).
Proof.
  intros Hbody. induction xs as [|x xs IH]; cbn [for_each].
  - apply keeps_ret.
  - apply keeps_bind; [apply Hbody|intros _; exact IH].
Qed.

Lemma keeps_node (I : State -> Prop) (n : ref) : keeps I (node n).
Proof. intros st Hst. exact Hst. Qed.

Lemma keeps_gets {A} (I : State -> Prop) (f : gmap nat Node -> A) : keeps I (gets f).
Proof. intros st Hst. exact Hst. Qed.

Lemma keeps_query {A} (I : State -> Prop) (q : gmap nat Node -> option A) :
  keeps I (query q).
Proof.
  intros st Hst. unfold query. destruct (q (heap st)); [exact Hst|exact Logic.I].
Qed.

Lemma keeps_emit (I : State -> Prop) (e : event) : on_heap I -> keeps I (emit e).
Proof.
  intros HI st Hst. cbn. eapply HI; [| |exact Hst]; [reflexivity|].
  eexists. reflexivity.
Qed.

Lemma keeps_when (I : State -> Prop) (b : bool) (c : M unit) :
  keeps I c -> keeps I (when b c).
Proof. intros Hc. destruct b; [exact Hc|apply keeps_ret]. Qed.

Lemma keeps_silent (I : State -> Prop) (E : Env) (n : ref) : keeps I (silent E n).
Proof. intros st Hst. exact Hst. Qed.

Lemma keeps_write (I : State -> Prop) (E : Env) (fuel : nat) (n : ref) (msg : message) :
  on_heap I -> keeps I (write E fuel n msg).
Proof.
  intros HI. unfold write.
  apply keeps_bind; [apply keeps_query|intros lvl].
  apply keeps_bind; [apply keeps_silent|intros s].
  apply keeps_bind; [apply keeps_when, keeps_emit, HI|intros _].
  apply keeps_emit, HI.
Qed.

Lemma keeps_phase_line (I : State -> Prop) (E : Env) (fuel : nat) (n : ref)
    (msg : string -> message) :
  on_heap I -> keeps I (phase_line E fuel n msg).
Proof.
  intros HI. unfold phase_line.
  apply keeps_bind; [apply keeps_query|intros r].
  apply keeps_bind; [apply keeps_node|intros rn].
  destruct (_followers rn); [apply keeps_ret|].
  apply keeps_bind; [apply keeps_node|intros nd]. apply keeps_write, HI.
Qed.

Lemma keeps_over_followers (I : State -> Prop) (E : Env) (fuel : nat) (self : ref)
    (phase : ref -> M unit) :
  on_heap I -> (forall x, keeps I (phase x)) -> keeps I (over_followers E fuel self phase).
Proof.
  intros HI Hphase. unfold over_followers.
  apply keeps_bind; [apply keeps_node|intros nd].
  apply keeps_for_each. intros [x|]; [|apply keeps_raise].
  apply keeps_bind; [apply Hphase|intros _].
  apply keeps_bind; [apply keeps_gets|intros coop].
  destruct coop; [|apply keeps_ret].
  apply keeps_bind; [apply keeps_query|intros lvl].
  apply keeps_bind; [apply keeps_node|intros xn].
  apply keeps_write, HI.
Qed.

Lemma keeps_modify (I : State -> Prop) (n : ref) (f : Node -> Node) :
  (forall st, I st ->
     I (mkState (<[n := f (heap st !!! n)]> (heap st)) (handlers st) (out st))) ->
  keeps I (modify n f).
Proof. intros Hf st Hst. apply Hf, Hst. Qed.

Lemma keeps_read_data (I : State -> Prop) (n : ref) : keeps I (read_data n).
Proof.
  unfold read_data. apply keeps_bind; [apply keeps_node|intros nd].
  destruct (_data nd); [apply keeps_raise|apply keeps_ret].
Qed.

(** ** The pre-processing phase *)

Lemma data_are_on_heap (D : ref -> attr) : on_heap (data_are D).
Proof. intros st st' Hh _ Hst n. rewrite Hh. apply Hst. Qed.

Lemma data_are_flag (D : ref -> attr) (n : ref) (f : Node -> Node) (st : State) :
  (forall nd, _data (f nd) = _data nd) ->
  data_are D st ->
  data_are D (mkState (<[n := f (heap st !!! n)]> (heap st)) (handlers st) (out st)).
Proof.
  intros Hf Hst y. rewrite lookup_modify. case_decide; subst; [rewrite Hf|]; apply Hst.
Qed.

(** [pre] changes no payload. *)
Lemma pre_keeps_data (E : Env) (D : ref -> attr) (fuel : nat) (self : ref) :
  keeps (data_are D) (pre E fuel self).
Proof.
  revert self. induction fuel as [|k IH]; intros self; cbn [pre].
  { apply keeps_diverge. }
  pose proof (data_are_on_heap D) as HI.
  apply keeps_bind; [apply keeps_emit, HI|intros _].
  apply keeps_bind.
  { apply keeps_over_followers; [exact HI|]. intros x.
    apply keeps_bind; [apply IH|intros _; apply keeps_ret]. }
  intros _. apply keeps_bind; [apply keeps_phase_line, HI|intros _].
  apply keeps_bind; [apply keeps_read_data|intros d].
  apply keeps_bind.
  { destruct d; [apply keeps_ret|].
    apply keeps_bind; [apply keeps_emit, HI|intros _; apply keeps_ret]. }
  intros ok. apply keeps_bind; [|intros _; apply keeps_ret].
  apply keeps_modify. intros st. apply data_are_flag. reflexivity.
Qed.

(** [write] adds lines and changes nothing else. *)
Lemma write_lines (E : Env) (fuel : nat) (n : ref) (msg : message) (st st' : State) :
  write E fuel n msg st = Ok tt st' ->
  heap st' = heap st /\
  exists evs, out st' = out st ++ evs /\ Forall is_line evs.
Proof.
  unfold write, query, silent, bind, node, when, emit, ret.
  destruct (treeLevel fuel (heap st) n) as [lvl|]; [|discriminate].
  destruct (negb _); cbn [heap out handlers]; intros [= <-]; cbn [heap out];
    (split; [reflexivity|]).
  - exists [Printed lvl msg; Logged lvl msg]. rewrite <- app_assoc.
    split; [reflexivity|]. repeat constructor.
  - exists [Logged lvl msg]. split; [reflexivity|]. repeat constructor.
Qed.

Lemma phase_line_lines (E : Env) (fuel : nat) (n : ref) (msg : string -> message)
    (st st' : State) :
  phase_line E fuel n msg st = Ok tt st' ->
  heap st' = heap st /\
  exists evs, out st' = out st ++ evs /\ Forall is_line evs.
Proof.
  unfold phase_line, query, bind, node.
  destruct (root fuel (heap st) n) as [r|]; [|discriminate].
  destruct (_followers (heap st !!! r)).
  - intros [= <-]. split; [reflexivity|]. exists []. rewrite app_nil_r.
    split; [reflexivity|constructor].
  - apply write_lines.
Qed.

Lemma over_followers_ext (E : Env) (fuel : nat) (self : ref) (f g : ref -> M unit) :
  (forall x st, f x st = g x st) ->
  forall st, over_followers E fuel self f st = over_followers E fuel self g st.
Proof.
  intros Hfg st. unfold over_followers, bind at 1 3, node.
  apply for_each_ext. intros [x|] s; [|reflexivity].
  unfold bind at 1 3. rewrite Hfg. reflexivity.
Qed.

Lemma bind_assoc {A B C} (c : M A) (k : A -> M B) (k2 : B -> M C) (st : State) :
  bind (bind c k) k2 st = bind c (fun a => bind (k a) k2) st.
Proof. unfold bind. destruct (c st); reflexivity. Qed.

Lemma bind_cong {A B} (c c' : M A) (k k' : A -> M B) (st : State) :
  c st = c' st -> (forall a s, k a s = k' a s) -> bind c k st = bind c' k' st.
Proof. intros Hc Hk. unfold bind. rewrite Hc. destruct (c' st); auto. Qed.

(** The outcomes of the [load] hooks decide nothing in [pre] but the value
    it returns. *)
Lemma pre_load_irrelevant (E : Env) (f : ref -> bool) (fuel : nat) :
  forall self st,
    (pre (with_load f E) fuel self;; ret tt) st = (pre E fuel self;; ret tt) st.
Proof.
  induction fuel as [|k IH]; intros self st; [reflexivity|].
  cbn [pre]. rewrite !bind_assoc.
  apply bind_cong; [reflexivity|]. intros _ s0. rewrite !bind_assoc.
  change (over_followers (with_load f E)) with (over_followers E).
  apply bind_cong; [apply over_followers_ext, IH|]. intros _ s1. rewrite !bind_assoc.
  apply bind_cong; [reflexivity|]. intros _ s2. rewrite !bind_assoc.
  apply bind_cong; [reflexivity|]. intros d s3.
  destruct d; reflexivity.
Qed.

(** What a run of [pre] that returns went through: the loop over the
    followers, the phase line, and the node's own [load] where its [_data]
    is [None]. *)
Lemma pre_trace (E : Env) (fuel : nat) (self : ref) (st st' : State) (b : bool) :
  pre E fuel self st = Ok b st' ->
  exists k st1 evs d,
    fuel = S k /\
    over_followers E fuel self (fun x => pre E k x;; ret tt)
      (mkState (heap st) (handlers st) (out st ++ [Enter self m_pre])) = Ok tt st1 /\
    _data (heap st !!! self) = Bound d /\
    b = match d with None => load E self | Some _ => true end /\
    out st' = out st1 ++ evs ++ match d with
                                | None => [Enter self m_load]
                                | Some _ => []
                                end /\
    Forall is_line evs.
Proof.
  intros Hrun.
  destruct fuel as [|k]; [discriminate|]. cbn [pre] in Hrun.
  apply bind_Ok_inv in Hrun as ([] & st0 & Hemit & Hrun).
  apply bind_Ok_inv in Hrun as ([] & st1 & Hover & Hrun).
  apply bind_Ok_inv in Hrun as ([] & st2 & Hline & Hrun).
  apply bind_Ok_inv in Hrun as (d & st3 & Hread & Hrun).
  apply bind_Ok_inv in Hrun as (ok & st4 & Hload & Hrun).
  apply bind_Ok_inv in Hrun as ([] & st5 & Hdone & Hrun).
  injection Hrun as <- <-. injection Hdone as <-. injection Hemit as <-.
  set (D := fun n => _data (heap st !!! n)).
  pose proof (data_are_on_heap D) as HI.
  assert (H1 : data_are D st1).
  { assert (Hk : keeps (data_are D)
                   (over_followers E (S k) self (fun x => pre E k x;; ret tt))).
    { apply keeps_over_followers; [exact HI|]. intros x.
      apply keeps_bind; [apply pre_keeps_data|intros _; apply keeps_ret]. }
    specialize (Hk (mkState (heap st) (handlers st) (out st ++ [Enter self m_pre]))).
    rewrite Hover in Hk. apply Hk. intros n. reflexivity. }
  destruct (phase_line_lines _ _ _ _ _ _ Hline) as (Hheap2 & evs & Hout2 & Hevs).
  assert (Hd : _data (heap st !!! self) = Bound d /\ st3 = st2).
  { unfold read_data, bind, node in Hread. rewrite Hheap2, (H1 self) in Hread.
    unfold D in Hread. destruct (_data (heap st !!! self)); [discriminate|].
    injection Hread as -> ->. split; reflexivity. }
  destruct Hd as [Hd ->].
  assert (Hload' : ok = match d with None => load E self | Some _ => true end /\
                   out st4 = out st2 ++ match d with
                                        | None => [Enter self m_load]
                                        | Some _ => []
                                        end).
  { destruct d as [d|].
    - injection Hload as -> <-. rewrite app_nil_r. split; reflexivity.
    - unfold bind in Hload. cbn in Hload. injection Hload as -> <-.
      split; reflexivity. }
  destruct Hload' as [-> Hout4].
  exists k, st1, evs, d.
  split; [reflexivity|]. split; [exact Hover|]. split; [exact Hd|].
  split; [reflexivity|]. split; [|exact Hevs].
  cbn [out]. rewrite Hout4, Hout2, app_assoc. reflexivity.
Qed.

(** ** The root and the search by identifier *)

Lemma reaches_trans (h : gmap nat Node) (r p x : ref) :
  Tree.reaches h r p -> Tree.reaches h p x -> Tree.reaches h r x.
Proof.
  induction 1 as [r|r c p Hrc _ IH]; intros Hpx; [exact Hpx|].
  eapply Tree.reaches_below; [exact Hrc|]. apply IH, Hpx.
Qed.

(** With fuel above the depth, [root] ends at a node without leader, from
    which the start is reached. *)
Lemma root_ends (h : gmap nat Node) (depth : ref -> nat) :
  Tree.leaders_acyclic h depth ->
  Tree.integrity h ->
  forall fuel x, depth x < fuel ->
    exists R, root fuel h x = Some R /\ _leader (h !!! R) = None /\ Tree.reaches h R x.
Proof.
  intros Hacyc Hint. induction fuel as [|k IH]; intros x Hx; [lia|].
  cbn [root]. destruct (_leader (h !!! x)) as [p|] eqn:Hp.
  - destruct (IH p) as (R & Hroot & HR & Hreach).
    { apply Hacyc in Hp. lia. }
    exists R. split; [exact Hroot|]. split; [exact HR|].
    eapply reaches_trans; [exact Hreach|].
    eapply Tree.reaches_below; [apply Hint, Hp|constructor].
  - exists x. split; [reflexivity|]. split; [exact Hp|constructor].
Qed.

(** Whatever the fuel, [root] has one answer. *)
Lemma root_one_answer (h : gmap nat Node) :
  forall fuel fuel' x R R',
    root fuel h x = Some R -> root fuel' h x = Some R' -> R = R'.
Proof.
  induction fuel as [|k IH]; intros fuel' x R R'; [discriminate|].
  destruct fuel' as [|k']; [discriminate|].
  cbn [root]. destruct (_leader (h !!! x)) as [p|]; [apply IH|congruence].
Qed.

(** What the loop over a list of followers answers, given what the search
    answers below each of them. *)
Lemma first_found_spec (h : gmap nat Node) (identifier : string)
    (search : ref -> option (option ref)) (l : list (option ref)) :
  (forall c, Some c ∈ l ->
     exists r, search c = Some r /\
       match r with
       | Some x => Tree.reaches h c x /\ _identifier (h !!! x) = identifier
       | None => forall x, Tree.reaches h c x -> _identifier (h !!! x) <> identifier
       end) ->
  exists r, first_found search l = Some r /\
    match r with
    | Some x => (exists c, Some c ∈ l /\ Tree.reaches h c x) /\
                _identifier (h !!! x) = identifier
    | None => forall c x, Some c ∈ l -> Tree.reaches h c x ->
                          _identifier (h !!! x) <> identifier
    end.
Proof.
  induction l as [|[c|] l IH]; intros Hl; cbn [first_found].
  - exists None. split; [reflexivity|]. intros c x Hc. apply elem_of_nil in Hc.
    contradiction.
  - destruct (Hl c) as (r & Hr & Hspec); [apply elem_of_cons; left; reflexivity|].
    rewrite Hr. destruct r as [x|].
    + exists (Some x). split; [reflexivity|]. destruct Hspec as [Hreach Hid].
      split; [|exact Hid]. exists c. split; [apply elem_of_cons; left; reflexivity|].
      exact Hreach.
    + destruct IH as (r & Hr' & Hspec').
      { intros c' Hc'. apply Hl. apply elem_of_cons. right. exact Hc'. }
      exists r. split; [exact Hr'|]. destruct r as [x|].
      * destruct Hspec' as [(c' & Hc' & Hreach) Hid]. split; [|exact Hid].
        exists c'. split; [apply elem_of_cons; right; exact Hc'|exact Hreach].
      * intros c' x Hc' Hreach. apply elem_of_cons in Hc' as [Hc'|Hc'].
        -- injection Hc' as ->. apply Hspec, Hreach.
        -- eapply Hspec'; eassumption.
  - destruct IH as (r & Hr & Hspec).
    { intros c' Hc'. apply Hl. apply elem_of_cons. right. exact Hc'. }
    exists r. split; [exact Hr|]. destruct r as [x|].
    + destruct Hspec as [(c' & Hc' & Hreach) Hid]. split; [|exact Hid].
      exists c'. split; [apply elem_of_cons; right; exact Hc'|exact Hreach].
    + intros c' x Hc' Hreach. apply elem_of_cons in Hc' as [Hc'|Hc']; [discriminate|].
      eapply Hspec; eassumption.
Qed.

(** The search below [m], called on a node with another identifier, ends
    with fuel above the height and answers with an object below [m] that
    has the identifier, if there is one. *)
Lemma search_below (h : gmap nat Node) (height : ref -> nat) (self : ref)
    (identifier : string) :
  Tree.lists_acyclic h height ->
  _identifier (h !!! self) <> identifier ->
  forall fuel m, height m < fuel ->
    exists r, getFollowerDownwards fuel h self identifier (Some m) = Some r /\
      match r with
      | Some x => Tree.reaches h m x /\ _identifier (h !!! x) = identifier
      | None => forall x, Tree.reaches h m x -> _identifier (h !!! x) <> identifier
      end.
Proof.
  intros Hacyc Hself. induction fuel as [|k IH]; intros m Hm; [lia|].
  cbn [getFollowerDownwards].
  rewrite (proj2 (String.eqb_neq _ _) Hself).
  destruct (String.eqb (_identifier (h !!! m)) identifier) eqn:Hid.
  - apply String.eqb_eq in Hid. exists (Some m). split; [reflexivity|].
    split; [constructor|exact Hid].
  - destruct (first_found_spec h identifier
                (fun nd => getFollowerDownwards k h self identifier (Some nd))
                (_followers (h !!! m))) as (r & Hr & Hspec).
    { intros c Hc. apply IH. apply Hacyc in Hc. lia. }
    cbv beta iota. rewrite Hid.
    exists r. split; [exact Hr|]. destruct r as [x|].
    + destruct Hspec as [(c & Hc & Hreach) Hx]. split; [|exact Hx].
      eapply Tree.reaches_below; [exact Hc|exact Hreach].
    + intros x Hreach. inversion Hreach as [|? c ? Hc Hcx]; subst.
      * apply String.eqb_neq. exact Hid.
      * eapply Hspec; eassumption.
Qed.

(** C8.  In a store whose leader links and whose lists are acyclic, and in
    which a leader that is set lists the node, [root] called on a node [N]
    ends, at the one node [R] without leader up the links from [N]; and when
    no two objects below [R] share an identifier, the search from [R] for
    [N]'s identifier ends and answers [N]. *)
Theorem root_ends_and_search_finds
    (h : gmap nat Node) (depth height : ref -> nat) (N : ref) :
  Tree.leaders_acyclic h depth ->
  Tree.lists_acyclic h height ->
  Tree.integrity h ->
  exists R,
    (forall fuel, depth N < fuel -> root fuel h N = Some R) /\
    (forall fuel R', root fuel h N = Some R' -> R' = R) /\
    _leader (h !!! R) = None /\
    (Tree.unique_identifiers h R ->
     forall fuel, height R < fuel ->
       getFollower fuel h R (_identifier (h !!! N)) = Some (Some N) /\
       getFollowerDownwards fuel h R (_identifier (h !!! N)) (Some R) = Some (Some N)).
Proof.
  intros Hup Hdown Hint.
  destruct (root_ends h depth Hup Hint (S (depth N)) N) as (R & Hroot & HR & Hreach);
    [lia|].
  exists R. split; [|split; [|split; [exact HR|]]].
  - intros fuel Hfuel.
    destruct (root_ends h depth Hup Hint fuel N Hfuel) as (R' & Hroot' & _).
    rewrite Hroot'. f_equal. eapply root_one_answer; eassumption.
  - intros fuel R' Hroot'. eapply root_one_answer; eassumption.
  - intros Huniq fuel Hfuel.
    destruct fuel as [|k]; [lia|].
    unfold getFollower. cbn [getFollowerDownwards root]. rewrite HR.
    destruct (String.eqb (_identifier (h !!! R)) (_identifier (h !!! N))) eqn:Hid.
    + apply String.eqb_eq in Hid.
      assert (R = N) as -> by (apply Huniq; [constructor|exact Hreach|exact Hid]).
      split; reflexivity.
    + destruct (first_found_spec h (_identifier (h !!! N))
                  (fun nd => getFollowerDownwards k h R (_identifier (h !!! N)) (Some nd))
                  (_followers (h !!! R))) as (r & Hr & Hspec).
      { intros c Hc. apply (search_below h height); [exact Hdown| |].
        - apply String.eqb_neq. exact Hid.
        - apply Hdown in Hc. lia. }
      cbv beta iota. rewrite ?Hid, Hr. destruct r as [x|].
      * destruct Hspec as [(c & Hc & Hcx) Hx].
        assert (x = N) as ->.
        { apply Huniq; [|exact Hreach|exact Hx].
          eapply Tree.reaches_below; [exact Hc|exact Hcx]. }
        split; reflexivity.
      * exfalso. inversion Hreach as [|? c ? Hc Hcx]; subst.
        -- apply String.eqb_neq in Hid. congruence.
        -- eapply Hspec; [exact Hc|exact Hcx|reflexivity].
Qed.

(** The theorem on the sample tree, for [G] two levels below [L]. *)
Lemma root_ends_and_search_finds_witness :
  Tree.leaders_acyclic (heap Sample.tree) Sample.tree_depth /\
  Tree.lists_acyclic (heap Sample.tree) Sample.tree_height /\
  Tree.integrity (heap Sample.tree) /\
  exists R,
    (forall fuel, Sample.tree_depth Sample.G < fuel ->
                  root fuel (heap Sample.tree) Sample.G = Some R) /\
    (forall fuel R', root fuel (heap Sample.tree) Sample.G = Some R' -> R' = R) /\
    _leader (heap Sample.tree !!! R) = None /\
    (Tree.unique_identifiers (heap Sample.tree) R ->
     forall fuel, Sample.tree_height R < fuel ->
       getFollower fuel (heap Sample.tree) R
         (_identifier (heap Sample.tree !!! Sample.G)) = Some (Some Sample.G) /\
       getFollowerDownwards fuel (heap Sample.tree) R
         (_identifier (heap Sample.tree !!! Sample.G)) (Some R) = Some (Some Sample.G)).
Proof.
  split; [exact sample_tree_leaders|]. split; [exact sample_tree_lists|].
  split; [exact (reachable_integrity _ sample_tree_reachable)|].
  exact (root_ends_and_search_finds (heap Sample.tree) Sample.tree_depth
           Sample.tree_height Sample.G sample_tree_leaders sample_tree_lists
           (reachable_integrity _ sample_tree_reachable)).
Defined.

(** ** Destruction *)

Lemma same_length_of_slots {A} (l l0 : list A) :
  (forall i, l !! i = l0 !! i \/ (is_Some (l !! i) /\ is_Some (l0 !! i))) ->
  length l = length l0.
Proof.
  intros H.
  destruct (decide (length l < length l0)) as [Hlt|Hge].
  - exfalso. destruct (H (length l)) as [Heq|[Hs _]].
    + rewrite lookup_ge_None_2 in Heq by lia.
      symmetry in Heq. apply lookup_ge_None_1 in Heq. lia.
    + apply lookup_lt_is_Some_1 in Hs. lia.
  - destruct (decide (length l0 < length l)) as [Hlt|Hge']; [|lia].
    exfalso. destruct (H (length l0)) as [Heq|[_ Hs]].
    + rewrite (lookup_ge_None_2 l0) in Heq by lia.
      apply lookup_ge_None_1 in Heq. lia.
    + apply lookup_lt_is_Some_1 in Hs. lia.
Qed.

Lemma shrinks_refl (st : State) : Tree.shrinks st st.
Proof. intros x y H. exact H. Qed.

Lemma shrinks_trans (st1 st2 st3 : State) :
  Tree.shrinks st1 st2 -> Tree.shrinks st2 st3 -> Tree.shrinks st1 st3.
Proof. intros H12 H23 x y H. apply H12, H23, H. Qed.

Section Destruction.

Variable h0 : gmap nat Node.
Variable top : ref.
Variable ht : ref -> nat.
Hypothesis Hacyc : Tree.owned_acyclic h0 ht.
Hypothesis Honce : Tree.listed_once h0.

Lemma wake_leader (st : State) (x : ref) :
  Tree.wake h0 top st -> _leader (heap st !!! x) = _leader (h0 !!! x).
Proof.
  intros W. pose proof (Tree.wake_skeleton _ _ _ W x) as H.
  apply (f_equal _leader) in H. exact H.
Qed.

Lemma wake_length (st : State) (x : ref) :
  Tree.wake h0 top st ->
  length (_followers (heap st !!! x)) = length (_followers (h0 !!! x)).
Proof.
  intros W. apply same_length_of_slots. intros i.
  destruct (Tree.wake_slot _ _ _ W x i) as [H|(H & y & Hy & _)]; [left; exact H|].
  right. rewrite H, Hy. split; eexists; reflexivity.
Qed.

(** An entry that is listed now is the entry the slot had at the start. *)
Lemma wake_entry (st : State) (x : ref) (i : nat) (y : ref) :
  Tree.wake h0 top st ->
  _followers (heap st !!! x) !! i = Some (Some y) ->
  _followers (h0 !!! x) !! i = Some (Some y).
Proof.
  intros W H. destruct (Tree.wake_slot _ _ _ W x i) as [H'|(H' & _)]; congruence.
Qed.

(** A slot that held [y] at the start holds [y] or [None]. *)
Lemma wake_slot_of (st : State) (x : ref) (i : nat) (y : ref) :
  Tree.wake h0 top st ->
  _followers (h0 !!! x) !! i = Some (Some y) ->
  _followers (heap st !!! x) !! i = Some (Some y) \/
  _followers (heap st !!! x) !! i = Some None.
Proof.
  intros W H. destruct (Tree.wake_slot _ _ _ W x i) as [H'|(H' & _)].
  - left. congruence.
  - right. exact H'.
Qed.

Lemma blanked_lookup (st : State) (l n : ref) (i : nat) (x : ref) :
  l <> n ->
  heap (Tree.blanked st l n i) !!! x
  = if decide (x = l)
    then with_followers (<[i := None]> (_followers (heap st !!! l))) (heap st !!! l)
    else if decide (x = n) then with_data Deleted (heap st !!! n)
         else heap st !!! x.
Proof.
  intros Hne. unfold Tree.blanked. cbn [heap].
  rewrite lookup_total_insert. destruct (decide (l = x)) as [->|Hl].
  - rewrite decide_True by reflexivity. reflexivity.
  - rewrite decide_False by congruence.
    rewrite lookup_total_insert. destruct (decide (n = x)) as [->|Hn].
    + rewrite decide_True by reflexivity. reflexivity.
    + rewrite decide_False by congruence. reflexivity.
Qed.

(** What [_destructFollower] does when it finds the node, a follower with
    its payload, in the list. *)
Lemma destructFollower_found (st : State) (l n : ref) (i : nat) :
  l <> n ->
  _leader (heap st !!! n) = Some l ->
  _followers (heap st !!! l) !! i = Some (Some n) ->
  (forall j, j < i -> _followers (heap st !!! l) !! j <> Some (Some n)) ->
  _data (heap st !!! n) <> Deleted ->
  _destructFollower l (Some n) st = Ok true (Tree.blanked st l n i).
Proof.
  intros Hne Hlead Hi Hfirst Hdata.
  unfold _destructFollower, bind at 1, node at 1.
  assert (Hfind : list_find (fun val => val = Some n) (_followers (heap st !!! l))
                  = Some (i, Some n)).
  { apply list_find_Some. split; [exact Hi|]. split; [reflexivity|].
    intros j y Hj Hlt ->. exact (Hfirst j Hlt Hj). }
  rewrite Hfind. unfold bind at 1, gets at 1.
  assert (Hcoop : isCooperator (heap st) l n = false).
  { unfold isCooperator. rewrite bool_decide_eq_true_2 by exact Hlead. reflexivity. }
  rewrite Hcoop. unfold del_data, bind, node, modify, ret. cbn [heap handlers out].
  destruct (_data (heap st !!! n)) eqn:Hd; [congruence|].
  unfold Tree.blanked. cbn [heap handlers out].
  rewrite (lookup_total_insert_ne (heap st) n l) by congruence. reflexivity.
Qed.

Lemma blanked_followers (st : State) (l n : ref) (i : nat) (x : ref) :
  l <> n ->
  _followers (heap (Tree.blanked st l n i) !!! x)
  = if decide (x = l) then <[i := None]> (_followers (heap st !!! l))
    else _followers (heap st !!! x).
Proof.
  intros Hne. rewrite blanked_lookup by exact Hne.
  repeat case_decide; subst; reflexivity.
Qed.

Lemma blanked_data (st : State) (l n : ref) (i : nat) (x : ref) :
  l <> n ->
  _data (heap (Tree.blanked st l n i) !!! x)
  = if decide (x = n) then Deleted else _data (heap st !!! x).
Proof.
  intros Hne. rewrite blanked_lookup by exact Hne.
  repeat case_decide; subst; try reflexivity; congruence.
Qed.

Lemma blanked_skeleton (st : State) (l n : ref) (i : nat) (x : ref) :
  l <> n ->
  Tree.skeleton (heap (Tree.blanked st l n i) !!! x) = Tree.skeleton (heap st !!! x).
Proof.
  intros Hne. rewrite blanked_lookup by exact Hne.
  repeat case_decide; subst; reflexivity.
Qed.

Lemma blanked_shrinks (st : State) (l n : ref) (i : nat) :
  l <> n -> Tree.shrinks st (Tree.blanked st l n i).
Proof.
  intros Hne x y. rewrite blanked_followers by exact Hne.
  case_decide; [subst|tauto].
  intros Hy. apply list_elem_of_lookup in Hy as [j Hj].
  destruct (decide (i = j)) as [->|Hij].
  - destruct (decide (j < length (_followers (heap st !!! l)))) as [Hlt|Hge].
    + rewrite list_lookup_insert_eq in Hj by exact Hlt. discriminate.
    + rewrite list_insert_ge in Hj by lia. apply list_elem_of_lookup. eauto.
  - rewrite list_lookup_insert_ne in Hj by exact Hij.
    apply list_elem_of_lookup. eauto.
Qed.

(** After the step the node is out of the list of its leader. *)
Lemma blanked_unlisted (st : State) (l n : ref) (i : nat) :
  Tree.wake h0 top st ->
  l <> n ->
  _followers (heap st !!! l) !! i = Some (Some n) ->
  Some n ∉ _followers (heap (Tree.blanked st l n i) !!! l).
Proof.
  intros W Hne Hi Hin. rewrite blanked_followers, decide_True in Hin by auto.
  apply list_elem_of_lookup in Hin as [j Hj].
  destruct (decide (i = j)) as [->|Hij].
  - rewrite list_lookup_insert_eq in Hj; [discriminate|].
    apply lookup_lt_is_Some. eauto.
  - rewrite list_lookup_insert_ne in Hj by exact Hij.
    apply Hij. eapply Honce; eapply wake_entry; eassumption.
Qed.

(** The step keeps the destruction in its wake. *)
Lemma blanked_wake (st : State) (l n : ref) (i : nat) :
  Tree.wake h0 top st ->
  l <> n ->
  _leader (h0 !!! n) = Some l ->
  Tree.above h0 n top ->
  Tree.emptied h0 (heap st) n ->
  _followers (heap st !!! l) !! i = Some (Some n) ->
  Tree.wake h0 top (Tree.blanked st l n i).
Proof.
  intros W Hne Hlead Habove Hempty Hi.
  pose proof (blanked_shrinks st l n i Hne) as Hshr.
  pose proof (blanked_unlisted st l n i W Hne Hi) as Hout.
  assert (Hlt : i < length (_followers (heap st !!! l))).
  { apply lookup_lt_is_Some. eauto. }
  split.
  - intros x. rewrite blanked_skeleton by exact Hne. apply W.
  - intros x j. unfold Tree.slot_kept_or_blanked.
    rewrite blanked_followers by exact Hne.
    destruct (decide (x = l)) as [->|Hx]; [|apply W].
    destruct (decide (i = j)) as [->|Hij].
    + right. rewrite list_lookup_insert_eq by exact Hlt. split; [reflexivity|].
      exists n. split; [eapply wake_entry; eassumption|]. split; assumption.
    + rewrite list_lookup_insert_ne by exact Hij. apply W.
  - intros x. rewrite blanked_data by exact Hne.
    destruct (decide (x = n)) as [->|Hx]; [right; split; [reflexivity|assumption]|].
    apply W.
  - intros x p Hx Hp Hin. rewrite blanked_data by exact Hne.
    destruct (decide (x = n)) as [->|Hxn].
    + exfalso. assert (p = l) as -> by congruence. exact (Hout Hin).
    + eapply (Tree.wake_listed _ _ _ W); [exact Hx|exact Hp|]. apply Hshr, Hin.
  - intros x p j Hp Hbase Hnow.
    assert (Hcase : x = n \/ _followers (heap st !!! p) !! j = Some None).
    { rewrite blanked_followers in Hnow by exact Hne.
      destruct (decide (p = l)) as [->|Hpl]; [|right; exact Hnow].
      destruct (decide (i = j)) as [->|Hij].
      - left. pose proof (wake_entry _ _ _ _ W Hi). congruence.
      - right. rewrite list_lookup_insert_ne in Hnow by exact Hij. exact Hnow. }
    destruct Hcase as [->|Hold].
    + split.
      * rewrite blanked_data, decide_True by auto. reflexivity.
      * intros y Hy Hin. apply Hshr in Hin. exact (Hempty y Hy Hin).
    + destruct (Tree.wake_done _ _ _ W x p j Hp Hbase Hold) as [Hd He].
      split.
      * rewrite blanked_data by exact Hne. case_decide; [reflexivity|exact Hd].
      * intros y Hy Hin. apply Hshr in Hin. exact (He y Hy Hin).
Qed.

Lemma above_ht (x m : ref) : Tree.above h0 x m -> ht x <= ht m.
Proof.
  induction 1 as [x|x p m Hp _ IH]; [lia|]. apply Hacyc in Hp. lia.
Qed.

Lemma calm_refl (st : State) : Tree.calm top st st.
Proof. split; [apply shrinks_refl|]. split; [reflexivity|auto]. Qed.

Lemma calm_trans (st1 st2 st3 : State) :
  Tree.calm top st1 st2 -> Tree.calm top st2 st3 -> Tree.calm top st1 st3.
Proof.
  intros (H12 & D12 & S12) (H23 & D23 & S23).
  split; [eapply shrinks_trans; eassumption|]. split; [congruence|auto].
Qed.

(** [_destructFollower], called by a follower whose own followers are gone
    from its list, returns and takes the follower out of the list of its
    leader. *)
Lemma destructFollower_wake (st : State) (l n : ref) :
  Tree.wake h0 top st ->
  _leader (h0 !!! n) = Some l ->
  n <> top ->
  Tree.above h0 n top ->
  Tree.emptied h0 (heap st) n ->
  exists b st',
    _destructFollower l (Some n) st = Ok b st' /\
    Tree.wake h0 top st' /\ Tree.calm top st st' /\
    Some n ∉ _followers (heap st' !!! l).
Proof.
  intros W Hlead Htop Habove Hempty.
  assert (Hne : l <> n).
  { intros ->. apply Hacyc in Hlead. lia. }
  destruct (list_find (fun val => val = Some n) (_followers (heap st !!! l)))
    as [[i v]|] eqn:Hfind.
  - apply list_find_Some in Hfind as (Hi & -> & Hfirst).
    exists true, (Tree.blanked st l n i). split.
    + apply destructFollower_found; [exact Hne| |exact Hi| |].
      * rewrite (wake_leader _ _ W). exact Hlead.
      * intros j Hlt Hj. exact (Hfirst j _ Hj Hlt eq_refl).
      * eapply (Tree.wake_listed _ _ _ W); [exact Htop|exact Hlead|].
        apply list_elem_of_lookup. eauto.
    + split; [apply blanked_wake; assumption|].
      split; [|apply blanked_unlisted; assumption].
      split; [apply blanked_shrinks; exact Hne|]. split.
      * rewrite blanked_data, decide_False by congruence. reflexivity.
      * intros l' j Hj. rewrite blanked_followers by exact Hne.
        case_decide; [subst l'|exact Hj].
        rewrite list_lookup_insert_ne; [exact Hj|]. intros ->. congruence.
  - exists false, st. split.
    + unfold _destructFollower, bind, node. rewrite Hfind. reflexivity.
    + split; [exact W|]. split; [apply calm_refl|].
      apply list_find_None in Hfind. rewrite Forall_forall in Hfind.
      intros Hin. exact (Hfind _ Hin eq_refl).
Qed.

(** A slot that holds no follower of the node holds none later. *)
Lemma slot_stays_free (st1 st' : State) (fn : ref) (i : nat) :
  Tree.wake h0 top st1 -> Tree.wake h0 top st' -> Tree.shrinks st1 st' ->
  (forall y, _followers (heap st1 !!! fn) !! i = Some (Some y) ->
             _leader (h0 !!! y) <> Some fn) ->
  forall y, _followers (heap st' !!! fn) !! i = Some (Some y) ->
            _leader (h0 !!! y) <> Some fn.
Proof.
  intros W1 W' Hshr Hfree y Hy Hlead.
  pose proof (wake_entry _ _ _ _ W' Hy) as Hbase.
  destruct (wake_slot_of _ _ _ _ W1 Hbase) as [H1|H1].
  - exact (Hfree y H1 Hlead).
  - assert (Hin : Some y ∈ _followers (heap st1 !!! fn)).
    { apply Hshr. apply list_elem_of_lookup. eauto. }
    apply list_elem_of_lookup in Hin as [j Hj].
    pose proof (wake_entry _ _ _ _ W1 Hj) as Hbase'.
    assert (i = j) as -> by (eapply Honce; eassumption).
    congruence.
Qed.

(** The loop over the slots of [fn]: every follower in a visited slot is
    destroyed, and no visited slot holds a follower afterwards. *)
Lemma visit_all (k : nat) (self fn : ref) :
  Tree.destroys h0 top ht k self ->
  Tree.above h0 fn top ->
  ht fn <= k ->
  forall idxs st,
    Tree.wake h0 top st ->
    (forall i, i ∈ idxs -> i < length (_followers (h0 !!! fn))) ->
    exists st',
      for_each idxs (Tree.visit k self fn) st = Ok tt st' /\
      Tree.wake h0 top st' /\ Tree.calm top st st' /\
      (forall i, i ∈ idxs ->
         forall y, _followers (heap st' !!! fn) !! i = Some (Some y) ->
                   _leader (h0 !!! y) <> Some fn).
Proof.
  intros IH Habove Hk. induction idxs as [|i idxs IHl]; intros st W Hrange.
  { exists st. split; [reflexivity|]. split; [exact W|]. split; [apply calm_refl|].
    intros i Hi. apply elem_of_nil in Hi. contradiction. }
  assert (Hstep : exists st1,
            Tree.visit k self fn i st = Ok tt st1 /\
            Tree.wake h0 top st1 /\ Tree.calm top st st1 /\
            forall y, _followers (heap st1 !!! fn) !! i = Some (Some y) ->
                      _leader (h0 !!! y) <> Some fn).
  { unfold Tree.visit, bind at 1, node at 1.
    assert (Hlt : i < length (_followers (heap st !!! fn))).
    { rewrite (wake_length _ _ W). apply Hrange. apply elem_of_cons. left. reflexivity. }
    apply lookup_lt_is_Some in Hlt as [v Hv]. rewrite Hv.
    destruct v as [c|].
    - unfold bind at 1, node at 1. rewrite (wake_leader _ _ W).
      destruct (bool_decide (_leader (h0 !!! c) = Some fn)) eqn:Hc.
      + apply bool_decide_eq_true_1 in Hc.
        destruct (IH c st) as (st1 & Hrun & W1 & Hshr & Hout); [| | |exact W|].
        * apply Hacyc in Hc. lia.
        * eapply Tree.above_up; eassumption.
        * intros ->. apply Hacyc in Hc. apply above_ht in Habove. lia.
        * exists st1. split; [unfold bind; rewrite Hrun; reflexivity|].
          split; [exact W1|]. split; [exact Hshr|].
          intros y Hy. exfalso.
          pose proof (wake_entry _ _ _ _ W Hv) as Hbase.
          pose proof (wake_entry _ _ _ _ W1 Hy) as Hbase'.
          assert (y = c) as -> by congruence.
          apply (Hout fn Hc). apply list_elem_of_lookup. eauto.
      + apply bool_decide_eq_false_1 in Hc.
        exists st. split; [reflexivity|]. split; [exact W|].
        split; [apply calm_refl|]. intros y Hy. congruence.
    - exists st. split; [reflexivity|]. split; [exact W|].
      split; [apply calm_refl|]. intros y Hy. congruence. }
  destruct Hstep as (st1 & Hrun1 & W1 & Hshr1 & Hfree1).
  destruct (IHl st1 W1) as (st' & Hrun & W' & Hshr & Hfree).
  { intros j Hj. apply Hrange. apply elem_of_cons. right. exact Hj. }
  exists st'. split.
  { cbn [for_each]. unfold bind at 1. rewrite Hrun1. exact Hrun. }
  split; [exact W'|]. split; [eapply calm_trans; eassumption|].
  intros j Hj. apply elem_of_cons in Hj as [->|Hj]; [|apply Hfree, Hj].
  exact (slot_stays_free st1 st' fn i W1 W' (proj1 Hshr) Hfree1).
Qed.

(** The loop of [destructDownwards] on [fn] empties [fn] of its followers. *)
Lemma followers_destroyed (k : nat) (self fn : ref) (st : State) :
  Tree.destroys h0 top ht k self ->
  Tree.above h0 fn top ->
  ht fn <= k ->
  Tree.wake h0 top st ->
  exists st',
    for_each (seq 0 (length (_followers (heap st !!! fn)))) (Tree.visit k self fn) st
    = Ok tt st' /\
    Tree.wake h0 top st' /\ Tree.calm top st st' /\
    Tree.emptied h0 (heap st') fn.
Proof.
  intros IH Habove Hk W.
  destruct (visit_all k self fn IH Habove Hk
              (seq 0 (length (_followers (heap st !!! fn)))) st W)
    as (st' & Hrun & W' & Hshr & Hfree).
  { intros i Hi. apply elem_of_seq in Hi. rewrite <- (wake_length st fn W). lia. }
  exists st'. split; [exact Hrun|]. split; [exact W'|]. split; [exact Hshr|].
  intros y Hy Hin. apply list_elem_of_lookup in Hin as [i Hi].
  apply (Hfree i) in Hi; [contradiction|].
  apply elem_of_seq. pose proof (lookup_lt_Some _ _ _ Hi) as Hlt.
  rewrite (wake_length _ _ W') in Hlt. rewrite (wake_length _ _ W). lia.
Qed.

(** With fuel above the height of the node, [destructDownwards] destroys a
    follower below [top] with all that it owns. *)
Lemma destructDownwards_destroys (self : ref) :
  forall k, Tree.destroys h0 top ht k self.
Proof.
  induction k as [|k IH]; intros n st Hk Habove Htop W; [lia|].
  change (destructDownwards (S k) self (Some n))
    with (do start <- node n;
          for_each (seq 0 (length (_followers start))) (Tree.visit k self n);;
          do cur <- node n;
          match _leader cur with
          | Some l => _destructFollower l (Some n);; ret true
          | None => ret true
          end).
  unfold bind at 1, node at 1.
  destruct (followers_destroyed k self n st IH Habove ltac:(lia) W)
    as (st1 & Hrun1 & W1 & Hshr1 & Hempty).
  unfold bind at 1. rewrite Hrun1.
  unfold bind at 1, node at 1. rewrite (wake_leader _ _ W1).
  destruct (_leader (h0 !!! n)) as [l|] eqn:Hlead.
  - destruct (destructFollower_wake st1 l n W1 Hlead Htop Habove Hempty)
      as (b & st2 & Hrun2 & W2 & Hshr2 & Hout).
    exists st2. split; [unfold bind; rewrite Hrun2; reflexivity|].
    split; [exact W2|]. split; [eapply calm_trans; eassumption|].
    intros p [= <-]. exact Hout.
  - exists st1. split; [reflexivity|]. split; [exact W1|]. split; [exact Hshr1|].
    intros p Hp. discriminate.
Qed.

(** A store that differs from the start in the payload of [top] only is in
    the wake of the destruction. *)
Lemma wake_start (st : State) :
  (forall x, _data (h0 !!! x) <> Deleted) ->
  (forall x, Tree.skeleton (heap st !!! x) = Tree.skeleton (h0 !!! x)) ->
  (forall x, _followers (heap st !!! x) = _followers (h0 !!! x)) ->
  (forall x, x <> top -> _data (heap st !!! x) = _data (h0 !!! x)) ->
  (_data (heap st !!! top) = _data (h0 !!! top) \/ _data (heap st !!! top) = Deleted) ->
  Tree.wake h0 top st.
Proof.
  intros Hbound Hskel Hfs Hdata Htop. split.
  - exact Hskel.
  - intros x i. left. rewrite Hfs. reflexivity.
  - intros x. destruct (decide (x = top)) as [->|Hx]; [|left; apply Hdata, Hx].
    destruct Htop as [H|H]; [left; exact H|right].
    split; [exact H|constructor].
  - intros x p Hx _ _. rewrite (Hdata x Hx). apply Hbound.
  - intros x p i _ Hbase Hnow. rewrite Hfs in Hnow. congruence.
Qed.

(** The first lines of [destruct]: the payload of [self] is deleted when it
    counts as true. *)
Lemma destruct_payload (st : State) (d : option Data) :
  heap st = h0 ->
  _data (h0 !!! top) = Bound d ->
  exists sta,
    when (truthy d) (del_data top) st = Ok tt sta /\
    (forall x, Tree.skeleton (heap sta !!! x) = Tree.skeleton (h0 !!! x)) /\
    (forall x, _followers (heap sta !!! x) = _followers (h0 !!! x)) /\
    (forall x, x <> top -> _data (heap sta !!! x) = _data (h0 !!! x)) /\
    _data (heap sta !!! top) = (if truthy d then Deleted else Bound d).
Proof.
  intros Hheap Hd. destruct (truthy d) eqn:Ht; cbn [when].
  - unfold del_data, bind, node, modify. rewrite Hheap, Hd.
    eexists. split; [reflexivity|]. cbn [heap].
    split; [|split; [|split]].
    + intros x. rewrite lookup_total_insert, ?Hheap. case_decide; subst; reflexivity.
    + intros x. rewrite lookup_total_insert, ?Hheap. case_decide; subst; reflexivity.
    + intros x Hx. rewrite lookup_total_insert_ne, ?Hheap by congruence. reflexivity.
    + rewrite lookup_total_insert_eq. reflexivity.
  - exists st. split; [reflexivity|]. rewrite Hheap.
    split; [reflexivity|]. split; [reflexivity|]. split; [reflexivity|exact Hd].
Qed.

(** How [destruct] ends on [top]: in the wake of the destruction, with [top]
    emptied of its followers.  It raises an [AttributeError] when [top] is
    listed by its leader and its payload counted as true, for the payload is
    deleted a second time; otherwise it returns [True]. *)
Lemma destruct_wake (fuel : nat) (st : State) (d : option Data) :
  heap st = h0 ->
  (forall x, _data (h0 !!! x) <> Deleted) ->
  _data (h0 !!! top) = Bound d ->
  ht top < fuel ->
  exists st',
    destruct fuel top st
    = (if truthy d &&
          match _leader (h0 !!! top) with
          | Some l => bool_decide (Some top ∈ _followers (h0 !!! l))
          | None => false
          end
       then Raise AttributeError st' else Ok true st') /\
    Tree.wake h0 top st' /\
    Tree.emptied h0 (heap st') top.
Proof.
  intros Hheap Hbound Hd Hfuel.
  destruct fuel as [|k]; [lia|].
  unfold destruct, read_data. unfold bind at 1 2, node at 1. rewrite Hheap, Hd.
  unfold ret at 1.
  destruct (destruct_payload st d Hheap Hd) as (sta & Hrun_a & Hskel & Hfs & Hdata & Htop).
  unfold bind at 1. rewrite Hrun_a.
  unfold bind at 1, gets at 1.
  set (stb := if isRoot (heap sta) top
              then mkState (heap sta) (handlers sta) (out sta ++ [Shutdown]) else sta).
  assert (Hrun_b : when (isRoot (heap sta) top) (emit Shutdown) sta = Ok tt stb).
  { unfold stb. destruct (isRoot (heap sta) top); reflexivity. }
  assert (Hheap_b : heap stb = heap sta).
  { unfold stb. destruct (isRoot (heap sta) top); reflexivity. }
  unfold bind at 1. rewrite Hrun_b.
  assert (Wb : Tree.wake h0 top stb).
  { apply wake_start; rewrite ?Hheap_b; try assumption.
    rewrite Htop, Hd. destruct (truthy d); [right|left]; reflexivity. }
  change (destructDownwards (S k) top (Some top))
    with (do start <- node top;
          for_each (seq 0 (length (_followers start))) (Tree.visit k top top);;
          do cur <- node top;
          match _leader cur with
          | Some l => _destructFollower l (Some top);; ret true
          | None => ret true
          end).
  unfold bind at 1, node at 1.
  destruct (followers_destroyed k top top stb (destructDownwards_destroys top k)
              (Tree.above_here h0 top) ltac:(lia) Wb)
    as (st1 & Hrun1 & W1 & (Hshr1 & Hdata1 & Hstay1) & Hempty).
  unfold bind at 1. rewrite Hrun1.
  unfold bind at 1, node at 1. rewrite (wake_leader _ _ W1).
  rewrite Hheap_b, Htop in Hdata1.
  destruct (_leader (h0 !!! top)) as [l|] eqn:Hlead.
  2:{ exists st1. rewrite andb_false_r. split; [reflexivity|]. split; assumption. }
  assert (Hne : l <> top).
  { intros ->. apply Hacyc in Hlead. lia. }
  (* [top] is listed by its leader as at the start *)
  assert (Hl : Some top ∈ _followers (heap st1 !!! l) <-> Some top ∈ _followers (h0 !!! l)).
  { split; intros Hin.
    - apply Hshr1 in Hin. rewrite Hheap_b, Hfs in Hin. exact Hin.
    - apply list_elem_of_lookup in Hin as [i Hi].
      apply list_elem_of_lookup. exists i. apply Hstay1.
      rewrite Hheap_b, Hfs. exact Hi. }
  unfold bind at 1.
  destruct (list_find (fun val => val = Some top) (_followers (heap st1 !!! l)))
    as [[i v]|] eqn:Hfind.
  - pose proof Hfind as Hfind'.
    apply list_find_Some in Hfind as (Hi & -> & Hfirst).
    assert (Hin : Some top ∈ _followers (h0 !!! l)).
    { apply Hl. apply list_elem_of_lookup. eauto. }
    rewrite (bool_decide_eq_true_2 _ Hin), andb_true_r.
    destruct (truthy d) eqn:Ht.
    + (* the payload is gone already: [del] raises *)
      exists st1. split; [|split; assumption].
      unfold _destructFollower, bind at 1, node at 1. rewrite Hfind'.
      unfold bind at 1, gets at 1.
      assert (Hcoop : isCooperator (heap st1) l top = false).
      { unfold isCooperator. rewrite (wake_leader _ _ W1).
        rewrite bool_decide_eq_true_2 by exact Hlead. reflexivity. }
      rewrite Hcoop. unfold del_data, bind, node. rewrite Hdata1. reflexivity.
    + exists (Tree.blanked st1 l top i). split; [|split].
      * rewrite (destructFollower_found st1 l top i Hne); [reflexivity| |exact Hi| |].
        -- rewrite (wake_leader _ _ W1). exact Hlead.
        -- intros j Hlt Hj. exact (Hfirst j _ Hj Hlt eq_refl).
        -- rewrite Hdata1. discriminate.
      * apply blanked_wake; try assumption. constructor.
      * intros y Hy Hin'. apply (blanked_shrinks st1 l top i Hne) in Hin'.
        exact (Hempty y Hy Hin').
  - assert (Hout : Some top ∉ _followers (h0 !!! l)).
    { intros Hin. apply Hl in Hin.
      apply list_find_None in Hfind. rewrite Forall_forall in Hfind.
      exact (Hfind _ Hin eq_refl). }
    rewrite (bool_decide_eq_false_2 _ Hout), andb_false_r.
    exists st1. split; [|split; assumption].
    unfold _destructFollower, bind, node. rewrite Hfind. reflexivity.
Qed.

(** In the wake of a destruction that emptied [top], everything [top] owned
    is destroyed: its payload is deleted and its slot is [None]. *)
Lemma wake_owned_destroyed (st' : State) :
  Tree.wake h0 top st' ->
  Tree.emptied h0 (heap st') top ->
  forall x, Tree.owned h0 top x ->
    Tree.emptied h0 (heap st') x /\
    (x <> top ->
     _data (heap st' !!! x) = Deleted /\
     forall p i, _leader (h0 !!! x) = Some p ->
                 _followers (h0 !!! p) !! i = Some (Some x) ->
                 _followers (heap st' !!! p) !! i = Some None).
Proof.
  intros W Hempty x Hx. induction Hx as [|p x _ [IHp _] Hlist Hlead].
  - split; [exact Hempty|]. intros H. congruence.
  - assert (Hblank : forall i, _followers (h0 !!! p) !! i = Some (Some x) ->
                               _followers (heap st' !!! p) !! i = Some None).
    { intros i Hi. destruct (wake_slot_of _ _ _ _ W Hi) as [H|H]; [|exact H].
      exfalso. apply (IHp x Hlead). apply list_elem_of_lookup. eauto. }
    apply list_elem_of_lookup in Hlist as [i0 Hi0].
    destruct (Tree.wake_done _ _ _ W x p i0 Hlead Hi0 (Hblank i0 Hi0)) as [Hd He].
    split; [exact He|]. intros _. split; [exact Hd|].
    intros p' i Hp' Hi. assert (p' = p) as -> by congruence. apply Hblank, Hi.
Qed.

(** An object that is not below [top] keeps its payload and its other
    attributes, and, unless it is the leader of [top], its list. *)
Lemma wake_frame (st' : State) (c : ref) :
  Tree.wake h0 top st' ->
  ~ Tree.above h0 c top ->
  _data (heap st' !!! c) = _data (h0 !!! c) /\
  Tree.skeleton (heap st' !!! c) = Tree.skeleton (h0 !!! c) /\
  (_leader (h0 !!! top) <> Some c ->
   _followers (heap st' !!! c) = _followers (h0 !!! c)).
Proof.
  intros W Hc. split; [|split].
  - destruct (Tree.wake_data _ _ _ W c) as [H|[_ H]]; [exact H|contradiction].
  - apply W.
  - intros Hlead. apply list_eq. intros i.
    destruct (Tree.wake_slot _ _ _ W c i) as [H|(_ & y & _ & Hy & Hab)]; [exact H|].
    exfalso. inversion Hab as [|? p ? Hp Hpt]; subst.
    + exact (Hlead Hy).
    + apply Hc. congruence.
Qed.

(** The list of [top] afterwards: [None] where a follower of [top] stood,
    every other slot as it was. *)
Lemma wake_top_slots (st' : State) (i : nat) :
  Tree.wake h0 top st' ->
  Tree.emptied h0 (heap st') top ->
  _followers (heap st' !!! top) !! i
  = match _followers (h0 !!! top) !! i with
    | Some (Some y) =>
        if decide (_leader (h0 !!! y) = Some top) then Some None else Some (Some y)
    | o => o
    end.
Proof.
  intros W Hempty.
  destruct (Tree.wake_slot _ _ _ W top i) as [H|(H & y & Hy & Hlead & _)].
  - rewrite H. destruct (_followers (h0 !!! top) !! i) as [[y|]|] eqn:Hbase; try reflexivity.
    case_decide as Hlead; [|reflexivity].
    exfalso. apply (Hempty y Hlead). apply list_elem_of_lookup. exists i. congruence.
  - rewrite H, Hy. rewrite decide_True by exact Hlead. reflexivity.
Qed.


End Destruction.

Lemma node_parts (n m : Node) :
  Tree.skeleton n = Tree.skeleton m -> _data n = _data m ->
  _followers n = _followers m -> n = m.
Proof.
  destruct n, m. unfold Tree.skeleton. cbn. intros [= -> -> -> -> -> -> -> -> -> ->] -> ->.
  reflexivity.
Qed.

(** [destruct] on a node of a tree destroys what the node owns: with fuel
    above the height of the node the run ends, and every follower in the
    subtree of the true followers has lost its payload and has [None] in its
    place in the list of its leader. *)
Theorem destruct_destroys_owned
    (st : State) (L : ref) (ht : ref -> nat) (fuel : nat) :
  Tree.owned_acyclic (heap st) ht ->
  Tree.listed_once (heap st) ->
  (forall x, _data (heap st !!! x) <> Deleted) ->
  ht L < fuel ->
  exists st',
    final (destruct fuel L st) = Some st' /\
    forall x, Tree.owned (heap st) L x -> x <> L ->
      _data (heap st' !!! x) = Deleted /\
      forall p i, _leader (heap st !!! x) = Some p ->
                  _followers (heap st !!! p) !! i = Some (Some x) ->
                  _followers (heap st' !!! p) !! i = Some None.
Proof.
  intros Hacyc Honce Hbound Hfuel.
  destruct (_data (heap st !!! L)) as [|d] eqn:Hd; [exfalso; exact (Hbound L Hd)|].
  destruct (destruct_wake (heap st) L ht Hacyc Honce fuel st d eq_refl Hbound Hd Hfuel)
    as (st' & Hrun & W & Hempty).
  exists st'. split.
  - rewrite Hrun. destruct (_ && _); reflexivity.
  - intros x Hx Hne.
    exact (proj2 (wake_owned_destroyed (heap st) L st' W Hempty x Hx) Hne).
Qed.

(** [destruct] spares what the node does not own: an object that is not
    below the node up the leader links keeps its payload and attributes,
    and, unless it is the leader of the node, is unchanged; every list keeps
    its length; in the list of the node the slots of its followers are
    [None] and every other slot is as it was. *)
Theorem destruct_spares_the_rest
    (st : State) (L : ref) (ht : ref -> nat) (fuel : nat) :
  Tree.owned_acyclic (heap st) ht ->
  Tree.listed_once (heap st) ->
  (forall x, _data (heap st !!! x) <> Deleted) ->
  ht L < fuel ->
  exists st',
    final (destruct fuel L st) = Some st' /\
    (forall c, ~ Tree.above (heap st) c L ->
       _data (heap st' !!! c) = _data (heap st !!! c) /\
       _leader (heap st' !!! c) = _leader (heap st !!! c) /\
       (_leader (heap st !!! L) <> Some c -> heap st' !!! c = heap st !!! c)) /\
    (forall x, length (_followers (heap st' !!! x)) = length (_followers (heap st !!! x))) /\
    (forall i,
       _followers (heap st' !!! L) !! i
       = match _followers (heap st !!! L) !! i with
         | Some (Some y) =>
             if decide (_leader (heap st !!! y) = Some L) then Some None
             else Some (Some y)
         | o => o
         end).
Proof.
  intros Hacyc Honce Hbound Hfuel.
  destruct (_data (heap st !!! L)) as [|d] eqn:Hd; [exfalso; exact (Hbound L Hd)|].
  destruct (destruct_wake (heap st) L ht Hacyc Honce fuel st d eq_refl Hbound Hd Hfuel)
    as (st' & Hrun & W & Hempty).
  exists st'. split; [rewrite Hrun; destruct (_ && _); reflexivity|].
  split; [|split].
  - intros c Hc. destruct (wake_frame (heap st) L st' c W Hc) as (Hdata & Hskel & Hfs).
    split; [exact Hdata|]. split; [apply (wake_leader (heap st) L st' c W)|].
    intros Hlead. apply node_parts; auto.
  - intros x. apply (wake_length (heap st) L st' x W).
  - intros i. apply wake_top_slots; assumption.
Qed.

(** How [destruct] ends: on a node that its leader lists and whose payload
    counts as true it raises an [AttributeError], after the followers are
    destroyed, because the payload deleted at the start is deleted again in
    [_destructFollower]; on every other node of a tree it returns [True]. *)
Theorem destruct_raises_on_a_listed_payload
    (st : State) (L : ref) (ht : ref -> nat) (fuel : nat) (d : option Data) :
  Tree.owned_acyclic (heap st) ht ->
  Tree.listed_once (heap st) ->
  (forall x, _data (heap st !!! x) <> Deleted) ->
  _data (heap st !!! L) = Bound d ->
  ht L < fuel ->
  exists st',
    destruct fuel L st
    = if truthy d &&
         match _leader (heap st !!! L) with
         | Some l => bool_decide (Some L ∈ _followers (heap st !!! l))
         | None => false
         end
      then Raise AttributeError st' else Ok true st'.
Proof.
  intros Hacyc Honce Hbound Hd Hfuel.
  destruct (destruct_wake (heap st) L ht Hacyc Honce fuel st d eq_refl Hbound Hd Hfuel)
    as (st' & Hrun & _).
  exists st'. exact Hrun.
Qed.

(** ** The sample tree under destruction *)

Lemma sample_shape_tree : Sample.shaped_like_tree (heap Sample.tree).
Proof. intros x. rewrite sample_tree_nodes. split; reflexivity. Qed.

Lemma sample_loaded_nodes (x : ref) :
  heap Sample.loaded !!! x
  = if decide (x = Sample.F)
    then with_data (Bound (Some [1%Z])) (Sample.tree_node x)
    else Sample.tree_node x.
Proof.
  assert (Hheap : heap Sample.loaded
                  = <[Sample.F := with_data (Bound (Some [1%Z])) (Sample.tree_node Sample.F)]>
                      (heap Sample.tree)).
  { vm_compute. reflexivity. }
  rewrite Hheap, lookup_total_insert.
  destruct (decide (Sample.F = x)) as [<-|Hne].
  - rewrite decide_True by reflexivity. reflexivity.
  - rewrite decide_False by congruence. apply sample_tree_nodes.
Qed.

Lemma sample_shape_loaded : Sample.shaped_like_tree (heap Sample.loaded).
Proof.
  intros x. rewrite sample_loaded_nodes. case_decide; subst; split; reflexivity.
Qed.

Lemma sample_shape_owned (h : gmap nat Node) :
  Sample.shaped_like_tree h -> Tree.owned_acyclic h Sample.tree_height.
Proof.
  intros Hshape x p. rewrite (proj1 (Hshape x)).
  do 6 (destruct x as [|x]; [cbn; intros [= <-] || discriminate; cbn; lia|]).
  discriminate.
Qed.

Lemma sample_shape_once (h : gmap nat Node) :
  Sample.shaped_like_tree h -> Tree.listed_once h.
Proof.
  intros Hshape p i j y. rewrite (proj2 (Hshape p)).
  apply NoDup_lookup.
  do 6 (destruct p as [|p];
        [cbn; repeat (constructor; [set_solver|]); constructor|]).
  cbn. constructor.
Qed.

Lemma sample_tree_bound (x : ref) : _data (heap Sample.tree !!! x) <> Deleted.
Proof.
  rewrite sample_tree_nodes.
  do 6 (destruct x as [|x]; [discriminate|]). discriminate.
Qed.

Lemma sample_loaded_bound (x : ref) : _data (heap Sample.loaded !!! x) <> Deleted.
Proof.
  rewrite sample_loaded_nodes. case_decide; [discriminate|].
  do 6 (destruct x as [|x]; [discriminate|]). discriminate.
Qed.

(** The theorem on the sample tree: [L.destruct()]. *)
Lemma destruct_destroys_owned_witness :
  Tree.owned_acyclic (heap Sample.tree) Sample.tree_height /\
  Tree.listed_once (heap Sample.tree) /\
  (forall x, _data (heap Sample.tree !!! x) <> Deleted) /\
  Sample.tree_height Sample.L < 3 /\
  exists st',
    final (destruct 3 Sample.L Sample.tree) = Some st' /\
    forall x, Tree.owned (heap Sample.tree) Sample.L x -> x <> Sample.L ->
      _data (heap st' !!! x) = Deleted /\
      forall p i, _leader (heap Sample.tree !!! x) = Some p ->
                  _followers (heap Sample.tree !!! p) !! i = Some (Some x) ->
                  _followers (heap st' !!! p) !! i = Some None.
Proof.
  pose proof (sample_shape_owned _ sample_shape_tree) as H1.
  pose proof (sample_shape_once _ sample_shape_tree) as H2.
  assert (H4 : Sample.tree_height Sample.L < 3) by (cbn; lia).
  split; [exact H1|]. split; [exact H2|]. split; [exact sample_tree_bound|].
  split; [exact H4|].
  exact (destruct_destroys_owned Sample.tree Sample.L Sample.tree_height 3
           H1 H2 sample_tree_bound H4).
Defined.

Lemma destruct_spares_the_rest_witness :
  Tree.owned_acyclic (heap Sample.tree) Sample.tree_height /\
  Tree.listed_once (heap Sample.tree) /\
  (forall x, _data (heap Sample.tree !!! x) <> Deleted) /\
  Sample.tree_height Sample.L < 3 /\
  exists st',
    final (destruct 3 Sample.L Sample.tree) = Some st' /\
    (forall c, ~ Tree.above (heap Sample.tree) c Sample.L ->
       _data (heap st' !!! c) = _data (heap Sample.tree !!! c) /\
       _leader (heap st' !!! c) = _leader (heap Sample.tree !!! c) /\
       (_leader (heap Sample.tree !!! Sample.L) <> Some c ->
        heap st' !!! c = heap Sample.tree !!! c)) /\
    (forall x, length (_followers (heap st' !!! x))
               = length (_followers (heap Sample.tree !!! x))) /\
    (forall i,
       _followers (heap st' !!! Sample.L) !! i
       = match _followers (heap Sample.tree !!! Sample.L) !! i with
         | Some (Some y) =>
             if decide (_leader (heap Sample.tree !!! y) = Some Sample.L) then Some None
             else Some (Some y)
         | o => o
         end).
Proof.
  pose proof (sample_shape_owned _ sample_shape_tree) as H1.
  pose proof (sample_shape_once _ sample_shape_tree) as H2.
  assert (H4 : Sample.tree_height Sample.L < 3) by (cbn; lia).
  split; [exact H1|]. split; [exact H2|]. split; [exact sample_tree_bound|].
  split; [exact H4|].
  exact (destruct_spares_the_rest Sample.tree Sample.L Sample.tree_height 3
           H1 H2 sample_tree_bound H4).
Defined.

(** [F.destruct()] when [F], a follower of [L], holds the payload [[1]]:
    an [AttributeError]. *)
Lemma destruct_raises_on_a_listed_payload_witness :
  Tree.owned_acyclic (heap Sample.loaded) Sample.tree_height /\
  Tree.listed_once (heap Sample.loaded) /\
  (forall x, _data (heap Sample.loaded !!! x) <> Deleted) /\
  _data (heap Sample.loaded !!! Sample.F) = Bound (Some [1%Z]) /\
  Sample.tree_height Sample.F < 2 /\
  exists st', destruct 2 Sample.F Sample.loaded = Raise AttributeError st'.
Proof.
  pose proof (sample_shape_owned _ sample_shape_loaded) as H1.
  pose proof (sample_shape_once _ sample_shape_loaded) as H2.
  assert (H3 : _data (heap Sample.loaded !!! Sample.F) = Bound (Some [1%Z])).
  { rewrite sample_loaded_nodes. reflexivity. }
  assert (H4 : Sample.tree_height Sample.F < 2) by (cbn; lia).
  split; [exact H1|]. split; [exact H2|]. split; [exact sample_loaded_bound|].
  split; [exact H3|]. split; [exact H4|].
  destruct (destruct_raises_on_a_listed_payload Sample.loaded Sample.F Sample.tree_height
              2 (Some [1%Z]) H1 H2 sample_loaded_bound H3 H4) as [st' Hrun].
  exists st'. rewrite Hrun.
  assert (Hl : _leader (heap Sample.loaded !!! Sample.F) = Some Sample.L).
  { rewrite sample_loaded_nodes. reflexivity. }
  assert (Hf : _followers (heap Sample.loaded !!! Sample.L) = [Some Sample.F; Some Sample.C]).
  { rewrite sample_loaded_nodes. reflexivity. }
  rewrite Hl, Hf. reflexivity.
Defined.

(** ** Cooperators under destruction *)

Lemma owned_height (h : gmap nat Node) (ht : ref -> nat) (top x : ref) :
  Tree.owned_acyclic h ht -> Tree.owned h top x -> ht x <= ht top.
Proof.
  intros Hacyc Hx. induction Hx as [|p x _ IH _ Hlead]; [lia|].
  pose proof (Hacyc x p Hlead). lia.
Qed.

Lemma owned_trans (h : gmap nat Node) (top f x : ref) :
  Tree.owned h top f -> Tree.owned h f x -> Tree.owned h top x.
Proof.
  intros Hf Hx. induction Hx as [|p x _ IH Hlist Hlead]; [exact Hf|].
  exact (Tree.owned_below h top p x IH Hlist Hlead).
Qed.

(** C7.  [destruct] on a leader [L] of a tree, with a follower [F] in slot
    [i] of its list and an object [C] in slot [j] that is not below [L] up
    the leader links: the run ends; [F] and every follower in the subtree
    of the true followers of [F] have lost [_data], and each has [None] in
    its place in the list of its leader, so slot [i] of [L] is [None]; [C]
    keeps its [_data] and its leader, is unchanged altogether unless it is
    the leader of [L], and still stands in slot [j]; the list of [L] keeps
    its length, with [None] where a follower of [L] stood and every other
    slot as it was. *)
Theorem destruct_spares_cooperators_outside
    (st : State) (L F C : ref) (ht : ref -> nat) (fuel : nat) (i j : nat) :
  Tree.owned_acyclic (heap st) ht ->
  Tree.listed_once (heap st) ->
  (forall x, _data (heap st !!! x) <> Deleted) ->
  ht L < fuel ->
  _leader (heap st !!! F) = Some L ->
  _followers (heap st !!! L) !! i = Some (Some F) ->
  _followers (heap st !!! L) !! j = Some (Some C) ->
  ~ Tree.above (heap st) C L ->
  exists st',
    final (destruct fuel L st) = Some st' /\
    (forall x, Tree.owned (heap st) F x ->
       _data (heap st' !!! x) = Deleted /\
       forall p k, _leader (heap st !!! x) = Some p ->
                   _followers (heap st !!! p) !! k = Some (Some x) ->
                   _followers (heap st' !!! p) !! k = Some None) /\
    _followers (heap st' !!! L) !! i = Some None /\
    _data (heap st' !!! C) = _data (heap st !!! C) /\
    _leader (heap st' !!! C) = _leader (heap st !!! C) /\
    (_leader (heap st !!! L) <> Some C -> heap st' !!! C = heap st !!! C) /\
    _followers (heap st' !!! L) !! j = Some (Some C) /\
    length (_followers (heap st' !!! L)) = length (_followers (heap st !!! L)) /\
    (forall k,
       _followers (heap st' !!! L) !! k
       = match _followers (heap st !!! L) !! k with
         | Some (Some y) =>
             if decide (_leader (heap st !!! y) = Some L) then Some None
             else Some (Some y)
         | o => o
         end).
Proof.
  intros Hacyc Honce Hbound Hfuel HF Hi Hj HC.
  destruct (_data (heap st !!! L)) as [|d] eqn:Hd; [exfalso; exact (Hbound L Hd)|].
  destruct (destruct_wake (heap st) L ht Hacyc Honce fuel st d eq_refl Hbound Hd Hfuel)
    as (st' & Hrun & W & Hempty).
  pose proof (wake_top_slots (heap st) L st') as Hslots.
  exists st'. split; [rewrite Hrun; destruct (_ && _); reflexivity|].
  assert (HownF : Tree.owned (heap st) L F).
  { refine (Tree.owned_below _ _ L F (Tree.owned_top _ _) _ HF).
    apply list_elem_of_lookup. exists i. exact Hi. }
  split; [|split; [|split; [|split; [|split; [|split; [|split]]]]]].
  - intros x Hx.
    assert (Hne : x <> L).
    { intros ->. pose proof (owned_height _ ht F L Hacyc Hx).
      pose proof (Hacyc F L HF). lia. }
    exact (proj2 (wake_owned_destroyed (heap st) L st' W Hempty x
                    (owned_trans _ L F x HownF Hx)) Hne).
  - rewrite (Hslots i W Hempty), Hi. rewrite decide_True by exact HF. reflexivity.
  - exact (proj1 (wake_frame (heap st) L st' C W HC)).
  - apply (wake_leader (heap st) L st' C W).
  - intros Hlead. destruct (wake_frame (heap st) L st' C W HC) as (Hdata & Hskel & Hfs).
    apply node_parts; auto.
  - rewrite (Hslots j W Hempty), Hj. rewrite decide_False; [reflexivity|].
    intros Hlead. apply HC. exact (Tree.above_up _ C L L Hlead (Tree.above_here _ L)).
  - apply (wake_length (heap st) L st' L W).
  - intros k. apply Hslots; assumption.
Qed.

(** The theorem on the sample tree: [L] with its follower [F] and the
    cooperator [C], a follower of [L2]. *)
Lemma destruct_spares_cooperators_witness :
  Tree.owned_acyclic (heap Sample.tree) Sample.tree_height /\
  Tree.listed_once (heap Sample.tree) /\
  (forall x, _data (heap Sample.tree !!! x) <> Deleted) /\
  Sample.tree_height Sample.L < 3 /\
  _leader (heap Sample.tree !!! Sample.F) = Some Sample.L /\
  _followers (heap Sample.tree !!! Sample.L) !! 0 = Some (Some Sample.F) /\
  _followers (heap Sample.tree !!! Sample.L) !! 1 = Some (Some Sample.C) /\
  ~ Tree.above (heap Sample.tree) Sample.C Sample.L /\
  exists st',
    final (destruct 3 Sample.L Sample.tree) = Some st' /\
    (forall x, Tree.owned (heap Sample.tree) Sample.F x ->
       _data (heap st' !!! x) = Deleted /\
       forall p k, _leader (heap Sample.tree !!! x) = Some p ->
                   _followers (heap Sample.tree !!! p) !! k = Some (Some x) ->
                   _followers (heap st' !!! p) !! k = Some None) /\
    _followers (heap st' !!! Sample.L) !! 0 = Some None /\
    _data (heap st' !!! Sample.C) = _data (heap Sample.tree !!! Sample.C) /\
    _leader (heap st' !!! Sample.C) = _leader (heap Sample.tree !!! Sample.C) /\
    (_leader (heap Sample.tree !!! Sample.L) <> Some Sample.C ->
     heap st' !!! Sample.C = heap Sample.tree !!! Sample.C) /\
    _followers (heap st' !!! Sample.L) !! 1 = Some (Some Sample.C) /\
    length (_followers (heap st' !!! Sample.L))
    = length (_followers (heap Sample.tree !!! Sample.L)) /\
    (forall k,
       _followers (heap st' !!! Sample.L) !! k
       = match _followers (heap Sample.tree !!! Sample.L) !! k with
         | Some (Some y) =>
             if decide (_leader (heap Sample.tree !!! y) = Some Sample.L) then Some None
             else Some (Some y)
         | o => o
         end).
Proof.
  pose proof (sample_shape_owned _ sample_shape_tree) as H1.
  pose proof (sample_shape_once _ sample_shape_tree) as H2.
  assert (H4 : Sample.tree_height Sample.L < 3) by (cbn; lia).
  assert (H5 : _leader (heap Sample.tree !!! Sample.F) = Some Sample.L)
    by (rewrite sample_tree_nodes; reflexivity).
  assert (H6 : _followers (heap Sample.tree !!! Sample.L) !! 0 = Some (Some Sample.F))
    by (rewrite sample_tree_nodes; reflexivity).
  assert (H7 : _followers (heap Sample.tree !!! Sample.L) !! 1 = Some (Some Sample.C))
    by (rewrite sample_tree_nodes; reflexivity).
  assert (H8 : ~ Tree.above (heap Sample.tree) Sample.C Sample.L).
  { intros H. inversion H as [|x p m Hl Hup]; subst.
    rewrite sample_tree_nodes in Hl. injection Hl as <-.
    inversion Hup as [|x p m Hl2 _]; subst.
    rewrite sample_tree_nodes in Hl2. discriminate. }
  split; [exact H1|]. split; [exact H2|]. split; [exact sample_tree_bound|].
  split; [exact H4|]. split; [exact H5|]. split; [exact H6|]. split; [exact H7|].
  split; [exact H8|].
  exact (destruct_spares_cooperators_outside Sample.tree Sample.L Sample.F Sample.C
           Sample.tree_height 3 0 1 H1 H2 sample_tree_bound H4 H5 H6 H7 H8).
Defined.

(** A cooperator below the leader is destroyed.  [L] lists [C] as a
    cooperator, and the leader of [C] is [F], a follower of [L]:
    [L.destruct()] returns [True] with the [_data] of [C] deleted and [None]
    in the place of [C] in the list of [F], while [L] still lists [C]. *)
Lemma cooperator_below_is_destroyed :
  isCooperator (heap Sample.shared) Sample.L Sample.C = true /\
  _leader (heap Sample.shared !!! Sample.C) = Some Sample.F /\
  _leader (heap Sample.shared !!! Sample.F) = Some Sample.L /\
  _followers (heap Sample.shared !!! Sample.L) = [Some Sample.F; Some Sample.C] /\
  _followers (heap Sample.shared !!! Sample.F) = [Some Sample.C] /\
  _data (heap Sample.shared !!! Sample.C) = Bound None /\
  exists st',
    destruct 3 Sample.L Sample.shared = Ok true st' /\
    _data (heap st' !!! Sample.C) = Deleted /\
    _followers (heap st' !!! Sample.F) = [None] /\
    _followers (heap st' !!! Sample.L) = [None; Some Sample.C].
Proof.
  split; [vm_compute; reflexivity|]. split; [vm_compute; reflexivity|].
  split; [vm_compute; reflexivity|]. split; [vm_compute; reflexivity|].
  split; [vm_compute; reflexivity|]. split; [vm_compute; reflexivity|].
  eexists. split; [vm_compute; reflexivity|].
  split; [vm_compute; reflexivity|]. split; vm_compute; reflexivity.
Qed.

(** ** Lists built by attaching *)

Lemma tidy_append (fs : list (option ref)) (other : ref) :
  NoDup fs /\ None ∉ fs ->
  NoDup (if decide (Some other ∈ fs) then fs else fs ++ [Some other]) /\
  None ∉ (if decide (Some other ∈ fs) then fs else fs ++ [Some other]).
Proof.
  intros [Hnd Hnone]. case_decide as Hin; [split; assumption|]. split.
  - apply NoDup_app. split; [exact Hnd|]. split; [|apply NoDup_singleton].
    intros x Hx Hx'. apply list_elem_of_singleton in Hx'. subst. contradiction.
  - intros H. apply elem_of_app in H as [H|H]; [contradiction|].
    apply list_elem_of_singleton in H. discriminate.
Qed.

Lemma attach_tidy (self other : ref) (st : State) :
  Tree.tidy (heap st) ->
  exists st', attach self other st = Ok tt st' /\ Tree.tidy (heap st').
Proof.
  intros Ht. destruct (attach_spec self other st) as (st' & Hrun & _ & _ & _ & Hf & _).
  exists st'. split; [exact Hrun|]. intros x. rewrite Hf.
  destruct (decide (x = self)); [apply tidy_append|]; apply Ht.
Qed.

Lemma join_tidy (self other : ref) (st : State) :
  Tree.tidy (heap st) ->
  exists st', join self other st = Ok tt st' /\ Tree.tidy (heap st').
Proof.
  intros Ht. destruct (join_spec self other st) as (st' & Hrun & _ & _ & _ & Hf & _).
  exists st'. split; [exact Hrun|]. intros x. rewrite Hf.
  destruct (decide (x = self)); [apply tidy_append|]; apply Ht.
Qed.

Lemma run_tidy (o : Tree.op) (st : State) :
  Tree.tidy (heap st) ->
  exists st', Tree.run o st = Ok tt st' /\ Tree.tidy (heap st').
Proof.
  intros Hint. destruct o as [l f|l fs|l c|l cs|n [l|]]; cbn [Tree.run].
  - destruct (attach_tidy l f st Hint) as (st' & Hrun & Hst').
    exists st'. split; [|assumption].
    unfold setFollower, bind. rewrite Hrun. reflexivity.
  - destruct (for_each_invariant (fun s => Tree.tidy (heap s)) (attach l) fs
                (attach_tidy l) st Hint) as (st' & Hrun & Hst').
    exists st'. split; [|assumption].
    unfold setFollower_list, bind. rewrite Hrun. reflexivity.
  - destruct (join_tidy l c st Hint) as (st' & Hrun & Hst').
    exists st'. split; [|assumption].
    unfold setCooperator, bind. rewrite Hrun. reflexivity.
  - destruct (for_each_invariant (fun s => Tree.tidy (heap s)) (join l) cs
                (join_tidy l) st Hint) as (st' & Hrun & Hst').
    exists st'. split; [|assumption].
    unfold setCooperator_list, bind. rewrite Hrun. reflexivity.
  - destruct (attach_tidy l n st Hint) as (st' & Hrun & Hst').
    exists st'. split; [|assumption].
    unfold set_leader, setFollower, bind. rewrite Hrun. reflexivity.
  - exists st. split; [reflexivity|assumption].
Qed.

(** Whatever [setFollower], [setCooperator] and the [leader] setter are
    called with, starting from unconnected objects, no list gets a hole and
    no list holds an object twice; so each listed object has one index. *)
Theorem attached_lists_are_tidy (st : State) :
  Tree.reachable st ->
  Tree.tidy (heap st) /\ Tree.listed_once (heap st).
Proof.
  intros Hreach.
  assert (Ht : Tree.tidy (heap st)).
  { induction Hreach as [st Hinit|st o st' _ IH Hrun].
    - intros x. destruct (Hinit x) as [_ ->]. split; [constructor|].
      intros H. apply elem_of_nil in H. contradiction.
    - destruct (run_tidy o st IH) as (st'' & Hrun' & Hst'').
      rewrite Hrun in Hrun'. injection Hrun' as <-. exact Hst''. }
  split; [exact Ht|].
  intros p i j y Hi Hj. eapply NoDup_lookup; [apply Ht|exact Hi|exact Hj].
Qed.

Lemma attached_lists_are_tidy_witness :
  Tree.reachable Sample.tree /\
  Tree.tidy (heap Sample.tree) /\ Tree.listed_once (heap Sample.tree).
Proof.
  split; [exact sample_tree_reachable|].
  exact (attached_lists_are_tidy Sample.tree sample_tree_reachable).
Defined.

(** Writing at a key the value the store holds there changes nothing. *)
Lemma modify_same (n : ref) (f : Node -> Node) (st : State) :
  is_Some (heap st !! n) -> f (heap st !!! n) = heap st !!! n ->
  modify n f st = Ok tt st.
Proof.
  intros [v Hv] Hf. unfold modify. rewrite Hf.
  rewrite insert_id; [destruct st; reflexivity|].
  rewrite lookup_total_alt, Hv. reflexivity.
Qed.

(** Attaching is idempotent: a second [setFollower] with the same object, or
    a second [setCooperator], leaves the store as the first one left it. *)
Theorem attaching_twice_is_attaching_once (st : State) (L X : ref) :
  (setFollower L X;; setFollower L X) st = setFollower L X st /\
  (setCooperator L X;; setCooperator L X) st = setCooperator L X st.
Proof.
  split.
  - destruct (attach_spec L X st) as (st' & Hrun & _ & _ & Hl & Hf & _).
    assert (Hsome : is_Some (heap st' !! X)).
    { revert Hrun. unfold attach, bind, modify, node, when, ret. cbn [heap].
      destruct (negb _); intros [= <-]; cbn [heap].
      - destruct (decide (L = X)) as [->|Hne].
        + rewrite lookup_insert_eq. eauto.
        + rewrite lookup_insert_ne, lookup_insert_eq by exact Hne. eauto.
      - rewrite lookup_insert_eq. eauto. }
    assert (Hagain : attach L X st' = Ok tt st').
    { unfold attach, bind at 1.
      rewrite modify_same; [|exact Hsome|].
      - unfold bind, node, when.
        rewrite bool_decide_eq_true_2; [reflexivity|].
        rewrite Hf, decide_True by reflexivity. apply listed_or_appended.
      - pose proof (Hl X) as HX. rewrite decide_True in HX by reflexivity.
        destruct (heap st' !!! X). cbn in *. subst. reflexivity. }
    unfold setFollower, bind, ret. rewrite Hrun. cbv beta iota. rewrite Hagain.
    reflexivity.
  - destruct (join_spec L X st) as (st' & Hrun & _ & _ & _ & Hf & _).
    assert (Hagain : join L X st' = Ok tt st').
    { unfold join, bind, node, when.
      rewrite bool_decide_eq_true_2; [reflexivity|].
      rewrite Hf, decide_True by reflexivity. apply listed_or_appended. }
    unfold setCooperator, bind, ret. rewrite Hrun. cbv beta iota. rewrite Hagain.
    reflexivity.
Qed.

(** ** The phases over a tree *)

Lemma task_keeps (I : State -> Prop) (E : Env) :
  on_heap I ->
  (forall n, keeps I (modify n (with_taskDone true))) ->
  forall fuel self, keeps I (task E fuel self).
Proof.
  intros HI Hmod fuel. induction fuel as [|k IH]; intros self; cbn [task].
  { apply keeps_diverge. }
  apply keeps_bind; [apply keeps_emit, HI|intros _].
  apply keeps_bind.
  { apply keeps_over_followers; [exact HI|]. intros x.
    apply keeps_bind; [apply IH|intros _; apply keeps_ret]. }
  intros _. apply keeps_bind; [apply keeps_phase_line, HI|intros _].
  apply keeps_bind; [apply Hmod|intros _; apply keeps_ret].
Qed.

Lemma pre_keeps (I : State -> Prop) (E : Env) :
  on_heap I ->
  (forall n, keeps I (modify n (with_preDone true))) ->
  forall fuel self, keeps I (pre E fuel self).
Proof.
  intros HI Hmod fuel. induction fuel as [|k IH]; intros self; cbn [pre].
  { apply keeps_diverge. }
  apply keeps_bind; [apply keeps_emit, HI|intros _].
  apply keeps_bind.
  { apply keeps_over_followers; [exact HI|]. intros x.
    apply keeps_bind; [apply IH|intros _; apply keeps_ret]. }
  intros _. apply keeps_bind; [apply keeps_phase_line, HI|intros _].
  apply keeps_bind; [apply keeps_read_data|intros d].
  apply keeps_bind.
  { destruct d; [apply keeps_ret|].
    apply keeps_bind; [apply keeps_emit, HI|intros _; apply keeps_ret]. }
  intros ok. apply keeps_bind; [apply Hmod|intros _; apply keeps_ret].
Qed.

Lemma post_keeps (I : State -> Prop) (E : Env) :
  on_heap I ->
  (forall n, keeps I (modify n (with_postDone true))) ->
  forall fuel self, keeps I (post E fuel self).
Proof.
  intros HI Hmod fuel. induction fuel as [|k IH]; intros self; cbn [post].
  { apply keeps_diverge. }
  apply keeps_bind; [apply keeps_emit, HI|intros _].
  apply keeps_bind.
  { apply keeps_over_followers; [exact HI|]. intros x.
    apply keeps_bind; [apply IH|intros _; apply keeps_ret]. }
  intros _. apply keeps_bind; [apply keeps_phase_line, HI|intros _].
  apply keeps_bind; [apply keeps_read_data|intros d].
  apply keeps_bind.
  { destruct d; [apply keeps_ret|].
    apply keeps_bind; [apply keeps_emit, HI|intros _; apply keeps_ret]. }
  intros ok. apply keeps_bind; [apply Hmod|intros _; apply keeps_ret].
Qed.

(** What a run of [c] that returns tells about an invariant it keeps. *)
Lemma keeps_Ok {A} (I : State -> Prop) (c : M A) (st st' : State) (a : A) :
  keeps I c -> I st -> c st = Ok a st' -> I st'.
Proof. intros Hk Hst Hrun. specialize (Hk st Hst). rewrite Hrun in Hk. exact Hk. Qed.

(** ** What was entered *)

Lemma entered_on_heap (n : nat) (e : event) : on_heap (entered n e).
Proof.
  intros st st' _ [evs Hout] H. unfold entered in *. rewrite Hout, skipn_app.
  apply elem_of_app. left. exact H.
Qed.

Lemma longer_on_heap (n : nat) : on_heap (longer n).
Proof.
  intros st st' _ [evs Hout] H. unfold longer in *. rewrite Hout, length_app. lia.
Qed.

Lemma entered_modify (n : nat) (e : event) (x : ref) (f : Node -> Node) :
  keeps (entered n e) (modify x f).
Proof. apply keeps_modify. intros st H. exact H. Qed.

Lemma longer_modify (n : nat) (x : ref) (f : Node -> Node) :
  keeps (longer n) (modify x f).
Proof. apply keeps_modify. intros st H. exact H. Qed.

Lemma entered_emit (n : nat) (e : event) (st : State) :
  longer n st -> entered n e (mkState (heap st) (handlers st) (out st ++ [e])).
Proof.
  unfold longer, entered. intros H. cbn [out]. rewrite skipn_app.
  apply elem_of_app. right.
  replace (n - length (out st)) with 0 by lia. apply list_elem_of_singleton. reflexivity.
Qed.

(** What holds once [pre] has recorded its entry holds when it ends. *)
Lemma pre_from_entry (I : State -> Prop) (E : Env) (fuel : nat) (self : ref) (st : State) :
  on_heap I ->
  (forall n, keeps I (modify n (with_preDone true))) ->
  I (mkState (heap st) (handlers st) (out st ++ [Enter self m_pre])) ->
  match final (pre E fuel self st) with
  | Some st' => I st'
  | None => True
  end.
Proof.
  intros HI Hmod H. destruct fuel as [|k]; [exact Logic.I|].
  cbn [pre]. unfold bind at 1, emit at 1. cbv beta iota.
  revert H. generalize (mkState (heap st) (handlers st) (out st ++ [Enter self m_pre])).
  apply keeps_bind.
  { apply keeps_over_followers; [exact HI|]. intros x.
    apply keeps_bind; [apply pre_keeps; assumption|intros _; apply keeps_ret]. }
  intros _. apply keeps_bind; [apply keeps_phase_line, HI|intros _].
  apply keeps_bind; [apply keeps_read_data|intros d].
  apply keeps_bind.
  { destruct d; [apply keeps_ret|].
    apply keeps_bind; [apply keeps_emit, HI|intros _; apply keeps_ret]. }
  intros ok. apply keeps_bind; [apply Hmod|intros _; apply keeps_ret].
Qed.

(** A loop whose body records an event for the items that call for it has
    recorded the event of each such item when it returns. *)
Lemma for_each_entered (A : Type) (body : A -> M unit) (e : A -> event)
    (J : State -> Prop) (P : A -> Prop) (N : nat) :
  (forall z, keeps J (body z)) ->
  (forall z, keeps (longer N) (body z)) ->
  (forall z e', keeps (entered N e') (body z)) ->
  (forall z s s', J s -> longer N s -> P z -> body z s = Ok tt s' ->
     entered N (e z) s') ->
  forall l s s', J s -> longer N s -> for_each l body s = Ok tt s' ->
    forall z, z ∈ l -> P z -> entered N (e z) s'.
Proof.
  intros HJ Hlong Hkeep Hbody l.
  induction l as [|y l IH]; intros s s' Hj Hs Hrun z Hz Hp.
  { apply elem_of_nil in Hz. contradiction. }
  cbn [for_each] in Hrun.
  apply bind_Ok_inv in Hrun as ([] & s1 & Hy & Hrest).
  assert (Hs1 : longer N s1) by exact (keeps_Ok _ _ s s1 tt (Hlong y) Hs Hy).
  assert (Hj1 : J s1) by exact (keeps_Ok _ _ s s1 tt (HJ y) Hj Hy).
  apply elem_of_cons in Hz as [->|Hz]; [|exact (IH s1 s' Hj1 Hs1 Hrest z Hz Hp)].
  refine (keeps_Ok _ _ s1 s' tt _ (Hbody y s s1 Hj Hs Hp Hy) Hrest).
  apply keeps_for_each. intros x. apply Hkeep.
Qed.

(** The note on a cooperator adds lines only. *)
Lemma cooperator_note_keeps (I : State -> Prop) (E : Env) (fuel : nat) (self y : ref) :
  on_heap I ->
  keeps I
    (do coop <- gets (fun h => isCooperator h self y);
     if coop then
       do lvl <- query (fun h => treeLevel fuel h self);
       do xn <- node y;
       write E fuel self (MsgCooperator lvl (_identifier xn))
     else ret tt).
Proof.
  intros HI. apply keeps_bind; [apply keeps_gets|intros coop].
  destruct coop; [|apply keeps_ret].
  apply keeps_bind; [apply keeps_query|intros lvl].
  apply keeps_bind; [apply keeps_node|intros xn].
  apply keeps_write, HI.
Qed.

(** The body of the loop heading [pre] keeps what [pre] keeps. *)
Lemma pre_body_keeps (I : State -> Prop) (E : Env) (k : nat) (self : ref)
    (z : option ref) :
  on_heap I ->
  (forall n, keeps I (modify n (with_preDone true))) ->
  keeps I
    (match z with
     | None => raise AttributeError
     | Some x =>
         (pre E k x;; ret tt);;
         do coop <- gets (fun h => isCooperator h self x);
         if coop then
           do lvl <- query (fun h => treeLevel (S k) h self);
           do xn <- node x;
           write E (S k) self (MsgCooperator lvl (_identifier xn))
         else ret tt
     end).
Proof.
  intros HI Hmod. destruct z as [y|]; [|apply keeps_raise].
  apply keeps_bind; [|intros _; apply cooperator_note_keeps, HI].
  apply keeps_bind; [apply pre_keeps; assumption|intros _; apply keeps_ret].
Qed.

(** A [pre] that returns on an object whose [_data] is [None] has entered
    the object's [load]. *)
Lemma pre_enters_load (E : Env) (fuel : nat) (self : ref) (st st' : State) (b : bool)
    (N : nat) :
  pre E fuel self st = Ok b st' ->
  _data (heap st !!! self) = Bound None ->
  longer N st ->
  entered N (Enter self m_load) st'.
Proof.
  intros Hrun Hdata Hlong.
  destruct (pre_trace _ _ _ _ _ _ Hrun) as (k & st1 & evs & d & -> & Hover & Hd & _ & Hout & _).
  rewrite Hdata in Hd. injection Hd as <-.
  assert (H1 : longer N st1).
  { refine (keeps_Ok (longer N) _ _ st1 tt _ _ Hover).
    - apply keeps_over_followers; [apply longer_on_heap|]. intros x.
      apply keeps_bind; [|intros _; apply keeps_ret].
      apply pre_keeps; [apply longer_on_heap|intros n; apply longer_modify].
    - unfold longer in *. cbn [out]. rewrite length_app. lia. }
  unfold entered, longer in *. rewrite Hout, skipn_app.
  apply elem_of_app. right. replace (N - length (out st1)) with 0 by lia.
  cbn [drop]. apply elem_of_app. right. apply list_elem_of_singleton. reflexivity.
Qed.

(** When the loop heading [pre] returns, the [pre] of every object listed
    was entered in its course, and so was the [load] of every object listed
    whose [_data] is [None]. *)
Lemma over_followers_entered (E : Env) (k : nat) (self : ref) (st0 st1 : State) :
  over_followers E (S k) self (fun x => pre E k x;; ret tt) st0 = Ok tt st1 ->
  forall x, Some x ∈ _followers (heap st0 !!! self) ->
    Enter x m_pre ∈ drop (length (out st0)) (out st1) /\
    (_data (heap st0 !!! x) = Bound None ->
     Enter x m_load ∈ drop (length (out st0)) (out st1)).
Proof.
  unfold over_followers, bind at 1, node at 1. intros Hrun x Hx.
  set (N := length (out st0)).
  set (D := fun n => _data (heap st0 !!! n)).
  assert (Hlong : longer N st0) by (unfold longer, N; lia).
  assert (Hdata : data_are D st0) by (intros n; reflexivity).
  assert (HJ : forall z, keeps (data_are D)
                 (match z with
                  | None => raise AttributeError
                  | Some x =>
                      (pre E k x;; ret tt);;
                      do coop <- gets (fun h => isCooperator h self x);
                      if coop then
                        do lvl <- query (fun h => treeLevel (S k) h self);
                        do xn <- node x;
                        write E (S k) self (MsgCooperator lvl (_identifier xn))
                      else ret tt
                  end)).
  { intros [y|]; [|apply keeps_raise].
    apply keeps_bind; [|intros _; apply cooperator_note_keeps, data_are_on_heap].
    apply keeps_bind; [apply pre_keeps_data|intros _; apply keeps_ret]. }
  split.
  - refine (for_each_entered _ _
              (fun z => match z with Some y => Enter y m_pre | None => Shutdown end)
              (data_are D) (fun _ => True) N HJ _ _ _ _ st0 st1 Hdata Hlong Hrun
              (Some x) Hx Logic.I).
    + intros z. apply pre_body_keeps; [apply longer_on_heap|intros n; apply longer_modify].
    + intros z e'.
      apply pre_body_keeps; [apply entered_on_heap|intros n; apply entered_modify].
    + intros [y|] s s' _ Hs _ Hy; [|discriminate].
      apply bind_Ok_inv in Hy as ([] & sa & Hpre & Hrest).
      apply bind_Ok_inv in Hpre as (b & sb & Hpre & [= <-]).
      refine (keeps_Ok _ _ sb s' tt
                (cooperator_note_keeps _ E (S k) self y (entered_on_heap _ _)) _ Hrest).
      pose proof (pre_from_entry (entered N (Enter y m_pre)) E k y s
                    (entered_on_heap _ _) (fun n => entered_modify _ _ n _)
                    (entered_emit _ _ s Hs)) as Hk.
      rewrite Hpre in Hk. exact Hk.
  - intros Hnone.
    refine (for_each_entered _ _
              (fun z => match z with Some y => Enter y m_load | None => Shutdown end)
              (data_are D)
              (fun z => match z with Some y => D y = Bound None | None => False end)
              N HJ _ _ _ _ st0 st1 Hdata Hlong Hrun (Some x) Hx Hnone).
    + intros z. apply pre_body_keeps; [apply longer_on_heap|intros n; apply longer_modify].
    + intros z e'.
      apply pre_body_keeps; [apply entered_on_heap|intros n; apply entered_modify].
    + intros [y|] s s' Hj Hs Hp Hy; [|discriminate].
      apply bind_Ok_inv in Hy as ([] & sa & Hpre & Hrest).
      apply bind_Ok_inv in Hpre as (b & sb & Hpre & [= <-]).
      refine (keeps_Ok _ _ sb s' tt
                (cooperator_note_keeps _ E (S k) self y (entered_on_heap _ _)) _ Hrest).
      refine (pre_enters_load E k y s sb b N Hpre _ Hs).
      rewrite (Hj y). exact Hp.
Qed.

(** C9.  When [pre] returns, it returns [load]'s answer for the node itself
    if the node's [_data] is [None], and [True] otherwise: it is [False]
    only when the node's own hook answers [False].  Other answers of the
    hooks of the followers leave the run and the value as they are.  The
    followers are processed first: the loop over them has entered the [pre]
    of every object listed, and the [load] of every object listed whose
    [_data] is [None]; the node's own hook is entered in what follows
    exactly when its [_data] is [None]. *)
Theorem pre_reports_own_load
    (E : Env) (fuel : nat) (self : ref) (st st' : State) (b : bool) :
  pre E fuel self st = Ok b st' ->
  b = match _data (heap st !!! self) with
      | Bound None => load E self
      | _ => true
      end /\
  (b = false -> load E self = false /\ _data (heap st !!! self) = Bound None) /\
  (forall f : ref -> bool,
      f self = load E self -> pre (with_load f E) fuel self st = Ok b st') /\
  (exists k st1 tail,
      fuel = S k /\
      (emit (Enter self m_pre);;
       over_followers E fuel self (fun x => pre E k x;; ret tt)) st = Ok tt st1 /\
      (forall x, Some x ∈ _followers (heap st !!! self) ->
         Enter x m_pre ∈ drop (S (length (out st))) (out st1) /\
         (_data (heap st !!! x) = Bound None ->
          Enter x m_load ∈ drop (S (length (out st))) (out st1))) /\
      out st' = out st1 ++ tail /\
      (Enter self m_load ∈ tail <-> _data (heap st !!! self) = Bound None)).
Proof.
  intros Hrun.
  destruct (pre_trace _ _ _ _ _ _ Hrun)
    as (k & st1 & evs & d & Hfuel & Hover & Hd & Hb & Hout & Hevs).
  assert (Hval : b = match _data (heap st !!! self) with
                     | Bound None => load E self
                     | _ => true
                     end).
  { rewrite Hd, Hb. destruct d; reflexivity. }
  split; [exact Hval|]. split; [|split].
  - intros ->. destruct (_data (heap st !!! self)) as [|[d0|]];
      [discriminate|discriminate|]. split; [symmetry; exact Hval|reflexivity].
  - intros f Hf.
    pose proof (pre_load_irrelevant E f fuel self st) as Heq.
    unfold bind in Heq. rewrite Hrun in Heq.
    destruct (pre (with_load f E) fuel self st) as [b' st''| |] eqn:Hrun';
      [|discriminate|discriminate].
    injection Heq as ->.
    destruct (pre_trace _ _ _ _ _ _ Hrun')
      as (k' & st1' & evs' & d' & _ & _ & Hd' & Hb' & _).
    rewrite Hd in Hd'. injection Hd' as <-.
    assert (Hbb : b' = b); [|rewrite Hbb; reflexivity].
    rewrite Hb, Hb'. destruct d; [reflexivity|exact Hf].
  - exists k, st1, (evs ++ match d with None => [Enter self m_load] | Some _ => [] end).
    split; [exact Hfuel|]. subst fuel. split.
    { unfold bind at 1. exact Hover. }
    split.
    { intros x Hx.
      pose proof (over_followers_entered E k self _ st1 Hover x Hx) as Hin.
      cbn [heap out] in Hin. rewrite length_app, Nat.add_1_r in Hin. exact Hin. }
    split; [exact Hout|]. rewrite Hd. split.
    + intros Hin. apply elem_of_app in Hin as [Hin|Hin].
      * rewrite Forall_forall in Hevs. apply Hevs in Hin. contradiction.
      * destruct d; [apply elem_of_nil in Hin; contradiction|reflexivity].
    + intros [= ->]. apply elem_of_app. right. apply list_elem_of_singleton.
      reflexivity.
Qed.

(** The theorem on the sample tree when the [load] hook of the follower [F]
    fails: [pre] of [L] still returns [True], although the [load] of [F]
    was entered. *)
Lemma pre_reports_own_load_witness :
  let E := Sample.load_fails_at Sample.F in
  let st' := Sample.after (pre E 10 Sample.L) Sample.tree in
  pre E 10 Sample.L Sample.tree = Ok true st' /\
  load E Sample.F = false /\
  Some Sample.F ∈ _followers (heap Sample.tree !!! Sample.L) /\
  _data (heap Sample.tree !!! Sample.F) = Bound None /\
  true = match _data (heap Sample.tree !!! Sample.L) with
         | Bound None => load E Sample.L
         | _ => true
         end /\
  (true = false ->
   load E Sample.L = false /\ _data (heap Sample.tree !!! Sample.L) = Bound None) /\
  (forall f : ref -> bool,
      f Sample.L = load E Sample.L ->
      pre (with_load f E) 10 Sample.L Sample.tree = Ok true st') /\
  (exists k st1 tail,
      10 = S k /\
      (emit (Enter Sample.L m_pre);;
       over_followers E 10 Sample.L (fun x => pre E k x;; ret tt)) Sample.tree
      = Ok tt st1 /\
      (forall x, Some x ∈ _followers (heap Sample.tree !!! Sample.L) ->
         Enter x m_pre ∈ drop (S (length (out Sample.tree))) (out st1) /\
         (_data (heap Sample.tree !!! x) = Bound None ->
          Enter x m_load ∈ drop (S (length (out Sample.tree))) (out st1))) /\
      out st' = out st1 ++ tail /\
      (Enter Sample.L m_load ∈ tail <->
       _data (heap Sample.tree !!! Sample.L) = Bound None)).
Proof.
  cbv zeta.
  assert (H : pre (Sample.load_fails_at Sample.F) 10 Sample.L Sample.tree
              = Ok true (Sample.after (pre (Sample.load_fails_at Sample.F) 10 Sample.L)
                           Sample.tree)).
  { vm_compute. reflexivity. }
  split; [exact H|]. split; [reflexivity|].
  split; [vm_compute; apply elem_of_cons; left; reflexivity|].
  split; [vm_compute; reflexivity|].
  exact (pre_reports_own_load (Sample.load_fails_at Sample.F) 10 Sample.L Sample.tree
           _ true H).
Defined.

Lemma lists_are_on_heap (F : ref -> list (option ref)) : on_heap (lists_are F).
Proof. intros st st' Hh _ Hst n. rewrite Hh. apply Hst. Qed.

Lemma flagged_on_heap (flag : Node -> bool) (y : ref) : on_heap (flagged flag y).
Proof. intros st st' Hh _ Hst. unfold flagged. rewrite Hh. exact Hst. Qed.

Lemma lists_are_modify (F : ref -> list (option ref)) (n : ref) (f : Node -> Node) :
  (forall nd, _followers (f nd) = _followers nd) ->
  keeps (lists_are F) (modify n f).
Proof.
  intros Hf. apply keeps_modify. intros st Hst y. rewrite lookup_modify.
  case_decide; subst; [rewrite Hf|]; apply Hst.
Qed.

Lemma flagged_modify (flag : Node -> bool) (y n : ref) (f : Node -> Node) :
  (forall nd, flag nd = true -> flag (f nd) = true) ->
  keeps (flagged flag y) (modify n f).
Proof.
  intros Hf. apply keeps_modify. intros st Hst. unfold flagged.
  rewrite lookup_modify. case_decide; subst; [apply Hf|]; exact Hst.
Qed.

(** Going down the lists is the same in two stores with the same lists. *)
Lemma reaches_lists (h h' : gmap nat Node) (r x : ref) :
  (forall y, _followers (h' !!! y) = _followers (h !!! y)) ->
  Tree.reaches h r x -> Tree.reaches h' r x.
Proof.
  intros Hsame. induction 1 as [r|r c x Hc _ IH]; [constructor|].
  eapply Tree.reaches_below; [|exact IH]. unfold Tree.lists in *.
  rewrite Hsame. exact Hc.
Qed.

(** The note on a cooperator is a written line. *)
Lemma cooperator_note_heap (E : Env) (fuel : nat) (self x : ref) (st st' : State) :
  (do coop <- gets (fun h => isCooperator h self x);
   if coop then
     do lvl <- query (fun h => treeLevel fuel h self);
     do xn <- node x;
     write E fuel self (MsgCooperator lvl (_identifier xn))
   else ret tt) st = Ok tt st' ->
  heap st' = heap st.
Proof.
  unfold bind at 1, gets at 1. destruct (isCooperator (heap st) self x).
  - unfold bind at 1, query at 1.
    destruct (treeLevel fuel (heap st) self); [|discriminate].
    unfold bind at 1, node at 1. intros H. apply write_lines in H as [H _]. exact H.
  - intros [= <-]. reflexivity.
Qed.

(** The loop heading a phase: when it returns, every object below a
    follower carries the flag the phase sets. *)
Lemma over_followers_marks (h0 : gmap nat Node) (flag : Node -> bool)
    (E : Env) (fuel : nat) (self : ref) (phase : ref -> M unit) :
  let F := fun x => _followers (h0 !!! x) in
  (forall x, keeps (lists_are F) (phase x)) ->
  (forall x y, keeps (flagged flag y) (phase x)) ->
  (forall x st st', lists_are F st -> phase x st = Ok tt st' ->
     forall y, Tree.reaches h0 x y -> flagged flag y st') ->
  forall st st',
    lists_are F st ->
    over_followers E fuel self phase st = Ok tt st' ->
    lists_are F st' /\
    forall c y, Tree.lists h0 self c -> Tree.reaches h0 c y -> flagged flag y st'.
Proof.
  intros F Hlists Hflag Hphase st st' Hst.
  unfold over_followers, bind at 1, node at 1. rewrite (Hst self).
  unfold Tree.lists. fold (F self).
  generalize (F self). intros l. revert st Hst.
  induction l as [|x l IH]; intros st Hst; cbn [for_each].
  - intros [= <-]. split; [exact Hst|]. intros c y Hc.
    apply elem_of_nil in Hc. contradiction.
  - intros Hrun. apply bind_Ok_inv in Hrun as ([] & st1 & Hbody & Hrest).
    destruct x as [x|]; [|discriminate].
    apply bind_Ok_inv in Hbody as ([] & st0 & Hx & Hnote).
    apply cooperator_note_heap in Hnote.
    assert (Hst0 : lists_are F st0).
    { pose proof (Hlists x st Hst) as Hk. rewrite Hx in Hk. exact Hk. }
    assert (Hst1 : lists_are F st1).
    { intros z. rewrite Hnote. apply Hst0. }
    destruct (IH st1 Hst1 Hrest) as [Hst' Hbelow].
    split; [exact Hst'|]. intros c y Hc Hy.
    apply elem_of_cons in Hc as [[= ->]|Hc]; [|eapply Hbelow; eassumption].
    assert (H1 : flagged flag y st1).
    { unfold flagged. rewrite Hnote. exact (Hphase x st st0 Hst Hx y Hy). }
    assert (Hk : keeps (flagged flag y)
                   (for_each l
                      (fun x => match x with
                                | None => raise AttributeError
                                | Some x =>
                                    phase x;;
                                    do coop <- gets (fun h => isCooperator h self x);
                                    if coop then
                                      do lvl <- query (fun h => treeLevel fuel h self);
                                      do xn <- node x;
                                      write E fuel self (MsgCooperator lvl (_identifier xn))
                                    else ret tt
                                end))).
    { apply keeps_for_each. intros [z|]; [|apply keeps_raise].
      apply keeps_bind; [apply Hflag|intros _].
      apply keeps_bind; [apply keeps_gets|intros coop].
      destruct coop; [|apply keeps_ret].
      apply keeps_bind; [apply keeps_query|intros lvl].
      apply keeps_bind; [apply keeps_node|intros xn].
      apply keeps_write, flagged_on_heap. }
    specialize (Hk st1 H1). rewrite Hrest in Hk. exact Hk.
Qed.

(** A phase of the form: note the entry, loop over the followers, then the
    node's own part, which ends by setting the flag. *)
Lemma phase_marks {A} (h0 : gmap nat Node) (flag : Node -> bool) (E : Env)
    (fuel : nat) (self : ref) (phase : ref -> M unit) (e : event) (own : M A) :
  let F := fun x => _followers (h0 !!! x) in
  (forall x, keeps (lists_are F) (phase x)) ->
  (forall x y, keeps (flagged flag y) (phase x)) ->
  (forall x st st', lists_are F st -> phase x st = Ok tt st' ->
     forall y, Tree.reaches h0 x y -> flagged flag y st') ->
  (forall y, keeps (flagged flag y) own) ->
  (forall st r st', own st = Ok r st' -> flagged flag self st') ->
  forall st r st',
    lists_are F st ->
    (emit e;; over_followers E fuel self phase;; own) st = Ok r st' ->
    forall y, Tree.reaches h0 self y -> flagged flag y st'.
Proof.
  intros F Hlists Hflag Hphase Hown Hself st r st' Hst Hrun y Hy.
  apply bind_Ok_inv in Hrun as ([] & st0 & Hemit & Hrun). injection Hemit as <-.
  apply bind_Ok_inv in Hrun as ([] & st1 & Hover & Hrun).
  assert (Hst0 : lists_are F (mkState (heap st) (handlers st) (out st ++ [e])))
    by (intros x; apply (Hst x)).
  destruct (over_followers_marks h0 flag E fuel self phase Hlists Hflag Hphase _ st1
              Hst0 Hover) as [_ Hbelow].
  inversion Hy as [|? c ? Hc Hcy]; subst.
  - eapply Hself. exact Hrun.
  - pose proof (Hown y st1 (Hbelow c y Hc Hcy)) as Hk. rewrite Hrun in Hk. exact Hk.
Qed.

Lemma pre_marks (E : Env) (h0 : gmap nat Node) :
  forall fuel self st b st',
    lists_are (fun x => _followers (h0 !!! x)) st ->
    pre E fuel self st = Ok b st' ->
    forall y, Tree.reaches h0 self y -> flagged _preDone y st'.
Proof.
  induction fuel as [|k IH]; intros self st b st' Hst Hrun; [discriminate|].
  cbn [pre] in Hrun.
  eapply (phase_marks h0 _preDone); [| | | | |exact Hst|exact Hrun].
  - intros x. apply keeps_bind; [|intros _; apply keeps_ret].
    apply pre_keeps; [apply lists_are_on_heap|]. intros n.
    apply lists_are_modify. reflexivity.
  - intros x y. apply keeps_bind; [|intros _; apply keeps_ret].
    apply pre_keeps; [apply flagged_on_heap|]. intros n.
    apply flagged_modify. reflexivity.
  - intros x s s' Hs Hx. apply bind_Ok_inv in Hx as (b' & s1 & Hx & [= <-]).
    eapply IH; eassumption.
  - intros y. apply keeps_bind; [apply keeps_phase_line, flagged_on_heap|intros _].
    apply keeps_bind; [apply keeps_read_data|intros d].
    apply keeps_bind.
    { destruct d; [apply keeps_ret|].
      apply keeps_bind; [apply keeps_emit, flagged_on_heap|intros _; apply keeps_ret]. }
    intros ok. apply keeps_bind; [|intros _; apply keeps_ret].
    apply flagged_modify. reflexivity.
  - intros s r s' Hown.
    apply bind_Ok_inv in Hown as ([] & s1 & _ & Hown).
    apply bind_Ok_inv in Hown as (d & s2 & _ & Hown).
    apply bind_Ok_inv in Hown as (ok & s3 & _ & Hown).
    apply bind_Ok_inv in Hown as ([] & s4 & Hmod & [= _ <-]).
    injection Hmod as <-. unfold flagged. rewrite lookup_modify, decide_True by reflexivity.
    reflexivity.
Qed.

Lemma task_marks (E : Env) (h0 : gmap nat Node) :
  forall fuel self st r st',
    lists_are (fun x => _followers (h0 !!! x)) st ->
    task E fuel self st = Ok r st' ->
    forall y, Tree.reaches h0 self y -> flagged _taskDone y st'.
Proof.
  induction fuel as [|k IH]; intros self st r st' Hst Hrun; [discriminate|].
  cbn [task] in Hrun.
  eapply (phase_marks h0 _taskDone); [| | | | |exact Hst|exact Hrun].
  - intros x. apply keeps_bind; [|intros _; apply keeps_ret].
    apply task_keeps; [apply lists_are_on_heap|]. intros n.
    apply lists_are_modify. reflexivity.
  - intros x y. apply keeps_bind; [|intros _; apply keeps_ret].
    apply task_keeps; [apply flagged_on_heap|]. intros n.
    apply flagged_modify. reflexivity.
  - intros x s s' Hs Hx. apply bind_Ok_inv in Hx as (b' & s1 & Hx & [= <-]).
    eapply IH; eassumption.
  - intros y. apply keeps_bind; [apply keeps_phase_line, flagged_on_heap|intros _].
    apply keeps_bind; [|intros _; apply keeps_ret].
    apply flagged_modify. reflexivity.
  - intros s r' s' Hown.
    apply bind_Ok_inv in Hown as ([] & s1 & _ & Hown).
    apply bind_Ok_inv in Hown as ([] & s4 & Hmod & [= _ <-]).
    injection Hmod as <-. unfold flagged. rewrite lookup_modify, decide_True by reflexivity.
    reflexivity.
Qed.

Lemma post_marks (E : Env) (h0 : gmap nat Node) :
  forall fuel self st b st',
    lists_are (fun x => _followers (h0 !!! x)) st ->
    post E fuel self st = Ok b st' ->
    forall y, Tree.reaches h0 self y -> flagged _postDone y st'.
Proof.
  induction fuel as [|k IH]; intros self st b st' Hst Hrun; [discriminate|].
  cbn [post] in Hrun.
  eapply (phase_marks h0 _postDone); [| | | | |exact Hst|exact Hrun].
  - intros x. apply keeps_bind; [|intros _; apply keeps_ret].
    apply post_keeps; [apply lists_are_on_heap|]. intros n.
    apply lists_are_modify. reflexivity.
  - intros x y. apply keeps_bind; [|intros _; apply keeps_ret].
    apply post_keeps; [apply flagged_on_heap|]. intros n.
    apply flagged_modify. reflexivity.
  - intros x s s' Hs Hx. apply bind_Ok_inv in Hx as (b' & s1 & Hx & [= <-]).
    eapply IH; eassumption.
  - intros y. apply keeps_bind; [apply keeps_phase_line, flagged_on_heap|intros _].
    apply keeps_bind; [apply keeps_read_data|intros d].
    apply keeps_bind.
    { destruct d; [apply keeps_ret|].
      apply keeps_bind; [apply keeps_emit, flagged_on_heap|intros _; apply keeps_ret]. }
    intros ok. apply keeps_bind; [|intros _; apply keeps_ret].
    apply flagged_modify. reflexivity.
  - intros s r s' Hown.
    apply bind_Ok_inv in Hown as ([] & s1 & _ & Hown).
    apply bind_Ok_inv in Hown as (d & s2 & _ & Hown).
    apply bind_Ok_inv in Hown as (ok & s3 & _ & Hown).
    apply bind_Ok_inv in Hown as ([] & s4 & Hmod & [= _ <-]).
    injection Hmod as <-. unfold flagged. rewrite lookup_modify, decide_True by reflexivity.
    reflexivity.
Qed.

(** A phase that returns has run on the whole tree below the node: [pre]
    leaves [_preDone] set on the node and on every object reached from it
    down the lists, followers and cooperators alike, [task] leaves
    [_taskDone] set there and [post] leaves [_postDone] set there. *)
Theorem phases_mark_the_tree_below (E : Env) (fuel : nat) (self : ref) (st : State) :
  (forall b st', pre E fuel self st = Ok b st' ->
     forall y, Tree.reaches (heap st) self y -> _preDone (heap st' !!! y) = true) /\
  (forall r st', task E fuel self st = Ok r st' ->
     forall y, Tree.reaches (heap st) self y -> _taskDone (heap st' !!! y) = true) /\
  (forall b st', post E fuel self st = Ok b st' ->
     forall y, Tree.reaches (heap st) self y -> _postDone (heap st' !!! y) = true).
Proof.
  split; [|split]; intros r st' Hrun y Hy.
  - eapply (pre_marks E (heap st)); [|exact Hrun|exact Hy]. intros x. reflexivity.
  - eapply (task_marks E (heap st)); [|exact Hrun|exact Hy]. intros x. reflexivity.
  - eapply (post_marks E (heap st)); [|exact Hrun|exact Hy]. intros x. reflexivity.
Qed.

(** [pre] on the sample tree reaches [G], two levels down, and the
    cooperator [C]. *)
Lemma phases_mark_the_tree_below_witness :
  let st' := Sample.after (pre Sample.primary 10 Sample.L) Sample.tree in
  pre Sample.primary 10 Sample.L Sample.tree = Ok true st' /\
  Tree.reaches (heap Sample.tree) Sample.L Sample.G /\
  _preDone (heap st' !!! Sample.G) = true.
Proof.
  cbv zeta.
  assert (H : pre Sample.primary 10 Sample.L Sample.tree
              = Ok true (Sample.after (pre Sample.primary 10 Sample.L) Sample.tree)).
  { vm_compute. reflexivity. }
  assert (HG : Tree.reaches (heap Sample.tree) Sample.L Sample.G).
  { apply (Tree.reaches_below _ _ Sample.F).
    - unfold Tree.lists. rewrite sample_tree_nodes. apply elem_of_cons. left. reflexivity.
    - apply (Tree.reaches_below _ _ Sample.G); [|constructor].
      unfold Tree.lists. rewrite sample_tree_nodes. apply elem_of_cons. left. reflexivity. }
  split; [exact H|]. split; [exact HG|].
  exact (proj1 (phases_mark_the_tree_below Sample.primary 10 Sample.L Sample.tree)
           true _ H Sample.G HG).
Defined.

(** ** The phases return on a tree without holes *)

Lemma runs_bind {A B} (I : State -> Prop) (c : M A) (k : A -> M B) (st : State) :
  runs I c st ->
  (forall a st1, c st = Ok a st1 -> I st1 -> runs I (k a) st1) ->
  runs I (bind c k) st.
Proof.
  intros (a & st1 & Hc & H1) Hk. unfold runs, bind. rewrite Hc.
  exact (Hk a st1 Hc H1).
Qed.

Lemma runs_for_each {A} (I : State -> Prop) (body : A -> M unit) (xs : list A) :
  (forall x, x ∈ xs -> forall st, I st -> runs I (body x) st) ->
  forall st, I st -> runs I (for_each xs body) st.
Proof.
  induction xs as [|x xs IH]; intros Hbody st Hst; cbn [for_each].
  - exists tt, st. split; [reflexivity|exact Hst].
  - apply runs_bind.
    + apply Hbody; [left|exact Hst].
    + intros _ st1 _ H1. apply IH; [|exact H1].
      intros y Hy. apply Hbody. right. exact Hy.
Qed.

Lemma runs_ret {A} (I : State -> Prop) (a : A) (st : State) : I st -> runs I (ret a) st.
Proof. intros Hst. exists a, st. split; [reflexivity|exact Hst]. Qed.

Lemma runs_emit (I : State -> Prop) (e : event) (st : State) :
  on_heap I -> I st -> runs I (emit e) st.
Proof.
  intros HI Hst. eexists tt, _. split; [reflexivity|].
  eapply HI; [| |exact Hst]; [reflexivity|]. eexists. reflexivity.
Qed.

(** Up the leader links the walk ends with fuel above the depth. *)
Lemma root_returns (h : gmap nat Node) (depth : ref -> nat) :
  Tree.leaders_acyclic h depth ->
  forall fuel x, depth x < fuel -> is_Some (root fuel h x).
Proof.
  intros Hup fuel. induction fuel as [|k IH]; intros x Hx; [lia|].
  cbn [root]. destruct (_leader (h !!! x)) as [p|] eqn:Hp; [|eauto].
  apply IH. apply Hup in Hp. lia.
Qed.

Lemma treeLevel_returns (h : gmap nat Node) (depth : ref -> nat) :
  Tree.leaders_acyclic h depth ->
  forall fuel x, depth x < fuel -> is_Some (treeLevel fuel h x).
Proof.
  intros Hup fuel x Hx. unfold treeLevel.
  assert (Hloop : forall fuel p n,
            match p with Some q => depth q + 1 < fuel | None => 0 < fuel end ->
            is_Some (treeLevel_loop fuel h p n)).
  { clear fuel x Hx. induction fuel as [|k IH]; intros p n Hp.
    - destruct p; lia.
    - cbn [treeLevel_loop]. destruct p as [q|]; [|eauto].
      apply IH. destruct (_leader (h !!! q)) as [r|] eqn:Hr; [|lia].
      apply Hup in Hr. lia. }
  apply Hloop. destruct (_leader (h !!! x)) as [q|] eqn:Hq; [|lia].
  apply Hup in Hq. lia.
Qed.

Lemma runs_write (I : State -> Prop) (E : Env) (fuel : nat) (n : ref) (msg : message)
    (st : State) :
  on_heap I -> is_Some (treeLevel fuel (heap st) n) -> I st ->
  runs I (write E fuel n msg) st.
Proof.
  intros HI [lvl Hlvl] Hst. unfold runs.
  cbv [write bind query silent node ret when emit]. rewrite Hlvl.
  destruct (negb (_silent (heap st !!! n) || rank_skip E)); cbn [heap handlers out];
    eexists tt, _; (split; [reflexivity|]); (eapply HI; [| |exact Hst]);
    [reflexivity|eexists; cbn [out]; rewrite <- app_assoc; reflexivity
    |reflexivity|eexists; reflexivity].
Qed.

Section Returns.

Variable h0 : gmap nat Node.
Variables depth height : ref -> nat.
Variable d : nat.
Hypothesis Hup : Tree.leaders_acyclic h0 depth.
Hypothesis Hdown : Tree.lists_acyclic h0 height.
Hypothesis Hdepth : forall x, depth x <= d.
Hypothesis Hholes : forall x, None ∉ _followers (h0 !!! x).
Hypothesis Hdata : forall x, _data (h0 !!! x) <> Deleted.

Lemma shaped_on_heap : on_heap (shaped h0).
Proof. intros st st' Hh _ Hst x. rewrite Hh. apply Hst. Qed.

Lemma shaped_modify (n : ref) (f : Node -> Node) (st : State) :
  (forall nd, _leader (f nd) = _leader nd /\ _followers (f nd) = _followers nd /\
              _data (f nd) = _data nd /\ _identifier (f nd) = _identifier nd) ->
  shaped h0 st -> runs (shaped h0) (modify n f) st.
Proof.
  intros Hf Hst. eexists tt, _. split; [reflexivity|].
  intros x. rewrite lookup_modify. case_decide; [subst x|apply Hst].
  destruct (Hf (heap st !!! n)) as (-> & -> & -> & ->). apply Hst.
Qed.

Lemma shaped_leaders (st : State) :
  shaped h0 st -> Tree.leaders_acyclic (heap st) depth.
Proof. intros Hst x p Hp. apply Hup. rewrite <- Hp. symmetry. apply Hst. Qed.

Lemma shaped_write (E : Env) (fuel : nat) (n : ref) (msg : message) (st : State) :
  d < fuel -> shaped h0 st -> runs (shaped h0) (write E fuel n msg) st.
Proof.
  intros Hfuel Hst. apply runs_write; [apply shaped_on_heap| |exact Hst].
  eapply treeLevel_returns; [apply shaped_leaders, Hst|].
  specialize (Hdepth n). lia.
Qed.

Lemma shaped_phase_line (E : Env) (fuel : nat) (n : ref) (msg : string -> message)
    (st : State) :
  d < fuel -> shaped h0 st -> runs (shaped h0) (phase_line E fuel n msg) st.
Proof.
  intros Hfuel Hst. unfold phase_line.
  destruct (root_returns (heap st) depth (shaped_leaders st Hst) fuel n) as [r Hr].
  { specialize (Hdepth n). lia. }
  apply runs_bind.
  { exists r, st. split; [unfold query; rewrite Hr; reflexivity|exact Hst]. }
  intros r' s1 _ H1. apply runs_bind; [apply (runs_ret _ (heap s1 !!! r')), H1|].
  intros rn s2 _ H2. destruct (_followers rn); [apply runs_ret, H2|].
  apply runs_bind; [apply (runs_ret _ (heap s2 !!! n)), H2|].
  intros nd s3 _ H3. apply shaped_write; assumption.
Qed.

Lemma shaped_over_followers (E : Env) (fuel : nat) (self : ref) (phase : ref -> M unit) :
  d < fuel ->
  (forall x, Tree.lists h0 self x -> forall st, shaped h0 st -> runs (shaped h0) (phase x) st) ->
  forall st, shaped h0 st -> runs (shaped h0) (over_followers E fuel self phase) st.
Proof.
  intros Hfuel Hphase st Hst. unfold over_followers.
  apply runs_bind; [apply (runs_ret _ (heap st !!! self)), Hst|].
  intros nd s0 [= <- <-] _.
  destruct (Hst self) as (_ & -> & _). apply runs_for_each; [|exact Hst].
  intros [x|] Hx s Hs; [|exfalso; exact (Hholes self Hx)].
  apply runs_bind; [apply Hphase; assumption|].
  intros _ s1 _ H1.
  apply runs_bind; [apply (runs_ret _ (isCooperator (heap s1) self x)), H1|].
  intros coop s2 _ H2. destruct coop; [|apply runs_ret, H2].
  destruct (treeLevel_returns (heap s2) depth (shaped_leaders s2 H2) fuel self) as [lvl Hlvl].
  { specialize (Hdepth self). lia. }
  apply runs_bind.
  { exists lvl, s2. split; [unfold query; rewrite Hlvl; reflexivity|exact H2]. }
  intros lvl' s3 _ H3. apply runs_bind; [apply (runs_ret _ (heap s3 !!! x)), H3|].
  intros xn s4 _ H4. apply shaped_write; assumption.
Qed.

Lemma shaped_read_data (n : ref) (st : State) :
  shaped h0 st -> runs (shaped h0) (read_data n) st.
Proof.
  intros Hst. unfold runs, read_data, bind, node.
  destruct (Hst n) as (_ & _ & Hd & _).
  destruct (_data (heap st !!! n)) as [|v] eqn:Hv; [|exists v, st; split; [reflexivity|exact Hst]].
  exfalso. apply (Hdata n). rewrite <- Hd. reflexivity.
Qed.

Lemma pre_returns (E : Env) :
  forall fuel self st,
    d + height self < fuel -> shaped h0 st -> runs (shaped h0) (pre E fuel self) st.
Proof.
  induction fuel as [|k IH]; intros self st Hfuel Hst; [lia|].
  cbn [pre].
  apply runs_bind; [apply runs_emit; [apply shaped_on_heap|exact Hst]|].
  intros _ s1 _ H1. apply runs_bind.
  { apply shaped_over_followers; [lia| |exact H1].
    intros x Hx s Hs. apply runs_bind.
    - apply IH; [|exact Hs]. apply Hdown in Hx. lia.
    - intros _ s' _ Hs'. exists tt, s'. split; [reflexivity|exact Hs']. }
  intros _ s2 _ H2. apply runs_bind; [apply shaped_phase_line; [lia|exact H2]|].
  intros _ s3' _ H3'. apply runs_bind; [apply shaped_read_data, H3'|].
  intros v s3 _ H3. apply runs_bind.
  { destruct v.
    - apply runs_ret, H3.
    - apply runs_bind; [apply runs_emit; [apply shaped_on_heap|exact H3]|].
      intros _ s4 _ H4. apply runs_ret, H4. }
  intros ok s4 _ H4. apply runs_bind.
  { apply shaped_modify; [|exact H4]. intros nd. repeat split. }
  intros _ s5 _ H5. exists ok, s5. split; [reflexivity|exact H5].
Qed.

Lemma task_returns (E : Env) :
  forall fuel self st,
    d + height self < fuel -> shaped h0 st -> runs (shaped h0) (task E fuel self) st.
Proof.
  induction fuel as [|k IH]; intros self st Hfuel Hst; [lia|].
  cbn [task].
  apply runs_bind; [apply runs_emit; [apply shaped_on_heap|exact Hst]|].
  intros _ s1 _ H1. apply runs_bind.
  { apply shaped_over_followers; [lia| |exact H1].
    intros x Hx s Hs. apply runs_bind.
    - apply IH; [|exact Hs]. apply Hdown in Hx. lia.
    - intros _ s' _ Hs'. exists tt, s'. split; [reflexivity|exact Hs']. }
  intros _ s2 _ H2. apply runs_bind; [apply shaped_phase_line; [lia|exact H2]|].
  intros _ s3 _ H3. apply runs_bind.
  { apply shaped_modify; [|exact H3]. intros nd. repeat split. }
  intros _ s5 _ H5. eexists _, s5. split; [reflexivity|exact H5].
Qed.

Lemma post_returns (E : Env) :
  forall fuel self st,
    d + height self < fuel -> shaped h0 st -> runs (shaped h0) (post E fuel self) st.
Proof.
  induction fuel as [|k IH]; intros self st Hfuel Hst; [lia|].
  cbn [post].
  apply runs_bind; [apply runs_emit; [apply shaped_on_heap|exact Hst]|].
  intros _ s1 _ H1. apply runs_bind.
  { apply shaped_over_followers; [lia| |exact H1].
    intros x Hx s Hs. apply runs_bind.
    - apply IH; [|exact Hs]. apply Hdown in Hx. lia.
    - intros _ s' _ Hs'. exists tt, s'. split; [reflexivity|exact Hs']. }
  intros _ s2 _ H2. apply runs_bind; [apply shaped_phase_line; [lia|exact H2]|].
  intros _ s3' _ H3'. apply runs_bind; [apply shaped_read_data, H3'|].
  intros v s3 _ H3. apply runs_bind.
  { destruct v.
    - apply runs_ret, H3.
    - apply runs_bind; [apply runs_emit; [apply shaped_on_heap|exact H3]|].
      intros _ s4 _ H4. apply runs_ret, H4. }
  intros ok s4 _ H4. apply runs_bind.
  { apply shaped_modify; [|exact H4]. intros nd. repeat split. }
  intros _ s5 _ H5. exists ok, s5. split; [reflexivity|exact H5].
Qed.

End Returns.

(** On a tree the phases return.  When the leader links go up and the lists
    go down, no list has a hole and no object has lost its [_data], then
    [pre], [task] and [post] return from every node, given fuel above the
    depth of the tree plus the height of the node, and they leave every
    leader, list, payload and identifier as it was. *)
Theorem phases_return_on_a_tree
    (E : Env) (depth height : ref -> nat) (d fuel : nat) (self : ref) (st : State) :
  Tree.leaders_acyclic (heap st) depth ->
  Tree.lists_acyclic (heap st) height ->
  (forall x, depth x <= d) ->
  (forall x, None ∉ _followers (heap st !!! x)) ->
  (forall x, _data (heap st !!! x) <> Deleted) ->
  d + height self < fuel ->
  (exists b st', pre E fuel self st = Ok b st' /\ shaped (heap st) st') /\
  (exists r st', task E fuel self st = Ok r st' /\ shaped (heap st) st') /\
  (exists b st', post E fuel self st = Ok b st' /\ shaped (heap st) st').
Proof.
  intros Hup Hdown Hdepth Hholes Hdata Hfuel.
  assert (Hst : shaped (heap st) st) by (intros x; repeat split).
  split; [|split].
  - eapply pre_returns; eassumption.
  - eapply task_returns; eassumption.
  - eapply post_returns; eassumption.
Qed.

Lemma sample_tree_depth_bound (x : ref) : Sample.tree_depth x <= 2.
Proof. do 6 (destruct x as [|x]; [cbn; lia|]). cbn. lia. Qed.

Lemma sample_tree_no_hole (x : ref) : None ∉ _followers (heap Sample.tree !!! x).
Proof.
  rewrite sample_tree_nodes. intros Hin.
  do 6 (destruct x as [|x];
        [cbn in Hin;
         repeat (apply elem_of_cons in Hin as [Hin|Hin]; [discriminate|]);
         apply elem_of_nil in Hin; contradiction|]).
  cbn in Hin. apply elem_of_nil in Hin. contradiction.
Qed.

(** The theorem on the sample tree, at its leader [L]. *)
Lemma phases_return_on_a_tree_witness :
  Tree.leaders_acyclic (heap Sample.tree) Sample.tree_depth /\
  Tree.lists_acyclic (heap Sample.tree) Sample.tree_height /\
  (forall x, Sample.tree_depth x <= 2) /\
  (forall x, None ∉ _followers (heap Sample.tree !!! x)) /\
  (forall x, _data (heap Sample.tree !!! x) <> Deleted) /\
  2 + Sample.tree_height Sample.L < 10 /\
  (exists b st', pre Sample.primary 10 Sample.L Sample.tree = Ok b st' /\
                 shaped (heap Sample.tree) st') /\
  (exists r st', task Sample.primary 10 Sample.L Sample.tree = Ok r st' /\
                 shaped (heap Sample.tree) st') /\
  (exists b st', post Sample.primary 10 Sample.L Sample.tree = Ok b st' /\
                 shaped (heap Sample.tree) st').
Proof.
  split; [exact sample_tree_leaders|]. split; [exact sample_tree_lists|].
  split; [exact sample_tree_depth_bound|]. split; [exact sample_tree_no_hole|].
  split; [exact sample_tree_bound|]. split; [cbn; lia|].
  apply (phases_return_on_a_tree Sample.primary Sample.tree_depth Sample.tree_height
           2 10 Sample.L Sample.tree).
  - exact sample_tree_leaders.
  - exact sample_tree_lists.
  - exact sample_tree_depth_bound.
  - exact sample_tree_no_hole.
  - exact sample_tree_bound.
  - cbn. lia.
Defined.

(** ** The end of a run *)

Lemma epilog_keeps (I : State -> Prop) (E : Env) :
  on_heap I -> forall fuel self, keeps I (epilog E fuel self).
Proof.
  intros HI fuel. induction fuel as [|k IH]; intros self; cbn [epilog].
  { apply keeps_diverge. }
  apply keeps_bind; [apply keeps_emit, HI|intros _].
  apply keeps_bind; [apply keeps_gets|intros r].
  apply keeps_bind.
  { apply keeps_when. apply keeps_bind; [|intros _; apply keeps_write, HI].
    apply keeps_when, keeps_write, HI. }
  intros _. apply keeps_bind; [apply keeps_node|intros nd].
  apply keeps_bind.
  { apply keeps_for_each. intros [x|]; [|apply keeps_raise].
    apply keeps_bind; [apply IH|intros _].
    apply keeps_bind; [apply keeps_node|intros me].
    destruct (_gui me); [|apply keeps_ret].
    destruct r; [apply keeps_emit, HI|apply keeps_raise]. }
  intros _ st Hst. destruct (handlers st); [|exact Hst].
  cbn. eapply HI; [| |exact Hst]; [reflexivity|]. eexists. reflexivity.
Qed.

(** [epilog] changes no object. *)
Lemma epilog_heap (E : Env) (fuel : nat) (self : ref) (st : State) (r : unit) (st' : State) :
  epilog E fuel self st = Ok r st' -> heap st' = heap st.
Proof.
  intros Hrun.
  pose proof (epilog_keeps (fun s => heap s = heap st) E
                ltac:(intros s s' Hh _ Hs; congruence) fuel self st eq_refl) as Hk.
  rewrite Hrun in Hk. exact Hk.
Qed.

(** Below the root [epilog] does not survive a dialog: on an object that
    has a leader, has [gui] on and lists anything, it never returns; when
    the [epilog] of the first follower returns, the [UnboundLocalError] of
    the name [message], bound on a root only, is raised there. *)
Theorem epilog_fails_below_the_root
    (E : Env) (fuel : nat) (self p : ref) (st : State) :
  _leader (heap st !!! self) = Some p ->
  _gui (heap st !!! self) = true ->
  _followers (heap st !!! self) <> [] ->
  (forall r st', epilog E fuel self st <> Ok r st') /\
  (forall k x rest st2,
     fuel = S k ->
     _followers (heap st !!! self) = Some x :: rest ->
     epilog E k x (mkState (heap st) (handlers st) (out st ++ [Enter self m_epilog]))
       = Ok tt st2 ->
     epilog E fuel self st = Raise UnboundLocalError st2).
Proof.
  intros Hp Hgui Hlist.
  assert (Hstep : forall k,
            epilog E (S k) self st
            = match _followers (heap st !!! self) with
              | [] => epilog E (S k) self st
              | None :: _ =>
                  Raise AttributeError
                    (mkState (heap st) (handlers st) (out st ++ [Enter self m_epilog]))
              | Some x :: _ =>
                  match epilog E k x
                          (mkState (heap st) (handlers st) (out st ++ [Enter self m_epilog]))
                  with
                  | Ok _ st2 => Raise UnboundLocalError st2
                  | Raise e st2 => Raise e st2
                  | Diverge => Diverge
                  end
              end).
  { intros k. destruct (_followers (heap st !!! self)) as [|f rest] eqn:Hf; [reflexivity|].
    cbn [epilog]. unfold bind at 1, emit at 1.
    unfold bind at 1, gets at 1, isRoot. cbn [heap]. rewrite Hp.
    unfold bind at 1, when at 1, ret at 1.
    unfold bind at 1, node at 1. cbn [heap]. rewrite Hf.
    unfold bind at 1. cbn [for_each]. unfold bind at 1.
    destruct f as [x|]; [|reflexivity].
    unfold bind at 1.
    destruct (epilog E k x _) as [[] st2|e st2|] eqn:Hx; [|reflexivity|reflexivity].
    apply epilog_heap in Hx. cbn [heap] in Hx.
    unfold bind at 1, node at 1. rewrite Hx, Hgui. reflexivity. }
  split.
  - intros r st'. destruct fuel as [|k]; [discriminate|].
    rewrite Hstep. destruct (_followers (heap st !!! self)) as [|[x|] rest];
      [contradiction|destruct (epilog E k x _); discriminate|discriminate].
  - intros k x rest st2 -> Hf Hx. rewrite Hstep, Hf, Hx. reflexivity.
Qed.

(** The theorem at [F] of the sample tree, after [L.gui = True]: the
    [epilog] of [F] raises once that of [G] is back, and so the [epilog] of
    the root [L] raises too. *)
Lemma epilog_fails_below_the_root_witness :
  _leader (heap Sample.gui_tree !!! Sample.F) = Some Sample.L /\
  _gui (heap Sample.gui_tree !!! Sample.F) = true /\
  _followers (heap Sample.gui_tree !!! Sample.F) <> [] /\
  (forall r st', epilog Sample.primary 10 Sample.F Sample.gui_tree <> Ok r st') /\
  (exists st2, epilog Sample.primary 10 Sample.F Sample.gui_tree
               = Raise UnboundLocalError st2) /\
  (exists st2, epilog Sample.primary 10 Sample.L Sample.gui_tree
               = Raise UnboundLocalError st2).
Proof.
  assert (Hp : _leader (heap Sample.gui_tree !!! Sample.F) = Some Sample.L)
    by (vm_compute; reflexivity).
  assert (Hg : _gui (heap Sample.gui_tree !!! Sample.F) = true)
    by (vm_compute; reflexivity).
  assert (Hf : _followers (heap Sample.gui_tree !!! Sample.F) = Some Sample.G :: [])
    by (vm_compute; reflexivity).
  assert (Hl : _followers (heap Sample.gui_tree !!! Sample.F) <> [])
    by (rewrite Hf; discriminate).
  destruct (epilog_fails_below_the_root Sample.primary 10 Sample.F Sample.L
              Sample.gui_tree Hp Hg Hl) as [Hnever Hraise].
  split; [exact Hp|]. split; [exact Hg|]. split; [exact Hl|]. split; [exact Hnever|].
  split.
  - eexists. apply (Hraise 9 Sample.G [] _ eq_refl Hf). vm_compute. reflexivity.
  - eexists. vm_compute. reflexivity.
Defined.

(** ** The payload *)

(** Assigning [data] and reading it back.  On an object that has its
    [_data], the setter returns, the getter then answers the value assigned,
    and nothing else of the store is changed; the line on the deletion is
    printed when the old value is not [None] (an empty one included) and
    the object is not silent.  On an object whose [_data] was deleted, as
    [destruct] leaves it, the setter raises an [AttributeError] at its first
    line and changes nothing. *)
Theorem data_setter_round_trip (E : Env) (self : ref) (v : option Data) (st : State) :
  (forall old, _data (heap st !!! self) = Bound old ->
     exists st',
       set_data E self v st = Ok tt st' /\
       read_data self st' = Ok v st' /\
       heap st' = <[self := with_data (Bound v) (heap st !!! self)]> (heap st) /\
       handlers st' = handlers st /\
       out st' = out st ++
                 (if bool_decide (old <> None) &&
                     negb (_silent (heap st !!! self) || rank_skip E)
                  then [Printed 0 MsgDeleteData] else [])) /\
  (_data (heap st !!! self) = Deleted ->
     set_data E self v st = Raise AttributeError st).
Proof.
  split.
  - intros old Hold. unfold set_data, bind at 1.
    unfold read_data at 1, bind at 1, node at 1. rewrite Hold. unfold ret at 1.
    destruct old as [d|].
    + unfold bind at 1, bind at 1, silent, bind at 1, node at 1, ret at 1.
      rewrite bool_decide_true by discriminate. cbn [andb].
      destruct (negb (_silent (heap st !!! self) || rank_skip E));
        cbn [when]; unfold bind at 1, emit, ret, del_data, bind, node, modify;
        cbn [heap handlers out]; rewrite Hold; cbn [heap handlers out];
        eexists; (split; [reflexivity|]); cbn [heap handlers out];
        unfold read_data, bind, node; cbn [heap];
        rewrite !lookup_total_insert_eq; cbn [_data with_data];
        rewrite ?insert_insert_eq, ?app_nil_r; repeat split.
    + unfold bind at 1, ret at 1, modify.
      rewrite bool_decide_false by (intros H; apply H; reflexivity). cbn [andb].
      eexists. split; [reflexivity|]. cbn [heap handlers out].
      unfold read_data, bind, node. cbn [heap].
      rewrite lookup_total_insert_eq, app_nil_r. cbn [_data with_data]. repeat split.
  - intros Hdel. unfold set_data, bind at 1, read_data, bind, node.
    rewrite Hdel. reflexivity.
Qed.

(** ** The search over the whole tree *)

(** Without a start node the search starts at the root. *)
Lemma getFollower_from_root (h : gmap nat Node) (fuel : nat) (self R : ref)
    (identifier : string) :
  root fuel h self = Some R ->
  getFollower fuel h self identifier
  = getFollowerDownwards fuel h self identifier (Some R).
Proof.
  intros HR. unfold getFollower. destruct fuel as [|k]; [reflexivity|].
  cbn [getFollowerDownwards]. rewrite HR.
  destruct (String.eqb (_identifier (h !!! self)) identifier); [reflexivity|].
  destruct (String.eqb (_identifier (h !!! R)) identifier) eqn:HidR.
  - reflexivity.
  - cbv beta iota. rewrite HidR. reflexivity.
Qed.

(** [getFollower] looks through the whole tree, not only below the node it
    is called on.  In a store whose leader links and lists are acyclic and
    in which a leader that is set lists the node, the search called on any
    node ends; it answers an object of the tree of the node's root that has
    the identifier, and it answers [None] only when no object of that tree
    has it. *)
Theorem search_spans_the_tree
    (h : gmap nat Node) (depth height : ref -> nat) (self : ref) (identifier : string) :
  Tree.leaders_acyclic h depth ->
  Tree.lists_acyclic h height ->
  Tree.integrity h ->
  exists R,
    _leader (h !!! R) = None /\ Tree.reaches h R self /\
    forall fuel, depth self < fuel -> height R < fuel ->
      exists r, getFollower fuel h self identifier = Some r /\
        match r with
        | Some x => Tree.reaches h R x /\ _identifier (h !!! x) = identifier
        | None => forall x, Tree.reaches h R x -> _identifier (h !!! x) <> identifier
        end.
Proof.
  intros Hup Hdown Hint.
  destruct (root_ends h depth Hup Hint (S (depth self)) self ltac:(lia))
    as (R & HR & HRroot & HRself).
  exists R. split; [exact HRroot|]. split; [exact HRself|].
  intros fuel Hd Hh.
  destruct (root_ends h depth Hup Hint fuel self Hd) as (R' & HR' & _ & _).
  assert (R' = R) by (eapply root_one_answer; eassumption). subst R'.
  destruct (String.eqb (_identifier (h !!! self)) identifier) eqn:Hid.
  - exists (Some self). split.
    + unfold getFollower. destruct fuel as [|k]; [lia|].
      cbn [getFollowerDownwards]. rewrite Hid. reflexivity.
    + split; [exact HRself|]. apply String.eqb_eq. exact Hid.
  - rewrite (getFollower_from_root h fuel self R identifier HR').
    apply (search_below h height self identifier Hdown); [|exact Hh].
    apply String.eqb_neq. exact Hid.
Qed.

(** The theorem on the sample tree: called on [G], two levels down, the
    search for ["C"] answers the cooperator [C] of the root. *)
Lemma search_spans_the_tree_witness :
  Tree.leaders_acyclic (heap Sample.tree) Sample.tree_depth /\
  Tree.lists_acyclic (heap Sample.tree) Sample.tree_height /\
  Tree.integrity (heap Sample.tree) /\
  (exists R,
    _leader (heap Sample.tree !!! R) = None /\
    Tree.reaches (heap Sample.tree) R Sample.G /\
    forall fuel, Sample.tree_depth Sample.G < fuel -> Sample.tree_height R < fuel ->
      exists r, getFollower fuel (heap Sample.tree) Sample.G "C" = Some r /\
        match r with
        | Some x => Tree.reaches (heap Sample.tree) R x /\
                    _identifier (heap Sample.tree !!! x) = "C"
        | None => forall x, Tree.reaches (heap Sample.tree) R x ->
                            _identifier (heap Sample.tree !!! x) <> "C"
        end) /\
  getFollower 10 (heap Sample.tree) Sample.G "C" = Some (Some Sample.C).
Proof.
  assert (Hint : Tree.integrity (heap Sample.tree)).
  { apply reachable_integrity, sample_tree_reachable. }
  split; [exact sample_tree_leaders|]. split; [exact sample_tree_lists|].
  split; [exact Hint|]. split.
  - exact (search_spans_the_tree (heap Sample.tree) Sample.tree_depth Sample.tree_height
             Sample.G "C" sample_tree_leaders sample_tree_lists Hint).
  - vm_compute. reflexivity.
Defined.

(** ** Levels *)

(** The count [treeLevel] starts from is added to what the loop counts. *)
Lemma treeLevel_loop_from (h : gmap nat Node) (fuel : nat) :
  forall p n, treeLevel_loop fuel h p n = (fun m => m + n) <$> treeLevel_loop fuel h p 0.
Proof.
  induction fuel as [|k IH]; intros p n; [reflexivity|].
  cbn [treeLevel_loop]. destruct p as [q|]; [|reflexivity].
  rewrite (IH _ (n + 1)), (IH _ (0 + 1)).
  destruct (treeLevel_loop k h (_leader (h !!! q)) 0) as [m|]; cbn; [f_equal; lia|reflexivity].
Qed.

(** [treeLevel] counts the links [root] walks.  With the same fuel the two
    end together; an object with a leader is one level below its leader and
    has its leader's root; the level is 0 exactly on an object without
    leader; and the object [root] answers is at level 0. *)
Theorem treeLevel_counts_the_way_to_the_root (h : gmap nat Node) (fuel : nat) (x : ref) :
  (is_Some (root fuel h x) <-> is_Some (treeLevel fuel h x)) /\
  (forall p, _leader (h !!! x) = Some p ->
     treeLevel (S fuel) h x = S <$> treeLevel fuel h p /\
     root (S fuel) h x = root fuel h p) /\
  (treeLevel fuel h x = Some 0 <-> 0 < fuel /\ isRoot h x = true) /\
  (forall R, root fuel h x = Some R ->
     isRoot h R = true /\ treeLevel fuel h R = Some 0).
Proof.
  assert (Hstep : forall k y p, _leader (h !!! y) = Some p ->
            treeLevel (S k) h y = S <$> treeLevel k h p).
  { intros k y p Hp. unfold treeLevel. rewrite Hp. cbn [treeLevel_loop].
    rewrite treeLevel_loop_from.
    destruct (treeLevel_loop k h (_leader (h !!! p)) 0) as [m|]; cbn;
      [f_equal; lia|reflexivity]. }
  assert (Htop : forall k y, _leader (h !!! y) = None -> treeLevel (S k) h y = Some 0).
  { intros k y Hy. unfold treeLevel. rewrite Hy. reflexivity. }
  split; [|split; [|split]].
  - revert x. induction fuel as [|k IH]; intros x.
    + split; intros [? H]; discriminate.
    + destruct (_leader (h !!! x)) as [p|] eqn:Hp.
      * rewrite (Hstep k x p Hp). cbn [root]. rewrite Hp. rewrite IH.
        destruct (treeLevel k h p); cbn; split; intros [? H]; eauto; discriminate.
      * rewrite (Htop k x Hp). cbn [root]. rewrite Hp. split; eauto.
  - intros p Hp. split; [apply Hstep, Hp|]. cbn [root]. rewrite Hp. reflexivity.
  - unfold isRoot. destruct fuel as [|k].
    + split; [discriminate|intros [H _]; lia].
    + destruct (_leader (h !!! x)) as [p|] eqn:Hp.
      * rewrite (Hstep k x p Hp). destruct (treeLevel k h p); cbn.
        -- split; [discriminate|intros [_ H]; discriminate].
        -- split; [discriminate|intros [_ H]; discriminate].
      * rewrite (Htop k x Hp). split; [intros _; split; [lia|reflexivity]|reflexivity].
  - revert x. induction fuel as [|k IH]; intros x R HR; [discriminate|].
    cbn [root] in HR. destruct (_leader (h !!! x)) as [p|] eqn:Hp.
    + destruct (IH p R HR) as [Hroot Hlvl]. split; [exact Hroot|].
      unfold isRoot in Hroot. destruct (_leader (h !!! R)) eqn:HRl; [discriminate|].
      apply Htop, HRl.
    + injection HR as <-. unfold isRoot. rewrite Hp. split; [reflexivity|].
      apply Htop, Hp.
Qed.

(** ** A whole call *)

Lemma keeps_assign_followers (I : State -> Prop) (self : ref) (f : Node -> Node) :
  (forall n, keeps I (modify n f)) -> keeps I (assign_followers self f).
Proof.
  intros Hmod. unfold assign_followers.
  apply keeps_bind; [apply keeps_node|intros nd].
  apply keeps_for_each. intros [x|]; [apply Hmod|apply keeps_raise].
Qed.

Lemma keeps_warn (I : State -> Prop) (E : Env) (self : ref) (msg : message) :
  on_heap I -> keeps I (warn E self msg).
Proof.
  intros HI. unfold warn.
  apply keeps_bind; [apply keeps_silent|intros s].
  apply keeps_bind; [apply keeps_when, keeps_emit, HI|intros _].
  apply keeps_bind; [apply keeps_node|intros nd].
  apply keeps_bind; [apply keeps_when, keeps_emit, HI|intros _].
  apply keeps_emit, HI.
Qed.

Lemma keeps_set_gui (I : State -> Prop) (E : Env) (self : ref) (v : bool) :
  on_heap I -> (forall n b, keeps I (modify n (with_gui b))) ->
  keeps I (set_gui E self v).
Proof.
  intros HI Hmod. unfold set_gui. apply keeps_bind.
  { destruct (tkinter_loaded E); [apply keeps_ret|].
    apply keeps_bind; [apply keeps_warn, HI|intros _; apply keeps_ret]. }
  intros b. apply keeps_bind; [apply Hmod|intros _].
  apply keeps_assign_followers. intros n. apply Hmod.
Qed.

Lemma prolog_keeps (I : State -> Prop) (E : Env) (fuel : nat) (self : ref) :
  on_heap I ->
  (forall n b, keeps I (modify n (with_gui b))) ->
  (forall n b, keeps I (modify n (with_silent b))) ->
  keeps I (prolog E fuel self).
Proof.
  intros HI Hgui Hsil. unfold prolog.
  apply keeps_bind; [apply keeps_emit, HI|intros _].
  apply keeps_bind; [apply keeps_node|intros nd].
  destruct (has "-h" (_argv nd) || has "--help" (_argv nd)).
  { apply keeps_bind; [apply keeps_emit, HI|intros _; apply keeps_raise]. }
  apply keeps_bind.
  { destruct (bool_decide _); [|apply keeps_ret].
    apply keeps_bind; [apply keeps_set_gui; assumption|intros _]. apply Hsil. }
  intros _. apply keeps_bind.
  { intros st Hst. destruct (handlers st); [exact Hst|].
    cbn. eapply HI; [| |exact Hst]; [reflexivity|].
    exists []. cbn [out]. rewrite app_nil_r. reflexivity. }
  intros _. apply keeps_bind; [apply keeps_gets|intros r].
  apply keeps_when. apply keeps_bind; [apply keeps_node|intros nd'].
  apply keeps_bind; [apply keeps_write, HI|intros _].
  apply keeps_bind; [apply keeps_write, HI|intros _].
  apply keeps_bind; [apply keeps_write, HI|intros _].
  apply keeps_write, HI.
Qed.

Lemma keeps_exec_time (I : State -> Prop) (E : Env) (fuel : nat) (self : ref)
    (occ : occasion) :
  on_heap I -> keeps I (exec_time E fuel self occ).
Proof.
  intros HI. unfold exec_time.
  apply keeps_bind; [apply keeps_gets|intros r].
  apply keeps_when, keeps_when, keeps_write, HI.
Qed.

Lemma control_keeps (I : State -> Prop) (E : Env) (fuel : nat) (self : ref) :
  on_heap I ->
  (forall n, keeps I (modify n (with_taskDone true))) ->
  keeps I (control E fuel self).
Proof.
  intros HI Hmod. unfold control.
  apply keeps_bind; [apply keeps_emit, HI|intros _].
  apply keeps_bind; [apply keeps_exec_time, HI|intros _].
  apply keeps_bind; [apply keeps_gets|intros r].
  apply keeps_bind; [apply keeps_when, keeps_write, HI|intros _].
  apply keeps_bind; [apply task_keeps; assumption|intros res].
  apply keeps_bind; [apply keeps_exec_time, HI|intros _].
  apply keeps_bind; [apply keeps_write, HI|intros _]. apply keeps_ret.
Qed.

(** [Base.task] answers 0.0. *)
Lemma task_result (E : Env) (fuel : nat) (self : ref) (st st' : State) (r : float) :
  task E fuel self st = Ok r st' -> r = 0%float.
Proof.
  destruct fuel as [|k]; [discriminate|]. cbn [task]. intros Hrun.
  apply bind_Ok_inv in Hrun as ([] & s1 & _ & Hrun).
  apply bind_Ok_inv in Hrun as ([] & s2 & _ & Hrun).
  apply bind_Ok_inv in Hrun as ([] & s3 & _ & Hrun).
  apply bind_Ok_inv in Hrun as ([] & s4 & _ & Hrun).
  injection Hrun as <- _. reflexivity.
Qed.

(** [control] is [task] between written lines. *)
Lemma control_task (E : Env) (fuel : nat) (self : ref) (st st' : State) (r : float) :
  control E fuel self st = Ok r st' ->
  exists s1 s2, heap s1 = heap st /\ task E fuel self s1 = Ok r s2 /\ heap st' = heap s2.
Proof.
  unfold control. intros Hrun.
  assert (Hsame : forall (c : M unit) s s',
            keeps (fun x => heap x = heap s) c -> c s = Ok tt s' -> heap s' = heap s).
  { intros c s s' Hk Hc. exact (keeps_Ok _ c s s' tt Hk eq_refl Hc). }
  assert (Hon : forall s, on_heap (fun x => heap x = heap s)).
  { intros s x x' Hh _ Hx. congruence. }
  apply bind_Ok_inv in Hrun as ([] & s1 & H1 & Hrun).
  apply Hsame in H1; [|apply keeps_emit, Hon].
  apply bind_Ok_inv in Hrun as ([] & s2 & H2 & Hrun).
  apply Hsame in H2; [|apply keeps_exec_time, Hon].
  apply bind_Ok_inv in Hrun as (root & s3 & [= <- <-] & Hrun).
  apply bind_Ok_inv in Hrun as ([] & s4 & H4 & Hrun).
  apply Hsame in H4; [|apply keeps_when, keeps_write, Hon].
  apply bind_Ok_inv in Hrun as (res & s5 & H5 & Hrun).
  apply bind_Ok_inv in Hrun as ([] & s6 & H6 & Hrun).
  apply Hsame in H6; [|apply keeps_exec_time, Hon].
  apply bind_Ok_inv in Hrun as ([] & s7 & H7 & Hrun).
  apply Hsame in H7; [|apply keeps_write, Hon].
  injection Hrun as <- <-.
  exists s4, s5. split; [congruence|]. split; [exact H5|congruence].
Qed.

(** When [prolog] returns, [_silent] is what the command line says if there
    is one, and what it was otherwise. *)
Lemma prolog_silent (E : Env) (fuel : nat) (self : ref) (st st' : State) :
  prolog E fuel self st = Ok tt st' ->
  _silent (heap st' !!! self)
  = let argv := _argv (heap st !!! self) in
    if bool_decide (1 < length argv) then has "-s" argv || has "--silent" argv
    else _silent (heap st !!! self).
Proof.
  unfold prolog. intros Hrun. cbv zeta.
  assert (Hon : forall v, on_heap (fun x => _silent (heap x !!! self) = v)).
  { intros v x x' Hh _ Hx. rewrite Hh. exact Hx. }
  apply bind_Ok_inv in Hrun as ([] & s1 & [= <-] & Hrun).
  apply bind_Ok_inv in Hrun as (nd & s2 & [= <- <-] & Hrun). cbn [heap] in Hrun.
  destruct (has "-h" _ || has "--help" _).
  { apply bind_Ok_inv in Hrun as ([] & s & _ & Hrun). discriminate. }
  apply bind_Ok_inv in Hrun as ([] & s3 & H3 & Hrun).
  assert (Hs3 : _silent (heap s3 !!! self)
                = if bool_decide (1 < length (_argv (heap st !!! self)))
                  then has "-s" (_argv (heap st !!! self)) ||
                       has "--silent" (_argv (heap st !!! self))
                  else _silent (heap st !!! self)).
  { destruct (bool_decide _).
    - apply bind_Ok_inv in H3 as ([] & s & _ & H3). injection H3 as <-.
      rewrite lookup_modify, decide_True by reflexivity. reflexivity.
    - injection H3 as <-. reflexivity. }
  rewrite <- Hs3. clear Hs3 H3.
  refine (keeps_Ok (fun x => _silent (heap x !!! self) = _silent (heap s3 !!! self))
            _ s3 st' tt _ eq_refl Hrun).
  apply keeps_bind.
  { intros x Hx. destruct (handlers x); [exact Hx|]. cbn. exact Hx. }
  intros _. apply keeps_bind; [apply keeps_gets|intros r].
  apply keeps_when. apply keeps_bind; [apply keeps_node|intros nd'].
  apply keeps_bind; [apply keeps_write, Hon|intros _].
  apply keeps_bind; [apply keeps_write, Hon|intros _].
  apply keeps_bind; [apply keeps_write, Hon|intros _].
  apply keeps_write, Hon.
Qed.

(** When [epilog] returns, the logger has no handler. *)
Lemma epilog_handlers (E : Env) (fuel : nat) (self : ref) (st st' : State) :
  epilog E fuel self st = Ok tt st' -> handlers st' = false.
Proof.
  destruct fuel as [|k]; [discriminate|]. cbn [epilog]. intros Hrun.
  apply bind_Ok_inv in Hrun as ([] & s1 & _ & Hrun).
  apply bind_Ok_inv in Hrun as (r & s2 & _ & Hrun).
  apply bind_Ok_inv in Hrun as ([] & s3 & _ & Hrun).
  apply bind_Ok_inv in Hrun as (nd & s4 & _ & Hrun).
  apply bind_Ok_inv in Hrun as ([] & s5 & _ & Hrun).
  cbv beta in Hrun. destruct (handlers s5) eqn:Hh.
  - injection Hrun as <-. reflexivity.
  - injection Hrun as <-. exact Hh.
Qed.

(** A call on the primary rank.  When it returns, it returns 0.0, the answer
    of [Base.task]; the three phases have run on the node and on everything
    below it; [_silent] of the node is what the command line says when
    there are arguments, the keyword [silent] being overruled, and else the
    keyword or, without it, the value it had; the lists are as they were
    and the logger has lost its handler. *)
Theorem call_runs_the_phases
    (E : Env) (fuel : nat) (self : ref) (kwargs : Kwargs) (st st' : State) (r : float) :
  rank_skip E = false ->
  call E fuel self kwargs st = Ok r st' ->
  r = 0%float /\
  (forall y, Tree.reaches (heap st) self y ->
     _preDone (heap st' !!! y) = true /\
     _taskDone (heap st' !!! y) = true /\
     _postDone (heap st' !!! y) = true) /\
  _silent (heap st' !!! self)
  = (let argv := _argv (heap st !!! self) in
     if bool_decide (1 < length argv) then has "-s" argv || has "--silent" argv
     else default (_silent (heap st !!! self)) (kw_silent kwargs)) /\
  (forall x, _followers (heap st' !!! x) = _followers (heap st !!! x)) /\
  handlers st' = false.
Proof.
  intros Hrank Hrun. unfold call in Hrun. rewrite Hrank in Hrun.
  set (F := fun x => _followers (heap st !!! x)).
  assert (HF : lists_are F st) by (intros x; reflexivity).
  apply bind_Ok_inv in Hrun as (s & s0 & [= <- <-] & Hrun).
  apply bind_Ok_inv in Hrun as ([] & s1 & [= <-] & Hrun).
  apply bind_Ok_inv in Hrun as ([] & s2 & Hprolog & Hrun).
  apply bind_Ok_inv in Hrun as (b & s3 & Hpre & Hrun).
  apply bind_Ok_inv in Hrun as (res & s4 & Hcontrol & Hrun).
  apply bind_Ok_inv in Hrun as (b' & s5 & Hpost & Hrun).
  apply bind_Ok_inv in Hrun as ([] & s6 & Hepilog & Hrun).
  injection Hrun as <- <-.
  set (st1 := mkState (<[self := with_silent
                                   (default (_silent (heap st !!! self) || rank_skip E)
                                            (kw_silent kwargs)) (heap st !!! self)]>
                         (heap st)) (handlers st) (out st)) in *.
  assert (H1 : lists_are F st1).
  { refine (keeps_Ok _ (modify self (with_silent _)) st st1 tt _ HF eq_refl).
    apply lists_are_modify. reflexivity. }
  assert (H2 : lists_are F s2).
  { refine (keeps_Ok _ _ st1 s2 tt _ H1 Hprolog).
    apply prolog_keeps; [apply lists_are_on_heap| |];
      intros n v; apply lists_are_modify; reflexivity. }
  assert (H3 : lists_are F s3).
  { refine (keeps_Ok _ _ s2 s3 b _ H2 Hpre).
    apply pre_keeps; [apply lists_are_on_heap|].
    intros n; apply lists_are_modify; reflexivity. }
  destruct (control_task E fuel self s3 s4 res Hcontrol) as (t1 & t2 & Ht1 & Htask & Ht2).
  assert (Hl1 : lists_are F t1) by (intros x; rewrite Ht1; apply H3).
  assert (Hl2 : lists_are F t2).
  { refine (keeps_Ok _ _ t1 t2 res _ Hl1 Htask).
    apply task_keeps; [apply lists_are_on_heap|].
    intros n; apply lists_are_modify; reflexivity. }
  assert (H4 : lists_are F s4) by (intros x; rewrite Ht2; apply Hl2).
  assert (H5 : lists_are F s5).
  { refine (keeps_Ok _ _ s4 s5 b' _ H4 Hpost).
    apply post_keeps; [apply lists_are_on_heap|].
    intros n; apply lists_are_modify; reflexivity. }
  pose proof (epilog_heap E fuel self s5 tt s6 Hepilog) as H6.
  split; [exact (task_result E fuel self t1 t2 res Htask)|].
  split; [|split; [|split]].
  - intros y Hy. rewrite H6.
    assert (Hpre3 : flagged _preDone y s3)
      by exact (pre_marks E (heap st) fuel self s2 b s3 H2 Hpre y Hy).
    assert (Htask2 : flagged _taskDone y t2)
      by exact (task_marks E (heap st) fuel self t1 res t2 Hl1 Htask y Hy).
    assert (Hpost5 : flagged _postDone y s5)
      by exact (post_marks E (heap st) fuel self s4 b' s5 H4 Hpost y Hy).
    assert (Hpre4 : flagged _preDone y s4).
    { refine (keeps_Ok _ _ s3 s4 res _ Hpre3 Hcontrol).
      apply control_keeps; [apply flagged_on_heap|].
      intros n; apply flagged_modify; intros nd H; exact H. }
    assert (Htask4 : flagged _taskDone y s4) by (unfold flagged; rewrite Ht2; exact Htask2).
    split; [|split].
    + refine (keeps_Ok _ _ s4 s5 b' _ Hpre4 Hpost).
      apply post_keeps; [apply flagged_on_heap|].
      intros n; apply flagged_modify; intros nd H; exact H.
    + refine (keeps_Ok _ _ s4 s5 b' _ Htask4 Hpost).
      apply post_keeps; [apply flagged_on_heap|].
      intros n; apply flagged_modify; intros nd H; exact H.
    + exact Hpost5.
  - rewrite H6.
    set (v := _silent (heap s2 !!! self)).
    assert (Hv : flagged (fun n => Bool.eqb (_silent n) v) self s5).
    { assert (Hv2 : flagged (fun n => Bool.eqb (_silent n) v) self s2)
        by (unfold flagged, v; apply Bool.eqb_reflx).
      assert (Hv3 : flagged (fun n => Bool.eqb (_silent n) v) self s3).
      { refine (keeps_Ok _ _ s2 s3 b _ Hv2 Hpre).
        apply pre_keeps; [apply flagged_on_heap|].
        intros n; apply flagged_modify; intros nd H; exact H. }
      assert (Hv4 : flagged (fun n => Bool.eqb (_silent n) v) self s4).
      { refine (keeps_Ok _ _ s3 s4 res _ Hv3 Hcontrol).
        apply control_keeps; [apply flagged_on_heap|].
        intros n; apply flagged_modify; intros nd H; exact H. }
      refine (keeps_Ok _ _ s4 s5 b' _ Hv4 Hpost).
      apply post_keeps; [apply flagged_on_heap|].
      intros n; apply flagged_modify; intros nd H; exact H. }
    unfold flagged in Hv. apply Bool.eqb_prop in Hv. rewrite Hv. unfold v.
    rewrite (prolog_silent E fuel self st1 s2 Hprolog). unfold st1.
    rewrite lookup_modify, decide_True by reflexivity.
    rewrite Hrank, orb_false_r. reflexivity.
  - intros x. rewrite H6. apply H5.
  - exact (epilog_handlers E fuel self s5 s6 Hepilog).
Qed.

(** The theorem at the call on the sample tree. *)
Lemma call_runs_the_phases_witness :
  exists st',
    rank_skip Sample.primary = false /\
    call Sample.primary 10 Sample.L (mkKwargs (Some true)) Sample.tree = Ok 0%float st' /\
    _silent (heap st' !!! Sample.L) = true /\
    _postDone (heap st' !!! Sample.G) = true /\
    handlers st' = false.
Proof.
  eexists.
  assert (Hrun : call Sample.primary 10 Sample.L (mkKwargs (Some true)) Sample.tree
                 = Ok 0%float
                     (Sample.after (call Sample.primary 10 Sample.L (mkKwargs (Some true)))
                        Sample.tree)).
  { vm_compute. reflexivity. }
  split; [reflexivity|]. split; [exact Hrun|].
  destruct (call_runs_the_phases Sample.primary 10 Sample.L (mkKwargs (Some true))
              Sample.tree _ 0%float eq_refl Hrun) as (_ & Hdone & Hsilent & _ & Hh).
  split; [rewrite Hsilent; vm_compute; reflexivity|]. split; [|exact Hh].
  apply Hdone.
  apply (Tree.reaches_below _ _ Sample.F).
  - unfold Tree.lists. rewrite sample_tree_nodes. apply elem_of_cons. left. reflexivity.
  - apply (Tree.reaches_below _ _ Sample.G); [|constructor].
    unfold Tree.lists. rewrite sample_tree_nodes. apply elem_of_cons. left. reflexivity.
Defined.

(** ** The call and the rank *)

Lemma keeps_final {A} (I : State -> Prop) (c : M A) (st st' : State) :
  keeps I c -> I st -> final (c st) = Some st' -> I st'.
Proof. intros Hk Hst Hrun. specialize (Hk st Hst). rewrite Hrun in Hk. exact Hk. Qed.

(** What holds once [prolog] has recorded its entry holds when it ends. *)
Lemma prolog_from_entry (I : State -> Prop) (E : Env) (fuel : nat) (self : ref)
    (st : State) :
  on_heap I ->
  (forall n b, keeps I (modify n (with_gui b))) ->
  (forall n b, keeps I (modify n (with_silent b))) ->
  I (mkState (heap st) (handlers st) (out st ++ [Enter self m_prolog])) ->
  match final (prolog E fuel self st) with
  | Some st' => I st'
  | None => True
  end.
Proof.
  intros HI Hgui Hsil H. unfold prolog. unfold bind at 1, emit at 1. cbv beta iota.
  revert H. generalize (mkState (heap st) (handlers st) (out st ++ [Enter self m_prolog])).
  apply keeps_bind; [apply keeps_node|intros nd].
  destruct (has "-h" (_argv nd) || has "--help" (_argv nd)).
  { apply keeps_bind; [apply keeps_emit, HI|intros _; apply keeps_raise]. }
  apply keeps_bind.
  { destruct (bool_decide _); [|apply keeps_ret].
    apply keeps_bind; [apply keeps_set_gui; assumption|intros _]. apply Hsil. }
  intros _. apply keeps_bind.
  { intros s Hs. destruct (handlers s); [exact Hs|].
    cbn. eapply HI; [| |exact Hs]; [reflexivity|].
    exists []. cbn [out]. rewrite app_nil_r. reflexivity. }
  intros _. apply keeps_bind; [apply keeps_gets|intros r].
  apply keeps_when. apply keeps_bind; [apply keeps_node|intros nd'].
  apply keeps_bind; [apply keeps_write, HI|intros _].
  apply keeps_bind; [apply keeps_write, HI|intros _].
  apply keeps_bind; [apply keeps_write, HI|intros _].
  apply keeps_write, HI.
Qed.

(** Each phase that returns has recorded its entry. *)
Lemma pre_enters (E : Env) (fuel : nat) (self : ref) (st st' : State) (b : bool)
    (N : nat) :
  pre E fuel self st = Ok b st' -> longer N st -> entered N (Enter self m_pre) st'.
Proof.
  intros Hrun Hs.
  pose proof (pre_from_entry (entered N (Enter self m_pre)) E fuel self st
                (entered_on_heap _ _) (fun n => entered_modify _ _ n _)
                (entered_emit _ _ st Hs)) as Hk.
  rewrite Hrun in Hk. exact Hk.
Qed.

Lemma task_enters (E : Env) (fuel : nat) (self : ref) (st st' : State) (r : float)
    (N : nat) :
  task E fuel self st = Ok r st' -> longer N st -> entered N (Enter self m_task) st'.
Proof.
  intros Hrun Hs. destruct fuel as [|k]; [discriminate|]. cbn [task] in Hrun.
  apply bind_Ok_inv in Hrun as ([] & s1 & [= <-] & Hrest).
  refine (keeps_Ok _ _ _ _ _ _ (entered_emit N _ st Hs) Hrest).
  pose proof (entered_on_heap N (Enter self m_task)) as HI.
  apply keeps_bind.
  { apply keeps_over_followers; [exact HI|]. intros x.
    apply keeps_bind; [|intros _; apply keeps_ret].
    apply task_keeps; [exact HI|intros n; apply entered_modify]. }
  intros _. apply keeps_bind; [apply keeps_phase_line, HI|intros _].
  apply keeps_bind; [apply entered_modify|intros _; apply keeps_ret].
Qed.

Lemma post_enters (E : Env) (fuel : nat) (self : ref) (st st' : State) (b : bool)
    (N : nat) :
  post E fuel self st = Ok b st' -> longer N st -> entered N (Enter self m_post) st'.
Proof.
  intros Hrun Hs. destruct fuel as [|k]; [discriminate|]. cbn [post] in Hrun.
  apply bind_Ok_inv in Hrun as ([] & s1 & [= <-] & Hrest).
  refine (keeps_Ok _ _ _ _ _ _ (entered_emit N _ st Hs) Hrest).
  pose proof (entered_on_heap N (Enter self m_post)) as HI.
  apply keeps_bind.
  { apply keeps_over_followers; [exact HI|]. intros x.
    apply keeps_bind; [|intros _; apply keeps_ret].
    apply post_keeps; [exact HI|intros n; apply entered_modify]. }
  intros _. apply keeps_bind; [apply keeps_phase_line, HI|intros _].
  apply keeps_bind; [apply keeps_read_data|intros d].
  apply keeps_bind.
  { destruct d; [apply keeps_ret|].
    apply keeps_bind; [apply keeps_emit, HI|intros _; apply keeps_ret]. }
  intros ok. apply keeps_bind; [apply entered_modify|intros _; apply keeps_ret].
Qed.

Lemma epilog_enters (E : Env) (fuel : nat) (self : ref) (st st' : State) (N : nat) :
  epilog E fuel self st = Ok tt st' -> longer N st ->
  entered N (Enter self m_epilog) st'.
Proof.
  intros Hrun Hs. destruct fuel as [|k]; [discriminate|]. cbn [epilog] in Hrun.
  apply bind_Ok_inv in Hrun as ([] & s1 & [= <-] & Hrest).
  refine (keeps_Ok _ _ _ _ _ _ (entered_emit N _ st Hs) Hrest).
  pose proof (entered_on_heap N (Enter self m_epilog)) as HI.
  apply keeps_bind; [apply keeps_gets|intros r].
  apply keeps_bind.
  { apply keeps_when. apply keeps_bind; [|intros _; apply keeps_write, HI].
    apply keeps_when, keeps_write, HI. }
  intros _. apply keeps_bind; [apply keeps_node|intros nd].
  apply keeps_bind.
  { apply keeps_for_each. intros [x|]; [|apply keeps_raise].
    apply keeps_bind; [apply epilog_keeps, HI|intros _].
    apply keeps_bind; [apply keeps_node|intros me].
    destruct (_gui me); [|apply keeps_ret].
    destruct r; [apply keeps_emit, HI|apply keeps_raise]. }
  intros _ s H. destruct (handlers s); [|exact H].
  cbn. eapply HI; [| |exact H]; [reflexivity|]. eexists. reflexivity.
Qed.

Lemma control_enters (E : Env) (fuel : nat) (self : ref) (st st' : State) (r : float)
    (N : nat) :
  control E fuel self st = Ok r st' -> longer N st ->
  entered N (Enter self m_control) st' /\ entered N (Enter self m_task) st'.
Proof.
  unfold control. intros Hrun Hs.
  assert (Hgo : forall (I : State -> Prop) (c : M unit) s s',
            keeps I c -> c s = Ok tt s' -> I s -> I s').
  { intros I c s s' Hk Hc H. exact (keeps_Ok I c s s' tt Hk H Hc). }
  apply bind_Ok_inv in Hrun as ([] & s1 & [= <-] & Hrun).
  apply bind_Ok_inv in Hrun as ([] & s2 & H2 & Hrun).
  apply bind_Ok_inv in Hrun as (root & s3 & [= <- <-] & Hrun).
  apply bind_Ok_inv in Hrun as ([] & s4 & H4 & Hrun).
  apply bind_Ok_inv in Hrun as (res & s5 & H5 & Hrun).
  apply bind_Ok_inv in Hrun as ([] & s6 & H6 & Hrun).
  apply bind_Ok_inv in Hrun as ([] & s7 & H7 & Hrun).
  injection Hrun as _ <-.
  assert (Hup : forall I : State -> Prop, on_heap I ->
            I (mkState (heap st) (handlers st) (out st ++ [Enter self m_control])) ->
            I s4).
  { intros I HI H.
    apply (Hgo I _ _ _ (keeps_when I _ _ (keeps_write I E fuel self _ HI)) H4).
    apply (Hgo I _ _ _ (keeps_exec_time I E fuel self _ HI) H2). exact H. }
  assert (Hdown : forall I : State -> Prop, on_heap I -> I s5 -> I s7).
  { intros I HI H.
    apply (Hgo I _ _ _ (keeps_write I E fuel self _ HI) H7).
    apply (Hgo I _ _ _ (keeps_exec_time I E fuel self _ HI) H6). exact H. }
  assert (Hl4 : longer N s4).
  { apply Hup; [apply longer_on_heap|].
    unfold longer in *. cbn [out]. rewrite length_app. lia. }
  split; apply Hdown; try apply entered_on_heap.
  - refine (keeps_Ok _ _ s4 s5 res _ _ H5).
    + apply task_keeps; [apply entered_on_heap|intros n; apply entered_modify].
    + apply Hup; [apply entered_on_heap|]. apply entered_emit, Hs.
  - exact (task_enters E fuel self s4 s5 res N H5 Hl4).
Qed.

(** Without the key ['parallel'] in [sys.modules] the guard of [__call__]
    is off, whatever the rank. *)
Lemma rank_skip_needs_key (E : Env) : parallel_loaded E = false -> rank_skip E = false.
Proof. intros H. unfold rank_skip. rewrite H. reflexivity. Qed.

(** C3.  The call skips the model only under the key ['parallel'].  With
    ['parallel'] in [sys.modules] and a rank that is not zero, the call
    returns -1.0 at once and the state is the one it started from: no
    method was entered, nothing was written, no object was changed.
    Without that key, as after [import grayboxes.parallel as parallel], the
    rank is not looked at: every call that ends has entered [prolog], and
    one that returns hands back 0.0, the answer of [Base.task], after
    [prolog], [pre], [control], [task], [post] and [epilog] were entered on
    the node.  On rank 1 the call on the root of the sample tree returns
    -1.0 and leaves the state alone when the key is there; when it is not,
    the same call returns 0.0, with the six methods entered, the flags of
    the phases set and lines printed. *)
Theorem call_skip_needs_the_key_parallel :
  (forall (E : Env) (fuel : nat) (self : ref) (kwargs : Kwargs) (st : State) (r : Z),
      parallel_loaded E = true -> mpi_rank E = Some r -> r <> 0%Z ->
      call E fuel self kwargs st = Ok (-1)%float st) /\
  (forall (E : Env) (fuel : nat) (self : ref) (kwargs : Kwargs) (st : State),
      parallel_loaded E = false ->
      (forall st', final (call E fuel self kwargs st) = Some st' ->
         Enter self m_prolog ∈ drop (length (out st)) (out st')) /\
      (forall res st', call E fuel self kwargs st = Ok res st' ->
         res = 0%float /\
         Forall (fun m => Enter self m ∈ drop (length (out st)) (out st'))
                [m_prolog; m_pre; m_control; m_task; m_post; m_epilog])) /\
  (call Sample.worker 10 Sample.L (mkKwargs None) Sample.tree
   = Ok (-1)%float Sample.tree /\
   parallel_loaded Sample.packaged = false /\
   mpi_rank Sample.packaged = Some 1%Z /\
   exists st',
     call Sample.packaged 10 Sample.L (mkKwargs None) Sample.tree = Ok 0%float st' /\
     Forall (fun m => Enter Sample.L m ∈ out st')
            [m_prolog; m_pre; m_control; m_task; m_post; m_epilog] /\
     _preDone (heap st' !!! Sample.L) = true /\
     _taskDone (heap st' !!! Sample.L) = true /\
     _postDone (heap st' !!! Sample.L) = true /\
     _preDone (heap Sample.tree !!! Sample.L) = false /\
     Printed 0 MsgPreProcessing ∈ out st' /\
     out Sample.tree = []).
Proof.
  split; [|split].
  - intros E fuel self kwargs st r Hp Hr Hnz. unfold call, rank_skip. rewrite Hp, Hr.
    replace (r =? 0)%Z with false by (symmetry; apply Z.eqb_neq; exact Hnz).
    reflexivity.
  - intros E fuel self kwargs st Hp. apply rank_skip_needs_key in Hp.
    set (N := length (out st)).
    set (s1 := mkState (<[self := with_silent
                                    (default (_silent (heap st !!! self) || rank_skip E)
                                             (kw_silent kwargs)) (heap st !!! self)]>
                          (heap st)) (handlers st) (out st)).
    assert (Hl1 : longer N s1) by (unfold longer, N, s1; cbn [out]; lia).
    assert (Hcall : call E fuel self kwargs st
                    = (prolog E fuel self;;
                       pre E fuel self;;
                       do res <- control E fuel self;
                       post E fuel self;;
                       epilog E fuel self;;
                       ret res) s1).
    { unfold call. rewrite Hp. reflexivity. }
    rewrite Hcall. clear Hcall.
    assert (Hphases : forall I : State -> Prop, on_heap I ->
              (forall n f, keeps I (modify n f)) ->
              forall a : unit,
                keeps I ((fun _ : unit =>
                            pre E fuel self;;
                            do res <- control E fuel self;
                            post E fuel self;;
                            epilog E fuel self;;
                            ret res) a)).
    { intros I HI Hmod _. cbv beta.
      apply keeps_bind; [apply pre_keeps; [exact HI|intros n; apply Hmod]|intros _].
      apply keeps_bind; [apply control_keeps; [exact HI|intros n; apply Hmod]|intros res].
      apply keeps_bind; [apply post_keeps; [exact HI|intros n; apply Hmod]|intros _].
      apply keeps_bind; [apply epilog_keeps, HI|intros _; apply keeps_ret]. }
    split.
    + intros st'. unfold bind at 1.
      pose proof (prolog_from_entry (entered N (Enter self m_prolog)) E fuel self s1
                    (entered_on_heap _ _) (fun n b => entered_modify _ _ n _)
                    (fun n b => entered_modify _ _ n _)
                    (entered_emit _ _ s1 Hl1)) as Hk.
      destruct (prolog E fuel self s1) as [[] s2|e s2|]; cbn [final] in *.
      * intros Hend.
        refine (keeps_final (entered N (Enter self m_prolog)) _ s2 st' _ Hk Hend).
        apply (Hphases _ (entered_on_heap _ _) (fun n f => entered_modify _ _ n f) tt).
      * intros [= <-]. exact Hk.
      * discriminate.
    + intros res st' Hrun.
      apply bind_Ok_inv in Hrun as ([] & s2 & Hprolog & Hrun).
      apply bind_Ok_inv in Hrun as (b & s3 & Hpre & Hrun).
      apply bind_Ok_inv in Hrun as (res' & s4 & Hcontrol & Hrun).
      apply bind_Ok_inv in Hrun as (b' & s5 & Hpost & Hrun).
      apply bind_Ok_inv in Hrun as ([] & s6 & Hepilog & Hrun).
      injection Hrun as <- <-.
      assert (Hmod : forall (I : State -> Prop) (n : ref) (f : Node -> Node),
                (I = longer N \/ exists e, I = entered N e) -> keeps I (modify n f)).
      { intros I n f [->|[e ->]]; [apply longer_modify|apply entered_modify]. }
      assert (Hon : forall I : State -> Prop,
                (I = longer N \/ exists e, I = entered N e) -> on_heap I).
      { intros I [->|[e ->]]; [apply longer_on_heap|apply entered_on_heap]. }
      assert (H23 : forall I : State -> Prop,
                (I = longer N \/ exists e, I = entered N e) -> I s2 -> I s3).
      { intros I HI H. refine (keeps_Ok I _ s2 s3 b _ H Hpre).
        apply pre_keeps; [apply Hon, HI|intros n; apply Hmod, HI]. }
      assert (H34 : forall I : State -> Prop,
                (I = longer N \/ exists e, I = entered N e) -> I s3 -> I s4).
      { intros I HI H. refine (keeps_Ok I _ s3 s4 res' _ H Hcontrol).
        apply control_keeps; [apply Hon, HI|intros n; apply Hmod, HI]. }
      assert (H45 : forall I : State -> Prop,
                (I = longer N \/ exists e, I = entered N e) -> I s4 -> I s5).
      { intros I HI H. refine (keeps_Ok I _ s4 s5 b' _ H Hpost).
        apply post_keeps; [apply Hon, HI|intros n; apply Hmod, HI]. }
      assert (H56 : forall I : State -> Prop,
                (I = longer N \/ exists e, I = entered N e) -> I s5 -> I s6).
      { intros I HI H. refine (keeps_Ok I _ s5 s6 tt _ H Hepilog).
        apply epilog_keeps, Hon, HI. }
      assert (Hl2 : longer N s2).
      { refine (keeps_Ok _ _ s1 s2 tt _ Hl1 Hprolog).
        apply prolog_keeps; [apply longer_on_heap| |]; intros n v; apply longer_modify. }
      pose proof (H23 _ (or_introl eq_refl) Hl2) as Hl3.
      pose proof (H34 _ (or_introl eq_refl) Hl3) as Hl4.
      pose proof (H45 _ (or_introl eq_refl) Hl4) as Hl5.
      destruct (control_enters E fuel self s3 s4 res' N Hcontrol Hl3) as [Hc Ht].
      split.
      { destruct (control_task _ _ _ _ _ _ Hcontrol) as (sa & sb & _ & Htask & _).
        exact (task_result _ _ _ _ _ _ Htask). }
      assert (Hall : forall e, e ∈ [Enter self m_prolog; Enter self m_pre;
                                    Enter self m_control; Enter self m_task;
                                    Enter self m_post; Enter self m_epilog] ->
                              entered N e s6).
      { intros e He.
        assert (Hi : entered N e = longer N \/ exists e', entered N e = entered N e')
          by (right; eexists; reflexivity).
        repeat (apply elem_of_cons in He as [->|He]).
        - apply (H56 _ Hi), (H45 _ Hi), (H34 _ Hi), (H23 _ Hi).
          pose proof (prolog_from_entry (entered N (Enter self m_prolog)) E fuel self s1
                        (entered_on_heap _ _) (fun n v => entered_modify _ _ n _)
                        (fun n v => entered_modify _ _ n _)
                        (entered_emit _ _ s1 Hl1)) as Hk.
          rewrite Hprolog in Hk. exact Hk.
        - apply (H56 _ Hi), (H45 _ Hi), (H34 _ Hi).
          exact (pre_enters E fuel self s2 s3 b N Hpre Hl2).
        - apply (H56 _ Hi), (H45 _ Hi). exact Hc.
        - apply (H56 _ Hi), (H45 _ Hi). exact Ht.
        - apply (H56 _ Hi). exact (post_enters E fuel self s4 s5 b' N Hpost Hl4).
        - exact (epilog_enters E fuel self s5 s6 N Hepilog Hl5).
        - apply elem_of_nil in He. contradiction. }
      repeat (constructor; [apply Hall; repeat constructor|]). constructor.
  - split; [reflexivity|]. split; [reflexivity|]. split; [reflexivity|].
    eexists. split; [vm_compute; reflexivity|].
    split.
    { repeat constructor; vm_compute; apply bool_decide_unpack; vm_compute; exact I. }
    split; [vm_compute; reflexivity|]. split; [vm_compute; reflexivity|].
    split; [vm_compute; reflexivity|]. split; [vm_compute; reflexivity|].
    split; [|reflexivity].
    apply list_elem_of_In. vm_compute. repeat (first [left; reflexivity|right]).
Qed.

(** ** Setters at a hole *)

(** The loop of a setter up to the first hole: the objects before it get
    the value, then the [AttributeError]. *)
Lemma assign_until_hole (f : Node -> Node) (before : list ref) (rest : list (option ref)) :
  forall st, exists st',
    for_each (map Some before ++ None :: rest)
      (fun x => match x with
                | Some x => modify x f
                | None => raise AttributeError
                end) st = Raise AttributeError st' /\
    (forall y, y ∈ before -> exists n, heap st' !!! y = f n) /\
    (forall y, y ∉ before -> heap st' !!! y = heap st !!! y).
Proof.
  induction before as [|a before IH]; intros st.
  - exists st. split; [reflexivity|]. split; [|reflexivity].
    intros y Hy. apply elem_of_nil in Hy. contradiction.
  - cbn [map app for_each]. unfold bind at 1, modify at 1.
    destruct (IH (mkState (<[a := f (heap st !!! a)]> (heap st)) (handlers st) (out st)))
      as (st' & Hrun & Hin & Hout).
    exists st'. split; [exact Hrun|]. split.
    + intros y Hy. destruct (decide (y ∈ before)) as [Hys|Hys]; [auto|].
      apply elem_of_cons in Hy as [->|Hy]; [|contradiction].
      rewrite (Hout a Hys), lookup_modify.
      rewrite decide_True by reflexivity. eauto.
    + intros y Hy. apply not_elem_of_cons in Hy as [Hne Hys].
      rewrite (Hout y Hys), lookup_modify.
      rewrite decide_False by congruence. reflexivity.
Qed.

Lemma flag_until_hole (self : ref) (f : Node -> Node) (flag : Node -> bool) (v : bool)
    (before : list ref) (rest : list (option ref)) (st : State) :
  (forall n, flag (f n) = v) ->
  (forall n, _followers (f n) = _followers n) ->
  _followers (heap st !!! self) = map Some before ++ None :: rest ->
  exists st',
    (modify self f;; assign_followers self f) st = Raise AttributeError st' /\
    flag (heap st' !!! self) = v /\
    (forall y, y ∈ before -> flag (heap st' !!! y) = v) /\
    (forall y, y <> self -> y ∉ before -> heap st' !!! y = heap st !!! y).
Proof.
  intros Hflag Hkeep Hlist. unfold bind at 1, modify at 1.
  set (st1 := mkState _ _ _).
  assert (Hfs : _followers (heap st1 !!! self) = map Some before ++ None :: rest).
  { unfold st1. rewrite lookup_modify, decide_True by reflexivity.
    rewrite Hkeep. exact Hlist. }
  unfold assign_followers, bind at 1, node at 1. rewrite Hfs.
  destruct (assign_until_hole f before rest st1) as (st' & Hrun & Hin & Hout).
  exists st'. split; [exact Hrun|]. split; [|split].
  - destruct (decide (self ∈ before)) as [Hs|Hs].
    + destruct (Hin self Hs) as [n ->]. apply Hflag.
    + rewrite (Hout self Hs). unfold st1.
      rewrite lookup_modify, decide_True by reflexivity. apply Hflag.
  - intros y Hy. destruct (Hin y Hy) as [n ->]. apply Hflag.
  - intros y Hne Hy. rewrite (Hout y Hy). unfold st1.
    rewrite lookup_modify, decide_False by congruence. reflexivity.
Qed.

(** Assigning [batch] or [gui] on an object whose list has a hole, as
    [destruct] of a follower leaves one: the setter stores the value in the
    object and in the followers listed before the first hole, then raises an
    [AttributeError]; what stands after the hole keeps its flag. *)
Theorem flag_setters_stop_at_a_hole
    (E : Env) (self : ref) (v : bool) (before : list ref) (rest : list (option ref))
    (st : State) :
  _followers (heap st !!! self) = map Some before ++ None :: rest ->
  (exists st',
     set_batch self v st = Raise AttributeError st' /\
     _batch (heap st' !!! self) = v /\
     (forall y, y ∈ before -> _batch (heap st' !!! y) = v) /\
     (forall y, y <> self -> y ∉ before -> heap st' !!! y = heap st !!! y)) /\
  (exists st',
     set_gui E self v st = Raise AttributeError st' /\
     _gui (heap st' !!! self) = (tkinter_loaded E && v) /\
     (forall y, y ∈ before -> _gui (heap st' !!! y) = (tkinter_loaded E && v)) /\
     (forall y, y <> self -> y ∉ before -> heap st' !!! y = heap st !!! y)).
Proof.
  intros Hlist. split.
  - unfold set_batch. apply (flag_until_hole self _ _batch v before rest st);
      [intros n; reflexivity|intros n; reflexivity|exact Hlist].
  - unfold set_gui. destruct (tkinter_loaded E); cbn [andb].
    + unfold bind at 1, ret at 1.
      apply (flag_until_hole self _ _gui v before rest st);
        [intros n; reflexivity|intros n; reflexivity|exact Hlist].
    + unfold bind at 1, bind at 1.
      destruct (warn_heap E self MsgNoTkinter st) as (st0 & -> & Hh). unfold ret at 1.
      destruct (flag_until_hole self (with_gui false) _gui false before rest st0)
        as (st' & Hrun & Hself & Hin & Hout);
        [intros n; reflexivity|intros n; reflexivity|rewrite Hh; exact Hlist|].
      exists st'. split; [exact Hrun|]. split; [exact Hself|]. split; [exact Hin|].
      intros y Hne Hy. rewrite (Hout y Hne Hy), Hh. reflexivity.
Qed.

(** The theorem on the sample tree after [F.destruct()]: the list of [L] is
    [[None; C]], and [C] keeps its flag. *)
Lemma flag_setters_stop_at_a_hole_witness :
  let st := Sample.after (destruct 10 Sample.F) Sample.tree in
  _followers (heap st !!! Sample.L) = map Some [] ++ None :: [Some Sample.C] /\
  (exists st',
     set_batch Sample.L true st = Raise AttributeError st' /\
     _batch (heap st' !!! Sample.L) = true /\
     _batch (heap st' !!! Sample.C) = false).
Proof.
  cbv zeta.
  assert (Hlist : _followers (heap (Sample.after (destruct 10 Sample.F) Sample.tree)
                              !!! Sample.L)
                  = map Some [] ++ None :: [Some Sample.C]).
  { vm_compute. reflexivity. }
  split; [exact Hlist|].
  destruct (proj1 (flag_setters_stop_at_a_hole Sample.primary Sample.L true [] _ _ Hlist))
    as (st' & Hrun & Hself & _ & Hout).
  exists st'. split; [exact Hrun|]. split; [exact Hself|].
  rewrite (Hout Sample.C).
  - vm_compute. reflexivity.
  - discriminate.
  - intros H. apply elem_of_nil in H. contradiction.
Defined.

(** ** Leaving the program *)

(** [terminate] destroys, then exits.  On a node of a tree it ends,
    everything the node owns destroyed, with [SystemExit];
    but on a node that its leader lists and whose payload counts as true
    the [AttributeError] of [destruct] comes first and [sys.exit()] is not
    reached.  Assigning to [followers] is such a call: it assigns
    nothing. *)
Theorem terminate_destroys_then_exits
    (E : Env) (fuel : nat) (self : ref) (msg : message) (other : list ref)
    (ht : ref -> nat) (d : option Data) (st : State) :
  Tree.owned_acyclic (heap st) ht ->
  Tree.listed_once (heap st) ->
  (forall x, _data (heap st !!! x) <> Deleted) ->
  _data (heap st !!! self) = Bound d ->
  ht self < fuel ->
  exists st',
    Exits.terminate E fuel self msg st
    = Raise (if truthy d &&
                match _leader (heap st !!! self) with
                | Some l => bool_decide (Some self ∈ _followers (heap st !!! l))
                | None => false
                end
             then AttributeError else SystemExit) st' /\
    Exits.set_followers E fuel self other msg st = Exits.terminate E fuel self msg st /\
    forall x, Tree.owned (heap st) self x -> x <> self ->
      _data (heap st' !!! x) = Deleted /\
      forall p i, _leader (heap st !!! x) = Some p ->
                  _followers (heap st !!! p) !! i = Some (Some x) ->
                  _followers (heap st' !!! p) !! i = Some None.
Proof.
  intros Hacyc Honce Hbound Hd Hfuel. unfold Exits.set_followers, Exits.terminate.
  assert (Hhead : exists s0, heap s0 = heap st /\
            forall (k : M unit),
              (do s <- silent E self;
               when (negb s) (emit (Printed 0 msg));;
               do nd <- node self;
               when (_gui nd) (emit (Dialog self));;
               emit (Logged 0 msg);; k) st = k s0).
  { unfold bind at 1, silent, bind at 1, node at 1, ret at 1.
    destruct (negb (_silent (heap st !!! self) || rank_skip E));
      destruct (_gui (heap st !!! self)) eqn:Hg;
      eexists; (split; [|intros k; cbv [bind when emit node ret]; cbn [heap handlers out];
                         rewrite ?Hg; reflexivity]); reflexivity. }
  destruct Hhead as (s0 & Hheap & Hrun). rewrite Hrun.
  destruct (destruct_wake (heap st) self ht Hacyc Honce fuel s0 d Hheap Hbound Hd Hfuel)
    as (st' & Hdes & W & Hempty).
  exists st'. split; [|split; [reflexivity|]].
  - unfold bind at 1. rewrite Hdes. destruct (_ && _); reflexivity.
  - intros x Hx Hne.
    exact (proj2 (wake_owned_destroyed (heap st) self st' W Hempty x Hx) Hne).
Qed.

(** The theorem on the sample tree: [L.followers = []] destroys [F] and [G]
    and exits. *)
Lemma terminate_destroys_then_exits_witness :
  Tree.owned_acyclic (heap Sample.tree) Sample.tree_height /\
  Tree.listed_once (heap Sample.tree) /\
  (forall x, _data (heap Sample.tree !!! x) <> Deleted) /\
  _data (heap Sample.tree !!! Sample.L) = Bound None /\
  Sample.tree_height Sample.L < 3 /\
  exists st',
    Exits.set_followers Sample.primary 3 Sample.L [] MsgBlank Sample.tree
    = Raise SystemExit st' /\
    _data (heap st' !!! Sample.G) = Deleted.
Proof.
  pose proof (sample_shape_owned _ sample_shape_tree) as H1.
  pose proof (sample_shape_once _ sample_shape_tree) as H2.
  assert (H3 : _data (heap Sample.tree !!! Sample.L) = Bound None).
  { rewrite sample_tree_nodes. reflexivity. }
  assert (H4 : Sample.tree_height Sample.L < 3) by (cbn; lia).
  split; [exact H1|]. split; [exact H2|]. split; [exact sample_tree_bound|].
  split; [exact H3|]. split; [exact H4|].
  destruct (terminate_destroys_then_exits Sample.primary 3 Sample.L MsgBlank []
              Sample.tree_height None Sample.tree H1 H2 sample_tree_bound H3 H4)
    as (st' & Hrun & Hset & Hown).
  exists st'. split; [rewrite Hset; exact Hrun|].
  apply (Hown Sample.G); [|discriminate].
  apply (Tree.owned_below _ _ Sample.F).
  - apply (Tree.owned_below _ _ Sample.L); [constructor| |].
    + unfold Tree.lists. rewrite sample_tree_nodes. apply elem_of_cons. left. reflexivity.
    + rewrite sample_tree_nodes. reflexivity.
  - unfold Tree.lists. rewrite sample_tree_nodes. apply elem_of_cons. left. reflexivity.
  - rewrite sample_tree_nodes. reflexivity.
Defined.

End BaseFacts.

(** * The settings of the loops *)

Section Clip.
Import Loop.
Open Scope float_scope.

(** Comparing the other way round gives the opposite answer. *)
Lemma SFcompare_antisym (x y : spec_float) :
  SFcompare y x = option_map CompOpp (SFcompare x y).
Proof.
  destruct x as [s1| s1| |s1 m1 e1], y as [s2| s2| |s2 m2 e2]; cbn;
    try reflexivity; try (destruct s1; reflexivity); try (destruct s2; reflexivity);
    try (destruct s1, s2; reflexivity).
  f_equal. rewrite (Z.compare_antisym e1 e2).
  change (PosDef.Pos.compare_cont Eq m2 m1) with (Pos.compare m2 m1).
  change (PosDef.Pos.compare_cont Eq m1 m2) with (Pos.compare m1 m2).
  rewrite (Pos.compare_antisym m1 m2).
  destruct s1, s2; try reflexivity;
    destruct (e1 ?= e2)%Z; cbn; try reflexivity;
    destruct (m1 ?= m2)%positive; reflexivity.
Qed.

Lemma not_nan_compares (x y : float) :
  is_nan x = false -> is_nan y = false ->
  exists c, SFcompare (Prim2SF x) (Prim2SF y) = Some c.
Proof.
  unfold is_nan. intros Hx Hy.
  apply negb_false_iff in Hx, Hy. rewrite FloatAxioms.eqb_spec in Hx, Hy. unfold SFeqb in Hx, Hy.
  destruct (Prim2SF x) as [s1| s1| |s1 m1 e1], (Prim2SF y) as [s2| s2| |s2 m2 e2];
    cbn in *; try discriminate; eauto.
Qed.

(** Among numbers, what is not below is at least. *)
Lemma leb_of_not_ltb (x y : float) :
  is_nan x = false -> is_nan y = false -> (y <? x) = false -> (x <=? y) = true.
Proof.
  intros Hx Hy. rewrite FloatAxioms.ltb_spec, FloatAxioms.leb_spec. unfold SFltb, SFleb.
  rewrite (SFcompare_antisym (Prim2SF x) (Prim2SF y)).
  destruct (not_nan_compares x y Hx Hy) as [c ->]. cbn.
  destruct c; cbn; congruence.
Qed.

Lemma leb_refl (x : float) : is_nan x = false -> (x <=? x) = true.
Proof.
  intros Hx. apply leb_of_not_ltb; [exact Hx|exact Hx|].
  rewrite FloatAxioms.ltb_spec. unfold SFltb.
  pose proof (SFcompare_antisym (Prim2SF x) (Prim2SF x)) as H.
  destruct (not_nan_compares x x Hx Hx) as [c Hc]. rewrite Hc in *. cbn in H.
  destruct c; try reflexivity. discriminate.
Qed.

(** [np.clip] of a number lies between the bounds. *)
Lemma clip_range (a lo hi : float) :
  is_nan a = false -> is_nan lo = false -> is_nan hi = false ->
  (lo <=? hi) = true ->
  (lo <=? clip a lo hi) = true /\ (clip a lo hi <=? hi) = true.
Proof.
  intros Ha Hlo Hhi Hle. unfold clip, np_maximum. rewrite Ha, Hlo.
  set (m := if a <? lo then lo else a).
  assert (Hm : is_nan m = false) by (unfold m; destruct (a <? lo); assumption).
  assert (Hlm : (lo <=? m) = true).
  { unfold m. destruct (a <? lo) eqn:Hc; [apply leb_refl, Hlo|].
    apply leb_of_not_ltb; assumption. }
  unfold np_minimum. rewrite Hm, Hhi.
  destruct (hi <? m) eqn:Hc.
  - split; [exact Hle|apply leb_refl, Hhi].
  - split; [exact Hlm|]. apply leb_of_not_ltb; assumption.
Qed.

End Clip.

(** What [set_nonlinear] stores.  The maximum lies in 0 .. 10^6.  When it is
    positive, the minimum lies between 0 and the maximum handed in, so it is
    within the stored maximum unless that was cut at 10^6, and a tolerance
    and a relaxation factor that are numbers lie in 0 .. 1 and in 0 .. 2.
    When it is 0, the mode is off and the minimum, the tolerance and the
    factor are not the ones handed in but the ones stored before.  The
    transient settings are not touched, and a second call with the same
    arguments changes nothing. *)
Theorem set_nonlinear_settings
    (l : Loop.Loop) (n_it_min : Z) (n_it_max : option Z) (epsilon omega : float) :
  let l' := Loop.set_nonlinear l n_it_min n_it_max epsilon omega in
  (0 <= Loop.n_it_max l' <= 1000000)%Z /\
  (Loop.is_nonlinear l' = true ->
     (0 <= Loop.n_it_min l')%Z /\
     ((default 0 n_it_max <= 1000000)%Z -> (Loop.n_it_min l' <= Loop.n_it_max l')%Z) /\
     (is_nan epsilon = false ->
        (0 <=? Loop.epsilon l')%float = true /\ (Loop.epsilon l' <=? 1)%float = true) /\
     (is_nan omega = false ->
        (0 <=? Loop.omega l')%float = true /\ (Loop.omega l' <=? 2)%float = true)) /\
  (Loop.is_nonlinear l' = false ->
     Loop.n_it_max l' = 0%Z /\ Loop.n_it_min l' = Loop.n_it_min l /\
     Loop.epsilon l' = Loop.epsilon l /\ Loop.omega l' = Loop.omega l) /\
  (Loop.it l' = Loop.it l /\ Loop.t l' = Loop.t l /\ Loop.t_begin l' = Loop.t_begin l /\
   Loop.tEnd l' = Loop.tEnd l /\ Loop.dt l' = Loop.dt l /\ Loop.theta l' = Loop.theta l) /\
  Loop.set_nonlinear l' n_it_min n_it_max epsilon omega = l'.
Proof.
  cbv zeta. unfold Loop.set_nonlinear, Loop.is_nonlinear, Loop.clipZ.
  destruct (0 <? Z.min (Z.max (default 0 n_it_max) 0) 1000000)%Z eqn:Hpos;
    cbn [Loop.n_it_max Loop.n_it_min Loop.epsilon Loop.omega Loop.it Loop.t
         Loop.t_begin Loop.tEnd Loop.dt Loop.theta]; rewrite ?Hpos.
  - apply Z.ltb_lt in Hpos.
    split; [lia|]. split; [|split; [discriminate|split; [repeat split|reflexivity]]].
    intros _. split; [lia|]. split; [lia|]. split.
    + intros Hnan. apply clip_range; [exact Hnan|reflexivity..].
    + intros Hnan. apply clip_range; [exact Hnan|reflexivity..].
  - apply Z.ltb_ge in Hpos.
    split; [lia|]. split; [discriminate|].
    split; [intros _; repeat split; lia|]. split; [repeat split|reflexivity].
Qed.

(** The step handed to [set_transient] is never stored: with a count [n]
    from 1 up to what 64 bits hold the result is the same whatever [dt] is,
    the stored step being the span from the start handed in to the stored
    end, divided by [n]; when the mode stays off, the step, the start and
    the scheme stored before are kept. *)
Theorem set_transient_ignores_dt
    (l : Loop.Loop) (t_begin : float) (t_end : option float) (dt dt' theta : float) (n : Z) :
  (0 < n < 2 ^ 64)%Z ->
  Loop.set_transient l t_begin t_end dt theta n
  = Loop.set_transient l t_begin t_end dt' theta n /\
  exists l',
    Loop.set_transient l t_begin t_end dt theta n = Loop.Stored l' /\
    (Loop.is_transient l' = true ->
     Loop.dt l' = ((Loop.tEnd l' - t_begin) / Loop.float_of_Z n)%float) /\
    (Loop.is_transient l' = false ->
     Loop.dt l' = Loop.dt l /\ Loop.t_begin l' = Loop.t_begin l /\
     Loop.theta l' = Loop.theta l).
Proof.
  intros [Hn _]. unfold Loop.set_transient, Loop.is_transient.
  replace (0 <? n)%Z with true by (symmetry; apply Z.ltb_lt; exact Hn).
  cbn [negb]. rewrite !andb_false_r.
  cbn [Loop.it Loop.n_it_min Loop.n_it_max Loop.epsilon Loop.omega Loop.t
       Loop.t_begin Loop.tEnd Loop.dt Loop.theta].
  destruct (0 <? Loop.clip (default 0 t_end) 0 1000000)%float eqn:Htr.
  - split; [reflexivity|]. eexists. split; [reflexivity|].
    cbn [Loop.tEnd Loop.dt Loop.t_begin Loop.theta]. rewrite Htr.
    split; [reflexivity|discriminate].
  - split; [reflexivity|]. eexists. split; [reflexivity|].
    cbn [Loop.tEnd Loop.dt Loop.t_begin Loop.theta]. rewrite Htr.
    split; [discriminate|]. intros _. repeat split.
Qed.

(** The theorem at the call of the example: a step of 0.25 or of 0.5, the
    stored one is 0.01. *)
Lemma set_transient_ignores_dt_witness :
  (0 < 100 < 2 ^ 64)%Z /\
  Loop.set_transient Loop.init 0%float (Some 1%float) 0.25%float 0.5%float 100
  = Loop.set_transient Loop.init 0%float (Some 1%float) 0.5%float 0.5%float 100 /\
  exists l',
    Loop.set_transient Loop.init 0%float (Some 1%float) 0.25%float 0.5%float 100
    = Loop.Stored l' /\
    Loop.dt l' = 0.01%float.
Proof.
  split; [lia|].
  destruct (set_transient_ignores_dt Loop.init 0%float (Some 1%float) 0.25%float 0.5%float
              0.5%float 100 ltac:(lia)) as (Hsame & l' & Hl' & Hdt & _).
  split; [exact Hsame|]. exists l'. split; [exact Hl'|].
  vm_compute in Hl'. injection Hl' as <-. reflexivity.
Defined.

(** * Splitting and merging *)

Section SplitMerge.
Import Parallel.

Lemma sections_length (size count : nat) (x : list Row) :
  length (sections size count x) = count.
Proof.
  revert x. induction count as [|c IH]; intros x; cbn [sections length]; [reflexivity|].
  rewrite IH. reflexivity.
Qed.

Lemma sections_concat (size count : nat) :
  forall x, length x = size * count -> concat (sections size count x) = x.
Proof.
  induction count as [|c IH]; intros x Hlen; cbn [sections concat].
  - destruct x; [reflexivity|]. cbn in Hlen. lia.
  - rewrite IH; [apply take_drop|]. rewrite length_drop. lia.
Qed.

Lemma sections_sizes (size count : nat) :
  forall x, length x = size * count ->
    Forall (fun s => length s = size) (sections size count x).
Proof.
  induction count as [|c IH]; intros x Hlen; cbn [sections]; constructor.
  - rewrite length_take. lia.
  - apply IH. rewrite length_drop. lia.
Qed.

(** [merge] keeps the rows that do not start with [np.inf]; the rows
    [split] fills up with are dropped. *)
Lemma kept_fill (nInp k : nat) (x : list Row) :
  0 < nInp ->
  Forall (fun r => r <> []) x ->
  kept (x ++ replicate k (replicate nInp infinity))
  = Returns (List.filter (fun r => negb (hd 0 r =? infinity))%float x).
Proof.
  intros Hin Hx.
  assert (Hrow : exists tl, replicate nInp infinity = infinity :: tl).
  { destruct nInp as [|m]; [lia|]. eexists. reflexivity. }
  destruct Hrow as [row ->].
  induction Hx as [|r x Hr _ IH].
  - cbn [app List.filter]. induction k as [|k IH]; [reflexivity|].
    cbn [replicate kept]. rewrite IH. reflexivity.
  - destruct r as [|y0 tl]; [contradiction|].
    cbn [app kept List.filter hd]. rewrite IH.
    destruct (negb (y0 =? infinity)%float); reflexivity.
Qed.

End SplitMerge.

(** Merging what was split.  For a 2-D array with at least one row and one
    column and a positive number of processes, [split] returns that many
    sections of one size, the number of rows divided by the number of
    processes and rounded up, and [merge] of the sections returns the rows
    of the array that do not start with [np.inf], in their order: the rows
    filled in are dropped, and so is a row of the data that starts with
    [np.inf].  When no row does, the array itself comes back. *)
Theorem merge_of_split_is_the_array (x : list Parallel.Row) (nProc nInp : nat) :
  0 < nProc ->
  0 < nInp ->
  x <> [] ->
  Forall (fun r => length r = nInp) x ->
  exists y3D,
    Parallel.split (Some x) nProc = Parallel.Returns y3D /\
    length y3D = nProc /\
    Forall (fun s => length s = (length x + nProc - 1) / nProc) y3D /\
    Parallel.merge (Some y3D)
    = Parallel.Returns (List.filter (fun r => negb (hd 0 r =? infinity))%float x) /\
    (Forall (fun r => (hd 0%float r =? infinity)%float = false) x ->
     Parallel.merge (Some y3D) = Parallel.Returns x).
Proof.
  intros Hp Hi Hne Hrect. unfold Parallel.split.
  replace (nProc =? 0)%nat with false by (symmetry; apply Nat.eqb_neq; lia).
  assert (Hhd : length (hd [] x) = nInp).
  { destruct x as [|r x]; [contradiction|]. inversion Hrect; subst. reflexivity. }
  rewrite Hhd.
  assert (Hrows : Forall (fun r : Parallel.Row => r <> []) x).
  { apply Forall_forall. intros r Hr.
    pose proof (proj1 (Forall_forall _ _) Hrect r Hr) as Hlen.
    destruct r; [cbn in Hlen; lia|discriminate]. }
  assert (Hall : Forall (fun r => (hd 0%float r =? infinity)%float = false) x ->
                 List.filter (fun r => negb (hd 0 r =? infinity))%float x = x).
  { clear. induction 1 as [|r x Hr _ IH]; [reflexivity|].
    cbn [List.filter]. rewrite Hr, IH. reflexivity. }
  set (n := length x) in *.
  pose proof (Nat.div_mod_eq n nProc) as Hdm.
  pose proof (Nat.mod_upper_bound n nProc ltac:(lia)) as Hub.
  destruct (n mod nProc =? 0)%nat eqn:Hmod; cbn [negb].
  - apply Nat.eqb_eq in Hmod.
    assert (Hlen : length x = n / nProc * nProc) by (fold n; lia).
    assert (Hsize : (n + nProc - 1) / nProc = n / nProc).
    { symmetry. apply (Nat.div_unique _ _ _ (nProc - 1)); lia. }
    assert (Hmerge : Parallel.merge (Some (Parallel.sections (n / nProc) nProc x))
                     = Parallel.Returns
                         (List.filter (fun r => negb (hd 0 r =? infinity))%float x)).
    { unfold Parallel.merge. rewrite sections_concat by exact Hlen.
      rewrite <- (app_nil_r x) at 1. apply (kept_fill nInp 0 x Hi Hrows). }
    eexists. split; [reflexivity|]. split; [apply sections_length|]. split; [|split].
    + rewrite Hsize. fold n. apply sections_sizes. exact Hlen.
    + fold n. exact Hmerge.
    + intros Hfin. fold n. rewrite Hmerge, (Hall Hfin). reflexivity.
  - apply Nat.eqb_neq in Hmod.
    set (fill := replicate ((n / nProc + 1) * nProc - n) (replicate nInp infinity)).
    assert (Hlen : length (x ++ fill) = (n / nProc + 1) * nProc).
    { rewrite length_app. unfold fill. rewrite length_replicate. fold n. nia. }
    assert (Hdiv : length (x ++ fill) / nProc = n / nProc + 1).
    { rewrite Hlen. apply Nat.div_mul. lia. }
    assert (Hsize : (n + nProc - 1) / nProc = n / nProc + 1).
    { symmetry. apply (Nat.div_unique _ _ _ (n mod nProc - 1)); lia. }
    assert (Hmerge : Parallel.merge
                       (Some (Parallel.sections (length (x ++ fill) / nProc) nProc
                                (x ++ fill)))
                     = Parallel.Returns
                         (List.filter (fun r => negb (hd 0 r =? infinity))%float x)).
    { unfold Parallel.merge. rewrite Hdiv.
      rewrite sections_concat by (rewrite Hlen; reflexivity).
      apply (kept_fill nInp _ x Hi Hrows). }
    eexists. split; [reflexivity|]. split; [apply sections_length|]. split; [|split].
    + rewrite Hsize, Hdiv. apply sections_sizes. rewrite Hlen. reflexivity.
    + exact Hmerge.
    + intros Hfin. rewrite Hmerge, (Hall Hfin). reflexivity.
Qed.

(** The theorem at three points with two inputs, split for two processes:
    two sections of two points, the last one filled in. *)
Lemma merge_of_split_is_the_array_witness :
  let x := [[1; 2]; [3; 4]; [5; 6]]%float in
  0 < 2 /\ 0 < 2 /\ x <> [] /\
  Forall (fun r => length r = 2) x /\
  Parallel.split (Some x) 2
  = Parallel.Returns [[[1; 2]; [3; 4]]; [[5; 6]; [infinity; infinity]]]%float /\
  exists y3D,
    Parallel.split (Some x) 2 = Parallel.Returns y3D /\
    Parallel.merge (Some y3D) = Parallel.Returns x.
Proof.
  cbv zeta.
  assert (Hrect : Forall (fun r : Parallel.Row => length r = 2)
                    [[1; 2]; [3; 4]; [5; 6]]%float)
    by (repeat constructor).
  split; [lia|]. split; [lia|]. split; [discriminate|].
  split; [exact Hrect|]. split; [reflexivity|].
  destruct (merge_of_split_is_the_array [[1; 2]; [3; 4]; [5; 6]]%float 2 2
              ltac:(lia) ltac:(lia) ltac:(discriminate) Hrect)
    as (y3D & Hsplit & _ & _ & _ & Hback).
  exists y3D. split; [exact Hsplit|]. apply Hback. repeat constructor.
Defined.

(** * Keyword arguments *)

Section KeywordFacts.
Import Keywords.
Context {V : Type}.

Lemma kwargsDel_lookup (ks : list string) :
  forall (kwargs : gmap string V) (k : string),
    foldl (fun dic key => if decide (is_Some (dic !! key)) then delete key dic else dic)
          kwargs ks !! k
    = if decide (k ∈ ks) then None else kwargs !! k.
Proof.
  induction ks as [|key ks IH]; intros kwargs k; cbn [foldl].
  - rewrite decide_False; [reflexivity|]. intros H. apply elem_of_nil in H. exact H.
  - rewrite IH. destruct (decide (k ∈ ks)) as [Hin|Hout].
    + rewrite decide_True; [reflexivity|]. right. exact Hin.
    + destruct (decide (k = key)) as [->|Hne].
      * rewrite (decide_True (P := key ∈ key :: ks)) by left.
        destruct (decide (is_Some (kwargs !! key))) as [Hs|Hn].
        -- apply lookup_delete_eq.
        -- apply eq_None_not_Some. exact Hn.
      * rewrite (decide_False (P := k ∈ key :: ks)).
        -- destruct (decide (is_Some (kwargs !! key))); [|reflexivity].
           apply lookup_delete_ne. congruence.
        -- intros H. apply elem_of_cons in H as [H|H]; contradiction.
Qed.

Lemma first_of_missing (kwargs : gmap string V) (ks : list string) (default : V) :
  (forall k, k ∈ ks -> kwargs !! k = None) -> first_of kwargs ks default = default.
Proof.
  induction ks as [|key ks IH]; intros Hnone; cbn [first_of]; [reflexivity|].
  rewrite (Hnone key) by left. apply IH. intros k Hk. apply Hnone. right. exact Hk.
Qed.

End KeywordFacts.

(** Stripping twice is stripping once. *)
Lemma rstrip_nul_idem (s : string) :
  Keywords.rstrip_nul (Keywords.rstrip_nul s) = Keywords.rstrip_nul s.
Proof.
  induction s as [|c s IH]; [reflexivity|].
  cbn [Keywords.rstrip_nul].
  destruct (Keywords.rstrip_nul s) as [|d r] eqn:Ht.
  - destruct (Ascii.eqb c Ascii.zero) eqn:Hc; [reflexivity|].
    cbn [Keywords.rstrip_nul]. rewrite Hc. reflexivity.
  - change (Keywords.rstrip_nul (String c (String d r)))
      with (match Keywords.rstrip_nul (String d r) with
            | EmptyString =>
                if Ascii.eqb c Ascii.zero then EmptyString else String c EmptyString
            | rest => String c rest
            end).
    rewrite IH. reflexivity.
Qed.

(** Removing and looking up keywords.  The keys are the ones handed in as
    [np.atleast_1d] gives them back, without NUL characters at their end.
    [kwargsDel] answers a dictionary without these keys and with every other
    entry as it was; a key that is not there is passed over.  [kwargsGet]
    answers the value of the first of the keys that is in the dictionary,
    and the default when none is; so after [kwargsDel] of some keys
    [kwargsGet] of these keys answers the default. *)
Theorem keywords_removed_and_found
    (V : Type) (kwargs : gmap string V) (ks : Keywords.keys) (default : V) :
  (forall k, Keywords.kwargsDel kwargs ks !! k
             = if decide (k ∈ Keywords.atleast_1d ks) then None else kwargs !! k) /\
  Keywords.kwargsGet (Keywords.kwargsDel kwargs ks) ks default = default /\
  ((forall k, k ∈ Keywords.atleast_1d ks -> kwargs !! k = None) ->
   Keywords.kwargsGet kwargs ks default = default) /\
  (forall before key after v,
     Keywords.atleast_1d ks = before ++ key :: after ->
     (forall k, k ∈ before -> kwargs !! k = None) ->
     kwargs !! key = Some v ->
     Keywords.kwargsGet kwargs ks default = v) /\
  (forall k, k ∈ Keywords.atleast_1d ks -> Keywords.rstrip_nul k = k) /\
  Keywords.atleast_1d (Keywords.One ("a" +:+ String Ascii.zero EmptyString)) = ["a"].
Proof.
  split; [|split; [|split; [|split; [|split; [|reflexivity]]]]];
    [| | | |intros k Hk; destruct ks as [key|keys]; cbn [Keywords.atleast_1d] in Hk;
            [apply list_elem_of_singleton in Hk; subst k; apply rstrip_nul_idem
            |apply list_elem_of_fmap in Hk as (k0 & -> & _); apply rstrip_nul_idem]].
  - intros k. apply kwargsDel_lookup.
  - unfold Keywords.kwargsGet. apply first_of_missing. intros k Hk.
    unfold Keywords.kwargsDel. rewrite kwargsDel_lookup, decide_True by exact Hk.
    reflexivity.
  - apply first_of_missing.
  - intros before key after v Hks Hnone Hv. unfold Keywords.kwargsGet. rewrite Hks.
    clear Hks. induction before as [|b before IH]; cbn [app Keywords.first_of].
    + rewrite Hv. reflexivity.
    + rewrite (Hnone b) by left. apply IH. intros k Hk. apply Hnone. right. exact Hk.
Qed.
